(** * Vuenify: the attribute-block rebuilder, embedded and verified

    A shallow embedding of the formatting core of the Vuenify extension:
    [attributeFormatter.ts] ([buildUnifiedAttributeReplacement] and its
    helpers), [directiveTransform.ts] ([getDirectiveTransform],
    [buildDirective]), [transformer.ts] ([vuenifyTransform]) and the test
    utility [applyEdits].

    Conventions of the embedding.
    - A JavaScript string is a [string]; one [ascii] stands for one code
      unit, so the model covers documents whose code units are below 256.
    - Offsets are [Z]: the code subtracts offsets and hands the result to
      [String.prototype.slice], which gives negative arguments a meaning.
    - The parsers of [@vue/compiler-sfc] and [@vue/compiler-dom] are
      libraries outside the repository. [vuenifyTransform] takes them as
      parameters; the nodes they produce are records with the fields the
      code reads.
    - Object identity ([p !== props[idx]]) is modelled by a reference
      attached to every prop of the working arrays. *)

From stdpp Require Import base list strings gmap sorting.
From Stdlib Require Import ZArith Lia Ascii Sorting.Sorted Sorting.Permutation.

Local Open Scope string_scope.
Local Open Scope Z_scope.

(** ** JavaScript string primitives *)

Module Js.

Definition DQ : ascii := "034"%char.
Definition SQ : ascii := "039"%char.
Definition NL : ascii := "010"%char.

Definition str (c : ascii) : string := String c EmptyString.

(** The code units below 256 that [\s] and [trim] treat as white space:
    TAB, LF, VT, FF, CR, SPACE and NBSP. *)
Definition isSpace (c : ascii) : bool :=
  let n := N_of_ascii c in
  ((9 <=? n) && (n <=? 13) || (n =? 32) || (n =? 160))%N.

Definition isEmpty (s : string) : bool :=
  match s with EmptyString => true | String _ _ => false end.

(** [Boolean(s)] on a string. *)
Definition truthy (s : string) : bool := negb (isEmpty s).

(** [s.includes(sub)] *)
Definition includes (sub s : string) : bool :=
  match String.index 0 sub s with Some _ => true | None => false end.

(** [s.indexOf(sub)] *)
Definition indexOf (sub s : string) : Z :=
  match String.index 0 sub s with Some n => Z.of_nat n | None => -1 end.

(** The relative-index rule shared by the two arguments of [slice]. *)
Definition sliceIndex (len i : Z) : Z :=
  if i <? 0 then Z.max (len + i) 0 else Z.min i len.

(** [s.slice(a, b)] *)
Definition slice (s : string) (a b : Z) : string :=
  let len := Z.of_nat (String.length s) in
  let from := sliceIndex len a in
  let to := sliceIndex len b in
  String.substring (Z.to_nat from) (Z.to_nat (Z.max (to - from) 0)) s.

(** [s.slice(a)] *)
Definition sliceFrom (s : string) (a : Z) : string :=
  slice s a (Z.of_nat (String.length s)).

(** [s.startsWith(p)] and [s.endsWith(p)] *)
Definition startsWith (p s : string) : bool := String.prefix p s.

Definition endsWith (p s : string) : bool :=
  let n := String.length s in
  let k := String.length p in
  (k <=? n)%nat && String.eqb (String.substring (n - k) k s) p.

Fixpoint trimStart (s : string) : string :=
  match s with
  | EmptyString => EmptyString
  | String c r => if isSpace c then trimStart r else s
  end.

Fixpoint trimEnd (s : string) : string :=
  match s with
  | EmptyString => EmptyString
  | String c r =>
      let r' := trimEnd r in
      if isSpace c && isEmpty r' then EmptyString else String c r'
  end.

(** [s.trim()] *)
Definition trim (s : string) : string := trimEnd (trimStart s).

(** [s.split(/\s+/)]: the pieces between maximal runs of white space,
    empty pieces at either end included. [cur] is the piece being read and
    [inGap] tells that the previous code unit was white space. *)
Fixpoint splitSpacesFrom (cur : string) (inGap : bool) (s : string) : list string :=
  match s with
  | EmptyString => [cur]
  | String c r =>
      if isSpace c
      then (if inGap then splitSpacesFrom EmptyString true r
            else cur :: splitSpacesFrom EmptyString true r)
      else splitSpacesFrom (cur +:+ str c) false r
  end.

Definition splitSpaces (s : string) : list string :=
  splitSpacesFrom EmptyString false s.

(** The longest prefix of white space: what [(\s+)] captures. *)
Fixpoint takeSpaces (s : string) : string :=
  match s with
  | EmptyString => EmptyString
  | String c r => if isSpace c then String c (takeSpaces r) else EmptyString
  end.

Definition startsWithSpace (s : string) : bool :=
  match s with EmptyString => false | String c _ => isSpace c end.

(** [s.match(/\n(\s+)/)], reduced to its first capture group. *)
Fixpoint matchNewlineIndent (s : string) : option string :=
  match s with
  | EmptyString => None
  | String c r =>
      if Ascii.eqb c NL && startsWithSpace r then Some (takeSpaces r)
      else matchNewlineIndent r
  end.

(** [l.join(sep)] *)
Definition join (sep : string) (l : list string) : string := String.concat sep l.

(** [[...new Set(l)]]: a set keeps its members in insertion order, and
    adding a member that is present changes nothing. *)
Definition setAdd (seen : list string) (x : string) : list string :=
  if existsb (String.eqb x) seen then seen else seen ++ [x].

Definition uniq (l : list string) : list string := foldl setAdd [] l.

(** [Array.prototype.sort(cmp)] for a consistent comparator, the case in
    which ECMAScript fixes the result: the sorted permutation in which
    elements that compare equal keep their order. It is computed by
    insertion from the right, an element going in front of the first
    element it does not compare greater than. For other comparators the
    order is left to the engine and this function does not model it;
    every comparator the program passes is consistent. *)
Fixpoint insertBy {T} (cmp : T -> T -> Z) (x : T) (l : list T) : list T :=
  match l with
  | [] => [x]
  | y :: r => if cmp x y <=? 0 then x :: y :: r else y :: insertBy cmp x r
  end.

Fixpoint sortBy {T} (cmp : T -> T -> Z) (l : list T) : list T :=
  match l with
  | [] => []
  | x :: r => insertBy cmp x (sortBy cmp r)
  end.

End Js.

(** ** Data model *)

(** [SourceLocation]: [start.offset], [end.offset] and [source]. *)
Record SourceLocation := mkLoc {
  start_offset : Z;
  end_offset : Z;
  source : string
}.

(** [AttributeNode]: [value] holds [value.content] when the attribute has
    a value node. *)
Record AttributeNode := mkAttribute {
  attr_name : string;
  attr_value : option string;
  attr_loc : SourceLocation
}.

(** [DirectiveNode]: [arg] and [exp] hold the [loc.source] of the argument
    and of the expression, [modifiers] the [content] of each modifier. *)
Record DirectiveNode := mkDirective {
  dir_name : string;
  dir_arg : option string;
  dir_modifiers : list string;
  dir_exp : option string;
  dir_loc : SourceLocation
}.

Inductive PropNode :=
  | ATTRIBUTE (a : AttributeNode)
  | DIRECTIVE (d : DirectiveNode).

Inductive NodeTypes := ELEMENT | TEXT | COMMENT | INTERPOLATION.

(** A node of the template tree. [children] is [None] for the node kinds
    that carry no [children] array. *)
#[local] Unset Elimination Schemes.
Inductive TemplateChildNode :=
  | Node (type : NodeTypes) (loc : SourceLocation) (props : list PropNode)
         (children : option (list TemplateChildNode)).
#[local] Set Elimination Schemes.

Definition node_type (n : TemplateChildNode) : NodeTypes :=
  match n with Node t _ _ _ => t end.
Definition node_loc (n : TemplateChildNode) : SourceLocation :=
  match n with Node _ l _ _ => l end.
Definition node_props (n : TemplateChildNode) : list PropNode :=
  match n with Node _ _ ps _ => ps end.
Definition node_children (n : TemplateChildNode) : option (list TemplateChildNode) :=
  match n with Node _ _ _ cs => cs end.

Record Replacement := mkReplacement {
  start : Z;
  end_ : Z;
  value : string
}.

Inductive Layout := inline | preserve.
Inductive DirectiveStyle := short | long.
Inductive SameNameMode := ignore | removeValue | addValue.

Record ResolvedVuenifyOptions := mkOptions {
  attributeLayout : Layout;
  classLayout : Layout;
  directiveOrder : list string;
  directiveStyle : DirectiveStyle;
  normalizeDirectives : bool;
  orderAttributes : bool;
  orderDirectives : bool;
  removeDuplicates : bool;
  sameNameMode : SameNameMode;
  sortClasses : bool
}.

Record VuenifyOptions := mkPartialOptions {
  attributeLayout_opt : option Layout;
  classLayout_opt : option Layout;
  directiveOrder_opt : option (list string);
  directiveStyle_opt : option DirectiveStyle;
  normalizeDirectives_opt : option bool;
  orderAttributes_opt : option bool;
  orderDirectives_opt : option bool;
  removeDuplicates_opt : option bool;
  sameNameMode_opt : option SameNameMode;
  sortClasses_opt : option bool
}.

Definition defaultOptions : ResolvedVuenifyOptions := {|
  attributeLayout := inline;
  classLayout := inline;
  directiveOrder := ["if"; "else"; "else-if"; "for"; "on"; "model"; "bind"];
  directiveStyle := short;
  normalizeDirectives := true;
  orderAttributes := true;
  orderDirectives := true;
  removeDuplicates := true;
  sameNameMode := ignore;
  sortClasses := true
|}.

(** [{ ...defaultOptions, ...options }] *)
Definition resolveOptions (options : option VuenifyOptions) : ResolvedVuenifyOptions :=
  match options with
  | None => defaultOptions
  | Some o => {|
      attributeLayout := default (attributeLayout defaultOptions) (attributeLayout_opt o);
      classLayout := default (classLayout defaultOptions) (classLayout_opt o);
      directiveOrder := default (directiveOrder defaultOptions) (directiveOrder_opt o);
      directiveStyle := default (directiveStyle defaultOptions) (directiveStyle_opt o);
      normalizeDirectives := default (normalizeDirectives defaultOptions) (normalizeDirectives_opt o);
      orderAttributes := default (orderAttributes defaultOptions) (orderAttributes_opt o);
      orderDirectives := default (orderDirectives defaultOptions) (orderDirectives_opt o);
      removeDuplicates := default (removeDuplicates defaultOptions) (removeDuplicates_opt o);
      sameNameMode := default (sameNameMode defaultOptions) (sameNameMode_opt o);
      sortClasses := default (sortClasses defaultOptions) (sortClasses_opt o)
    |}
  end.

Definition isPreserve (l : Layout) : bool :=
  match l with preserve => true | inline => false end.

Definition modeEqb (a b : SameNameMode) : bool :=
  match a, b with
  | ignore, ignore | removeValue, removeValue | addValue, addValue => true
  | _, _ => false
  end.

(** ** directiveTransform.ts *)

Module DirectiveTransform.
Import Js.

Definition argSource (prop : DirectiveNode) : string := default "" (dir_arg prop).

(** [modifierStr]: the dot-joined modifiers, empty ones dropped. *)
Definition modifierStr (prop : DirectiveNode) : string :=
  let modifiers := List.filter truthy (dir_modifiers prop) in
  match modifiers with
  | [] => ""
  | _ => "." +:+ join "." modifiers
  end.

Definition hasValue (prop : DirectiveNode) : bool :=
  match dir_exp prop with Some _ => true | None => false end.

(** [originalValuePart]: from the first [=] of the source to its end. *)
Definition originalValuePart (prop : DirectiveNode) : string :=
  let raw := source (dir_loc prop) in
  if hasValue prop then
    let equalIndex := indexOf "=" raw in
    if negb (equalIndex =? -1) then sliceFrom raw equalIndex else ""
  else "".

Definition normalizedArg (arg : string) : string :=
  let isDynamic := startsWith "[" arg && endsWith "]" arg in
  trim (if isDynamic then slice arg 1 (-1) else arg).

(** The value of [valuePart] when [buildDirective] is called. *)
Definition valuePart (prop : DirectiveNode) (sameNameMode : SameNameMode) : string :=
  let name := dir_name prop in
  let arg := argSource prop in
  let valuePart0 := originalValuePart prop in
  if String.eqb name "bind" && truthy arg && negb (modeEqb sameNameMode ignore) then
    let valuePart1 :=
      if modeEqb sameNameMode removeValue && hasValue prop then
        let expContent := trim (default "" (dir_exp prop)) in
        if String.eqb expContent (normalizedArg arg) then "" else valuePart0
      else valuePart0 in
    if modeEqb sameNameMode addValue && negb (hasValue prop) then
      "=" +:+ str DQ +:+ normalizedArg arg +:+ str DQ
    else valuePart1
  else valuePart0.

Definition buildDirective (raw name arg modifierStr valuePart : string)
    (style : DirectiveStyle) : string :=
  let isSupported := String.eqb name "bind" || String.eqb name "on" || String.eqb name "slot" in
  if negb isSupported then raw
  else
    match style with
    | short =>
        if String.eqb name "bind" && truthy arg then ":" +:+ arg +:+ modifierStr +:+ valuePart
        else if String.eqb name "on" && truthy arg then "@" +:+ arg +:+ modifierStr +:+ valuePart
        else if String.eqb name "slot" && truthy arg then "#" +:+ arg +:+ modifierStr +:+ valuePart
        else raw
    | long =>
        if String.eqb name "bind" && truthy arg then "v-bind:" +:+ arg +:+ modifierStr +:+ valuePart
        else if String.eqb name "on" && truthy arg then "v-on:" +:+ arg +:+ modifierStr +:+ valuePart
        else if String.eqb name "slot" && truthy arg then "v-slot:" +:+ arg +:+ modifierStr +:+ valuePart
        else raw
    end.

(** The string [newDirective] of [getDirectiveTransform]. *)
Definition newDirective (prop : DirectiveNode) (style : DirectiveStyle)
    (sameNameMode : SameNameMode) : string :=
  buildDirective (source (dir_loc prop)) (dir_name prop) (argSource prop)
    (modifierStr prop) (valuePart prop sameNameMode) style.

Definition getDirectiveTransform (prop : DirectiveNode) (templateOffset : Z)
    (style : DirectiveStyle) (sameNameMode : SameNameMode) : option Replacement :=
  let raw := source (dir_loc prop) in
  if isEmpty raw then None
  else
    let newDirective := newDirective prop style sameNameMode in
    if negb (String.eqb raw newDirective) then
      Some {| start := templateOffset + start_offset (dir_loc prop);
              end_ := templateOffset + end_offset (dir_loc prop);
              value := newDirective |}
    else None.

End DirectiveTransform.

(** ** attributeFormatter.ts *)

Module AttributeFormatter.
Import Js.

Definition isAttributeNode (p : PropNode) : bool :=
  match p with ATTRIBUTE _ => true | DIRECTIVE _ => false end.

Definition isDirectiveNode (p : PropNode) : bool :=
  match p with DIRECTIVE _ => true | ATTRIBUTE _ => false end.

Definition propLoc (p : PropNode) : SourceLocation :=
  match p with ATTRIBUTE a => attr_loc a | DIRECTIVE d => dir_loc d end.

Definition propName (p : PropNode) : string :=
  match p with ATTRIBUTE a => attr_name a | DIRECTIVE d => dir_name d end.

(** [!!p.value] *)
Definition propHasValue (p : PropNode) : bool :=
  match p with
  | ATTRIBUTE a => match attr_value a with Some _ => true | None => false end
  | DIRECTIVE _ => false
  end.

Definition withSource (l : SourceLocation) (newSource : string) : SourceLocation :=
  {| start_offset := start_offset l; end_offset := end_offset l; source := newSource |}.

Definition cloneAttributeWithSource (original : AttributeNode) (newSource : string)
    : AttributeNode :=
  {| attr_name := attr_name original;
     attr_value := attr_value original;
     attr_loc := withSource (attr_loc original) newSource |}.

Definition cloneDirectiveWithSource (original : DirectiveNode) (newSource : string)
    : DirectiveNode :=
  {| dir_name := dir_name original;
     dir_arg := dir_arg original;
     dir_modifiers := dir_modifiers original;
     dir_exp := dir_exp original;
     dir_loc := withSource (dir_loc original) newSource |}.

Definition asciiCompare (a b : string) : Z :=
  if String.eqb a b then 0 else if String.ltb a b then -1 else 1.

(** [stableSort]: the items paired with their index, sorted by [compare]
    and then by index. *)
Definition withIndex {T} (items : list T) : list (T * Z) :=
  imap (fun index value => (value, Z.of_nat index)) items.

Definition indexedCompare {T} (compare : T -> T -> Z) (a b : T * Z) : Z :=
  let result := compare a.1 b.1 in
  if negb (result =? 0) then result else a.2 - b.2.

Definition stableSort {T} (items : list T) (compare : T -> T -> Z) : list T :=
  map fst (sortBy (indexedCompare compare) (withIndex items)).

(** *** Layout strategy *)

(** [gap]: the text of the element between its first two props. *)
Definition gap (element : TemplateChildNode) : string :=
  let fullContent := source (node_loc element) in
  match node_props element with
  | p0 :: p1 :: _ =>
      let firstEnd := end_offset (propLoc p0) - start_offset (node_loc element) in
      let secondStart := start_offset (propLoc p1) - start_offset (node_loc element) in
      slice fullContent firstEnd secondStart
  | _ => ""
  end.

Definition separator (element : TemplateChildNode) (options : ResolvedVuenifyOptions)
    : string :=
  if isPreserve (attributeLayout options) && (1 <? length (node_props element))%nat then
    if includes (str NL) (gap element) then gap element else " "
  else " ".

(** *** Class processing *)

Definition classes (rawValue : string) : list string :=
  List.filter truthy (splitSpaces rawValue).

Definition processed (options : ResolvedVuenifyOptions) (rawValue : string) : list string :=
  let processed0 := classes rawValue in
  let processed1 := if removeDuplicates options then uniq processed0 else processed0 in
  if sortClasses options then sortBy asciiCompare processed1 else processed1.

Definition quote (originalSource : string) : string :=
  if includes (str SQ) originalSource then str SQ else str DQ.

(** [processed[0]] inside a string concatenation: [undefined] prints as
    the word when the array is empty. *)
Definition firstOrUndefined (l : list string) : string :=
  match l with [] => "undefined" | c :: _ => c end.

Definition rebuiltValue (options : ResolvedVuenifyOptions) (originalSource : string)
    (processed : list string) : string :=
  if isPreserve (classLayout options) && includes (str NL) originalSource then
    let indent := default "  " (matchNewlineIndent originalSource) in
    firstOrUndefined processed +:+
      join "" (map (fun c => str NL +:+ indent +:+ c) (tail processed))
  else join " " processed.

Definition rebuilt (options : ResolvedVuenifyOptions) (prop : AttributeNode)
    (rawValue : string) : string :=
  let originalSource := source (attr_loc prop) in
  let quote := quote originalSource in
  "class=" +:+ quote +:+ rebuiltValue options originalSource (processed options rawValue)
    +:+ quote.

(** The class branch of the first pass: the clone when one is made. *)
Definition classPass (options : ResolvedVuenifyOptions) (prop : AttributeNode)
    : option AttributeNode :=
  match attr_value prop with
  | Some rawValue =>
      if String.eqb (attr_name prop) "class"
         && (sortClasses options || removeDuplicates options) then
        let rebuilt := rebuilt options prop rawValue in
        if negb (String.eqb rebuilt (source (attr_loc prop)))
        then Some (cloneAttributeWithSource prop rebuilt)
        else None
      else None
  | None => None
  end.

(** The directive branch of the first pass. *)
Definition directivePass (options : ResolvedVuenifyOptions) (prop : DirectiveNode)
    : option DirectiveNode :=
  if normalizeDirectives options then
    match DirectiveTransform.getDirectiveTransform prop 0
            (directiveStyle options) (sameNameMode options) with
    | Some res =>
        if negb (String.eqb (value res) (source (dir_loc prop)))
        then Some (cloneDirectiveWithSource prop (value res))
        else None
    | None => None
    end
  else None.

(** The callback of the first pass: [Some] clone, or [None] when the prop
    itself is returned. *)
Definition firstPass (options : ResolvedVuenifyOptions) (prop : PropNode)
    : option PropNode :=
  match prop with
  | ATTRIBUTE a => ATTRIBUTE <$> classPass options a
  | DIRECTIVE d => DIRECTIVE <$> directivePass options d
  end.

(** *** The working arrays *)

(** An entry of [transformed] and [sorted]: the object [props[i]] itself
    ([ref = Some i]) or a clone made by the first pass ([ref = None]). *)
Record Slot := mkSlot {
  ref : option nat;
  node : PropNode
}.

Definition transformedAt (options : ResolvedVuenifyOptions) (i : nat) (prop : PropNode)
    : Slot :=
  match firstPass options prop with
  | Some clone => {| ref := None; node := clone |}
  | None => {| ref := Some i; node := prop |}
  end.

Definition transformed (options : ResolvedVuenifyOptions) (props : list PropNode)
    : list Slot :=
  imap (transformedAt options) props.

(** [changed] after the first pass: some callback made a clone. *)
Definition changedByFirstPass (transformed : list Slot) : bool :=
  existsb (fun s => match ref s with None => true | Some _ => false end) transformed.

(** [sorted.some((p, idx) => p !== props[idx])] *)
Definition differsFromProps (sorted : list Slot) : bool :=
  existsb (fun x => x) (imap (fun idx p => negb (bool_decide (ref p = Some idx))) sorted).

(** [sorted.map((p) => (isKind(p) ? sortedKind[i++] : p))] with [i] the
    counter. [sortedKind] has one entry for each [p] of the kind, so the
    lookup never misses; the model keeps [p] where it would. *)
Fixpoint spliceBack (isKind : PropNode -> bool) (sortedKind : list Slot) (i : nat)
    (sorted : list Slot) : list Slot :=
  match sorted with
  | [] => []
  | p :: rest =>
      if isKind (node p)
      then default p (sortedKind !! i) :: spliceBack isKind sortedKind (S i) rest
      else p :: spliceBack isKind sortedKind i rest
  end.

(** *** Directive ordering *)

Definition weightMap (directiveOrder : list string) : gmap string Z :=
  foldl (fun m entry => <[entry.2 := entry.1]> m) ∅
        (imap (fun index name => (Z.of_nat index, name)) directiveOrder).

Definition weight (weightMap : gmap string Z) (name : string) : Z :=
  default 1000 (weightMap !! name).

Definition compareDirectives (weightMap : gmap string Z) (a b : Slot) : Z :=
  let aWeight := weight weightMap (propName (node a)) in
  let bWeight := weight weightMap (propName (node b)) in
  if negb (aWeight =? bWeight) then aWeight - bWeight
  else asciiCompare (propName (node a)) (propName (node b)).

Definition orderDirectivesPass (directiveOrder : list string) (sorted : list Slot)
    : list Slot :=
  let weightMap := weightMap directiveOrder in
  let directives := List.filter (fun p => isDirectiveNode (node p)) sorted in
  let sortedDirectives := stableSort directives (compareDirectives weightMap) in
  spliceBack isDirectiveNode sortedDirectives 0 sorted.

(** *** Attribute ordering *)

Definition compareAttributes (a b : Slot) : Z :=
  let aHasValue := propHasValue (node a) in
  let bHasValue := propHasValue (node b) in
  if negb (Bool.eqb aHasValue bHasValue) then (if aHasValue then -1 else 1)
  else asciiCompare (propName (node a)) (propName (node b)).

Definition orderAttributesPass (sorted : list Slot) : list Slot :=
  let attributes := List.filter (fun p => isAttributeNode (node p)) sorted in
  let sortedAttributes := stableSort attributes compareAttributes in
  spliceBack isAttributeNode sortedAttributes 0 sorted.

(** *** The orchestrator *)

(** The state after the three passes: the array [sorted] and the flag
    [changed]. *)
Definition passes (options : ResolvedVuenifyOptions) (props : list PropNode)
    : list Slot * bool :=
  let transformed := transformed options props in
  let changed := changedByFirstPass transformed in
  let '(sorted, changed) :=
    if orderDirectives options then
      let sorted := orderDirectivesPass (directiveOrder options) transformed in
      (sorted, if negb changed then differsFromProps sorted else changed)
    else (transformed, changed) in
  if orderAttributes options then
    let sorted := orderAttributesPass sorted in
    (sorted, if negb changed then differsFromProps sorted else changed)
  else (sorted, changed).

Definition buildUnifiedAttributeReplacement (element : TemplateChildNode)
    (templateOffset : Z) (options : ResolvedVuenifyOptions) : option Replacement :=
  let props := node_props element in
  match props with
  | [] => None
  | first :: _ =>
      let separator := separator element options in
      let '(sorted, changed) := passes options props in
      if negb changed then None
      else
        let last := List.last props first in
        Some {| start := templateOffset + start_offset (propLoc first);
                end_ := templateOffset + end_offset (propLoc last);
                value := join separator (map (fun p => source (propLoc (node p))) sorted) |}
  end.

End AttributeFormatter.

(** ** transformer.ts *)

Module Transformer.
Import Js AttributeFormatter.

(** [descriptor.template] of the single-file-component parser. *)
Record SFCTemplateBlock := mkTemplate {
  content : string;
  template_loc : SourceLocation
}.

(** [RootNode]: [children] is [None] when it is not an array. *)
Record RootNode := mkRoot {
  root_children : option (list TemplateChildNode)
}.

Definition isElementNode (n : TemplateChildNode) : bool :=
  match node_type n with ELEMENT => true | _ => false end.

(** [walk], returning what it pushes on [replacements]. *)
Fixpoint walk (contentStartOffset : Z) (opts : ResolvedVuenifyOptions)
    (n : TemplateChildNode) : list Replacement :=
  match n with
  | Node type loc props children =>
      (if isElementNode n then
         match buildUnifiedAttributeReplacement n contentStartOffset opts with
         | Some res => [res]
         | None => []
         end
       else [])
      ++ match children with
         | Some cs => flat_map (walk contentStartOffset opts) cs
         | None => []
         end
  end.

Section WithParsers.

(** [parseSfc(source).descriptor.template], [None] for no template. *)
Variable parseSfc : string -> option SFCTemplateBlock.

(** [parseDom(content)], [None] when it throws. *)
Variable parseDom : string -> option RootNode.

Definition vuenifyTransform (document : string) (options : option VuenifyOptions)
    : list Replacement :=
  let opts := resolveOptions options in
  match parseSfc document with
  | None => []
  | Some template =>
      if isEmpty (content template) || isEmpty (trim (content template)) then []
      else
        let contentStartOffset :=
          start_offset (template_loc template)
          + indexOf (content template) (source (template_loc template)) in
        match parseDom (content template) with
        | None => []
        | Some ast =>
            match root_children ast with
            | None => []
            | Some children => flat_map (walk contentStartOffset opts) children
            end
        end
  end.

End WithParsers.

End Transformer.

(** ** test/utils/applyEdits.ts *)

Module ApplyEdits.
Import Js.

Definition applyOne (str : string) (r : Replacement) : string :=
  slice str 0 (start r) +:+ value r +:+ sliceFrom str (end_ r).

Definition applyEdits (document : string) (edits : list Replacement) : string :=
  foldl applyOne document (sortBy (fun a b => start b - start a) edits).

End ApplyEdits.

(** ** Notions used to state the properties *)

Module Notions.
Import Js AttributeFormatter Transformer.

(** The invariant of the counter of [spliceBack]: as many sorted entries
    are left as there are entries of the kind still to come. *)
Definition inStep (isKind : PropNode -> bool) (sortedKind : list Slot) (i : nat)
    (sorted : list Slot) : Prop :=
  Forall (fun s => isKind (node s) = true) sortedKind
  /\ length (List.filter (fun s => isKind (node s)) sorted) = length (drop i sortedKind).

(** The tokens of a list that occur at no earlier position, in the order
    of the list. *)
Definition isFirstOccurrence (l : list string) (i : nat) (x : string) : bool :=
  negb (existsb (String.eqb x) (take i l)).

Definition firstOccurrences (l : list string) : list string :=
  map snd (List.filter (fun e => isFirstOccurrence l e.1 e.2) (imap pair l)).

(** The same tokens, computed with the list of the tokens met so far. *)
Fixpoint firstOccurrencesFrom (seen : list string) (l : list string) : list string :=
  match l with
  | [] => []
  | x :: r =>
      if existsb (String.eqb x) seen then firstOccurrencesFrom seen r
      else x :: firstOccurrencesFrom (seen ++ [x]) r
  end.

Fixpoint onlySpaces (s : string) : bool :=
  match s with
  | EmptyString => true
  | String c r => isSpace c && onlySpaces r
  end.

(** The quote character that encloses the value in the text of an
    attribute: the first code unit after the [=] sign and the white space
    that follows it, when it is a quote. *)
Fixpoint afterEquals (s : string) : string :=
  match s with
  | EmptyString => EmptyString
  | String c r => if Ascii.eqb c "="%char then r else afterEquals r
  end.

Definition enclosingQuote (attributeText : string) : option ascii :=
  match trimStart (afterEquals attributeText) with
  | String c _ => if Ascii.eqb c DQ || Ascii.eqb c SQ then Some c else None
  | EmptyString => None
  end.

(** The text of the document between the end of the first prop and the
    start of the second. *)
Definition documentGap (document : string) (props : list PropNode) : string :=
  match props with
  | p0 :: p1 :: _ => slice document (end_offset (propLoc p0)) (start_offset (propLoc p1))
  | _ => ""
  end.

(** The element carries the text of the document at its own span, and its
    first two props lie inside it, in order. *)
Definition locatedIn (document : string) (element : TemplateChildNode) : Prop :=
  let loc := node_loc element in
  source loc = slice document (start_offset loc) (end_offset loc)
  /\ 0 <= start_offset loc
  /\ end_offset loc <= Z.of_nat (String.length document)
  /\ match node_props element with
     | p0 :: p1 :: _ =>
         start_offset loc <= end_offset (propLoc p0)
         /\ end_offset (propLoc p0) <= start_offset (propLoc p1)
         /\ start_offset (propLoc p1) <= end_offset loc
     | _ => True
     end.

(** Spans as the parser lays them out. *)
Definition propSpanOk (p : PropNode) : Prop :=
  start_offset (propLoc p) < end_offset (propLoc p).

Definition propBefore (p q : PropNode) : Prop :=
  end_offset (propLoc p) <= start_offset (propLoc q).

Definition nodeBefore (a b : TemplateChildNode) : Prop :=
  end_offset (node_loc a) <= start_offset (node_loc b).

(** A child lies inside its parent, behind the parent's props. *)
Definition childPlaced (loc : SourceLocation) (props : list PropNode)
    (c : TemplateChildNode) : Prop :=
  start_offset loc <= start_offset (node_loc c)
  /\ end_offset (node_loc c) <= end_offset loc
  /\ Forall (fun p => end_offset (propLoc p) <= start_offset (node_loc c)) props.

Definition propPlaced (loc : SourceLocation) (p : PropNode) : Prop :=
  start_offset loc <= start_offset (propLoc p)
  /\ end_offset (propLoc p) <= end_offset loc.

(** A tree with the spans of a parsed template: props are not empty, lie
    in document order inside their element and before its children;
    children lie in document order inside their parent. *)
#[local] Unset Elimination Schemes.
Inductive WellFormed : TemplateChildNode -> Prop :=
  | WellFormed_node type loc props children :
      Forall propSpanOk props ->
      StronglySorted propBefore props ->
      Forall (propPlaced loc) props ->
      (forall cs, children = Some cs ->
         Forall WellFormed cs
         /\ StronglySorted nodeBefore cs
         /\ Forall (childPlaced loc props) cs) ->
      WellFormed (Node type loc props children).
#[local] Set Elimination Schemes.

Definition WellFormedRoot (ast : RootNode) : Prop :=
  forall cs, root_children ast = Some cs ->
    Forall WellFormed cs /\ StronglySorted nodeBefore cs.

(** Two replacements that share no position. *)
Definition disjointSpans (a b : Replacement) : Prop :=
  end_ a <= start b \/ end_ b <= start a.

Definition before (a b : Replacement) : Prop := end_ a <= start b.

Definition within (lo hi : Z) (r : Replacement) : Prop :=
  lo <= start r /\ start r < end_ r /\ end_ r <= hi.

(** What the directive ordering promises about names outside the
    priority list. *)
Definition unknownAfterKnown (directiveOrder : list string) (l : list Slot) : Prop :=
  let out := orderDirectivesPass directiveOrder l in
  let weightMap := weightMap directiveOrder in
  (forall known unknown, known ∈ directiveOrder -> unknown ∉ directiveOrder ->
     weight weightMap known < weight weightMap unknown)
  /\ (forall (i j : nat) a b, out !! i = Some a -> out !! j = Some b ->
        isDirectiveNode (node a) = true -> isDirectiveNode (node b) = true ->
        propName (node a) ∉ directiveOrder -> propName (node b) ∈ directiveOrder ->
        (j < i)%nat)
  /\ (forall (i j : nat) a b, out !! i = Some a -> out !! j = Some b ->
        isDirectiveNode (node a) = true -> isDirectiveNode (node b) = true ->
        propName (node a) ∉ directiveOrder -> propName (node b) ∉ directiveOrder ->
        (i < j)%nat -> asciiCompare (propName (node a)) (propName (node b)) <= 0).

(** The rank of a directive name: the index of its last occurrence in the
    priority list, 1000 for a name that is not in the list. [k] is the
    index of the head of the list and [found] the rank that the names in
    front of it give. *)
Fixpoint rankFrom (k : Z) (priority : list string) (name : string) (found : Z) : Z :=
  match priority with
  | [] => found
  | x :: rest => rankFrom (k + 1) rest name (if String.eqb x name then k else found)
  end.

Definition rank (priority : list string) (name : string) : Z :=
  rankFrom 0 priority name 1000.

(** The order of the directive ordering: rank ascending, then name
    ascending by code units. *)
Definition directiveLe (priority : list string) (a b : Slot) : Prop :=
  rank priority (propName (node a)) < rank priority (propName (node b))
  \/ (rank priority (propName (node a)) = rank priority (propName (node b))
      /\ String.compare (propName (node a)) (propName (node b)) <> Gt).

(** The text from its first equals sign on, empty when it has none. *)
Fixpoint fromEquals (s : string) : string :=
  match s with
  | EmptyString => EmptyString
  | String c r => if Ascii.eqb c "=" then s else fromEquals r
  end.

(** A consistent comparator, as ECMAScript defines it for [sort]: equal is
    reflexive, symmetric and transitive, and less and greater are
    transitive. *)
Definition consistent {T} (compare : T -> T -> Z) : Prop :=
  (forall a, compare a a = 0)
  /\ (forall a b, compare a b = 0 -> compare b a = 0)
  /\ (forall a b c, compare a b = 0 -> compare b c = 0 -> compare a c = 0)
  /\ (forall a b c, compare a b < 0 -> compare b c < 0 -> compare a c < 0)
  /\ (forall a b c, 0 < compare a b -> 0 < compare b c -> 0 < compare a c).

End Notions.

(** ** Sample documents and their parse trees *)

Module Samples.
Import Js AttributeFormatter Transformer.

Definition dq (s : string) : string := str DQ +:+ s +:+ str DQ.

Definition locAt (start : Z) (text : string) : SourceLocation :=
  {| start_offset := start;
     end_offset := start + Z.of_nat (String.length text);
     source := text |}.

Definition attribute (start : Z) (name : string) (value : option string) (text : string)
    : PropNode :=
  ATTRIBUTE {| attr_name := name; attr_value := value; attr_loc := locAt start text |}.

Definition directive (start : Z) (name : string) (arg : option string)
    (modifiers : list string) (exp : option string) (text : string) : PropNode :=
  DIRECTIVE {| dir_name := name; dir_arg := arg; dir_modifiers := modifiers;
               dir_exp := exp; dir_loc := locAt start text |}.

Definition element (start : Z) (text : string) (props : list PropNode)
    (children : list TemplateChildNode) : TemplateChildNode :=
  Node ELEMENT (locAt start text) props (Some children).

Definition slotOf (i : nat) (p : PropNode) : Slot := {| ref := Some i; node := p |}.

(** [<div v-bind:foo="foo" v-if="visible" class="b a b"></div>], from the
    test of the full pipeline. *)
Definition mixedText : string :=
  "<div v-bind:foo=" +:+ dq "foo" +:+ " v-if=" +:+ dq "visible"
  +:+ " class=" +:+ dq "b a b" +:+ "></div>".

Definition mixedElement : TemplateChildNode :=
  element 0 mixedText
    [ directive 5 "bind" (Some "foo") [] (Some "foo") ("v-bind:foo=" +:+ dq "foo");
      directive 22 "if" None [] (Some "visible") ("v-if=" +:+ dq "visible");
      attribute 37 "class" (Some "b a b") ("class=" +:+ dq "b a b") ] [].

Definition allOn : ResolvedVuenifyOptions := {|
  attributeLayout := inline;
  classLayout := inline;
  directiveOrder := ["if"; "else"; "else-if"; "for"; "on"; "model"; "bind"];
  directiveStyle := short;
  normalizeDirectives := true;
  orderAttributes := true;
  orderDirectives := true;
  removeDuplicates := true;
  sameNameMode := removeValue;
  sortClasses := true
|}.

(** Deduplication without sorting. *)
Definition dedupOnly : ResolvedVuenifyOptions := {|
  attributeLayout := inline;
  classLayout := inline;
  directiveOrder := directiveOrder defaultOptions;
  directiveStyle := short;
  normalizeDirectives := false;
  orderAttributes := false;
  orderDirectives := false;
  removeDuplicates := true;
  sameNameMode := ignore;
  sortClasses := false
|}.

(** An element written over three lines, from the test of the preserved
    attribute layout. *)
Definition multilineText : string :=
  "<div" +:+ str NL +:+ "    id=" +:+ dq "a" +:+ str NL +:+ "    class=" +:+ dq "b"
  +:+ str NL +:+ "  ></div>".

Definition multilineElement : TemplateChildNode :=
  element 0 multilineText
    [ attribute 9 "id" (Some "a") ("id=" +:+ dq "a");
      attribute 20 "class" (Some "b") ("class=" +:+ dq "b") ] [].

Definition preserving : ResolvedVuenifyOptions := {|
  attributeLayout := preserve;
  classLayout := preserve;
  directiveOrder := directiveOrder defaultOptions;
  directiveStyle := short;
  normalizeDirectives := true;
  orderAttributes := true;
  orderDirectives := true;
  removeDuplicates := true;
  sameNameMode := ignore;
  sortClasses := true
|}.

(** A class attribute whose value is a single line break. *)
Definition blankClass : AttributeNode :=
  {| attr_name := "class";
     attr_value := Some (str NL);
     attr_loc := locAt 5 ("class=" +:+ dq (str NL)) |}.

Definition blankElement : TemplateChildNode :=
  element 0 ("<div class=" +:+ dq (str NL) +:+ "></div>") [ATTRIBUTE blankClass] [].

Definition blankContent : string := "<div class=" +:+ dq (str NL) +:+ "></div>".

Definition blankSfc : string -> option SFCTemplateBlock :=
  fun _ => Some {| content := blankContent; template_loc := locAt 10 blankContent |}.

Definition blankDom : string -> option RootNode :=
  fun _ => Some {| root_children := Some [blankElement] |}.

(** A double-quoted class value that holds an apostrophe. *)
Definition apostropheClass : AttributeNode :=
  {| attr_name := "class";
     attr_value := Some "b a's";
     attr_loc := locAt 5 ("class=" +:+ dq "b a's") |}.

(** [:src="src"] and [:src] *)
Definition srcBinding : DirectiveNode :=
  {| dir_name := "bind"; dir_arg := Some "src"; dir_modifiers := [];
     dir_exp := Some "src"; dir_loc := locAt 5 (":src=" +:+ dq "src") |}.

Definition srcShorthand : DirectiveNode :=
  {| dir_name := "bind"; dir_arg := Some "src"; dir_modifiers := [];
     dir_exp := None; dir_loc := locAt 5 ":src" |}.

(** The directives of [<div v-custom="x" v-if="y" id="z" v-alpha>]. *)
Definition directiveSlots : list Slot :=
  [ slotOf 0 (directive 5 "custom" None [] (Some "x") ("v-custom=" +:+ dq "x"));
    slotOf 1 (directive 18 "if" None [] (Some "y") ("v-if=" +:+ dq "y"));
    slotOf 2 (attribute 27 "id" (Some "z") ("id=" +:+ dq "z"));
    slotOf 3 (directive 34 "alpha" None [] None "v-alpha") ].

(** A priority list of 1001 names: [zz] has rank 1000. *)
Definition longOrder : list string := replicate 1000 "x" ++ ["zz"].

Definition longOrderSlots : list Slot :=
  [ slotOf 0 (directive 5 "zz" None [] None "v-zz");
    slotOf 1 (directive 10 "aa" None [] None "v-aa") ].

(** A nested template: [<div class="d c"><span class="b a"></span></div>]. *)
Definition nestedText : string :=
  "<div class=" +:+ dq "d c" +:+ "><span class=" +:+ dq "b a" +:+ "></span></div>".

Definition nestedTree : TemplateChildNode :=
  element 0 nestedText
    [ attribute 5 "class" (Some "d c") ("class=" +:+ dq "d c") ]
    [ element 17 ("<span class=" +:+ dq "b a" +:+ "></span>")
        [ attribute 23 "class" (Some "b a") ("class=" +:+ dq "b a") ] [] ].

Definition nestedSfc : string -> option SFCTemplateBlock :=
  fun _ => Some {| content := nestedText; template_loc := locAt 10 nestedText |}.

Definition nestedDom : string -> option RootNode :=
  fun _ => Some {| root_children := Some [nestedTree] |}.

(** The document [<template><div class="a' b='c"></div></template>], the
    document the transform turns it into, and the trees of the two. *)
Definition quotedContent : string := "<div class=" +:+ dq "a' b='c" +:+ "></div>".
Definition quotedDocument : string := "<template>" +:+ quotedContent +:+ "</template>".

Definition quotedTemplate : SFCTemplateBlock :=
  {| content := quotedContent; template_loc := locAt 10 quotedContent |}.

Definition quotedAst : RootNode :=
  {| root_children := Some
       [ element 0 quotedContent
           [ attribute 5 "class" (Some "a' b='c") ("class=" +:+ dq "a' b='c") ] [] ] |}.

Definition requotedContent : string := "<div class='a' b='c'></div>".
Definition requotedDocument : string := "<template>" +:+ requotedContent +:+ "</template>".

Definition requotedTemplate : SFCTemplateBlock :=
  {| content := requotedContent; template_loc := locAt 10 requotedContent |}.

Definition requotedAst : RootNode :=
  {| root_children := Some
       [ element 0 requotedContent
           [ attribute 5 "class" (Some "a") "class='a'";
             attribute 15 "b" (Some "c") "b='c'" ] [] ] |}.

(** Parsers that know the two documents. *)
Definition tableSfc (document : string) : option SFCTemplateBlock :=
  if String.eqb document quotedDocument then Some quotedTemplate
  else if String.eqb document requotedDocument then Some requotedTemplate
  else None.

Definition tableDom (text : string) : option RootNode :=
  if String.eqb text quotedContent then Some quotedAst
  else if String.eqb text requotedContent then Some requotedAst
  else None.

End Samples.

(** ** Further notions *)

Module Further.
Import Js AttributeFormatter Transformer ApplyEdits Notions Samples.

(** A replacement moved by an offset. *)
Definition shift (offset : Z) (r : Replacement) : Replacement :=
  {| start := offset + start r; end_ := offset + end_ r; value := value r |}.

(** The document read from [pos] with the edits, taken in order, put in
    place of their spans. *)
Fixpoint stitch (pos : Z) (document : string) (edits : list Replacement) : string :=
  match edits with
  | [] => sliceFrom document pos
  | r :: rest => slice document pos (start r) +:+ value r +:+ stitch (end_ r) document rest
  end.

(** The edits are not empty and lie in the document, from [pos] on. *)
Definition editsWithin (pos : Z) (document : string) (edits : list Replacement) : Prop :=
  Forall (fun r => pos <= start r /\ start r < end_ r
                   /\ end_ r <= Z.of_nat (String.length document)) edits.

Fixpoint hasSpace (s : string) : bool :=
  match s with
  | EmptyString => false
  | String c r => isSpace c || hasSpace r
  end.

(** A token: not empty, no white space inside. *)
Definition isToken (s : string) : bool := truthy s && negb (hasSpace s).

(** The string without its white space. *)
Fixpoint removeSpaces (s : string) : string :=
  match s with
  | EmptyString => EmptyString
  | String c r => if isSpace c then removeSpaces r else String c (removeSpaces r)
  end.

(** The two spellings of the head of a supported directive. *)
Definition shortPrefix (name : string) : string :=
  if String.eqb name "bind" then ":" else if String.eqb name "on" then "@" else "#".

Definition longPrefix (name : string) : string := "v-" +:+ name +:+ ":".

Definition isSupported (name : string) : bool :=
  String.eqb name "bind" || String.eqb name "on" || String.eqb name "slot".

(** [@click.stop.prevent="go"] *)
Definition clickDirective : DirectiveNode :=
  {| dir_name := "on"; dir_arg := Some "click"; dir_modifiers := ["stop"; "prevent"];
     dir_exp := Some "go"; dir_loc := locAt 5 ("@click.stop.prevent=" +:+ dq "go") |}.

(** [v-model="value"] *)
Definition modelDirective : DirectiveNode :=
  {| dir_name := "model"; dir_arg := None; dir_modifiers := [];
     dir_exp := Some "value"; dir_loc := locAt 5 ("v-model=" +:+ dq "value") |}.

(** [:src="url"] *)
Definition urlBinding : DirectiveNode :=
  {| dir_name := "bind"; dir_arg := Some "src"; dir_modifiers := [];
     dir_exp := Some "url"; dir_loc := locAt 5 (":src=" +:+ dq "url") |}.

(** [class="b a b c"] *)
Definition repeatedClass : AttributeNode :=
  {| attr_name := "class"; attr_value := Some "b a b c";
     attr_loc := locAt 5 ("class=" +:+ dq "b a b c") |}.

(** The working array of the mixed element before the first pass, and its
    two directives. *)
Definition mixedSlots : list Slot := imap slotOf (node_props mixedElement).

Definition mixedBind : Slot :=
  slotOf 0 (directive 5 "bind" (Some "foo") [] (Some "foo") ("v-bind:foo=" +:+ dq "foo")).

Definition mixedIf : Slot :=
  slotOf 1 (directive 22 "if" None [] (Some "visible") ("v-if=" +:+ dq "visible")).

(** Tokens put together with the same separator between them. *)
Definition glue (separator : string) (tokens : list string) : string :=
  match tokens with
  | [] => EmptyString
  | t :: rest => t +:+ join EmptyString (map (fun c => separator +:+ c) rest)
  end.

(** The working array in which every entry is the parsed prop itself. *)
Definition untouched (props : list PropNode) : list Slot := imap slotOf props.

(** Every feature switched off. *)
Definition allOff : ResolvedVuenifyOptions := {|
  attributeLayout := inline;
  classLayout := inline;
  directiveOrder := directiveOrder defaultOptions;
  directiveStyle := short;
  normalizeDirectives := false;
  orderAttributes := false;
  orderDirectives := false;
  removeDuplicates := false;
  sameNameMode := ignore;
  sortClasses := false
|}.

(** The attributes of [<input disabled type="text" id="field">]. *)
Definition inputSlots : list Slot :=
  [ slotOf 0 (attribute 7 "disabled" None "disabled");
    slotOf 1 (attribute 16 "type" (Some "text") ("type=" +:+ dq "text"));
    slotOf 2 (attribute 28 "id" (Some "field") ("id=" +:+ dq "field")) ].

(** The nested template inside its document, and the edits the transform
    makes for it. *)
Definition nestedDocument : string := "<template>" +:+ nestedText +:+ "</template>".

Definition nestedEdits : list Replacement :=
  [ {| start := 15; end_ := 26; value := "class=" +:+ dq "c d" |};
    {| start := 33; end_ := 44; value := "class=" +:+ dq "a b" |} ].

(** The spans of the parsed template lie inside the document: the content
    of the template is a part of the document, and the root nodes are
    parts of the content. *)
Definition spansInDocument (parseSfc : string -> option SFCTemplateBlock)
    (parseDom : string -> option RootNode) (document : string) : Prop :=
  forall template ast cs,
    parseSfc document = Some template ->
    parseDom (content template) = Some ast ->
    root_children ast = Some cs ->
    let contentStartOffset :=
      start_offset (template_loc template)
      + indexOf (content template) (source (template_loc template)) in
    Forall (fun c => 0 <= contentStartOffset + start_offset (node_loc c)
                     /\ contentStartOffset + end_offset (node_loc c)
                        <= Z.of_nat (String.length document)) cs.

(** The number of element nodes with at least one prop in a tree. *)
Fixpoint elementsWithProps (n : TemplateChildNode) : nat :=
  match n with
  | Node type loc props children =>
      ((if isElementNode n then match props with [] => 0 | _ :: _ => 1 end else 0)
       + match children with
         | Some cs => list_sum (map elementsWithProps cs)
         | None => 0
         end)%nat
  end.


End Further.

(** * Properties *)

Import Js DirectiveTransform AttributeFormatter Transformer ApplyEdits Notions Samples.
Import Further.

(** ** Sorting *)

Section SortBy.
Context {T : Type} (cmp : T -> T -> Z).

Lemma insertBy_perm x l : insertBy cmp x l ≡ₚ x :: l.
Proof.
  induction l as [|y r IH]; simpl; [done|].
  destruct (cmp x y <=? 0); [done|].
  rewrite IH. apply Permutation_swap.
Qed.

Lemma sortBy_perm l : sortBy cmp l ≡ₚ l.
Proof.
  induction l as [|x r IH]; simpl; [done|].
  by rewrite insertBy_perm, IH.
Qed.

(** Insertion leaves the members of a class [P] in their order when the
    new element, if it is in the class, goes in front of them. *)
Lemma insertBy_filter (P : T -> bool) x l :
  (P x = true -> forall y, In y l -> P y = true -> cmp x y <= 0) ->
  List.filter P (insertBy cmp x l) = List.filter P (x :: l).
Proof.
  induction l as [|y r IH]; intros Hle; [done|].
  simpl. destruct (cmp x y <=? 0) eqn:E; [done|].
  apply Z.leb_gt in E.
  cbn [List.filter]. rewrite IH.
  - cbn [List.filter]. destruct (P x) eqn:Px; [|done].
    destruct (P y) eqn:Py; [|done].
    specialize (Hle eq_refl y (or_introl eq_refl) Py). lia.
  - intros Px z Hz. apply Hle; [done|by right].
Qed.

(** A class whose members do not compare greater than one another keeps
    its order: the sort is stable. *)
Lemma sortBy_stable (P : T -> bool) (l : list T) :
  (forall a b, P a = true -> P b = true -> cmp a b <= 0) ->
  List.filter P (sortBy cmp l) = List.filter P l.
Proof.
  intros HP. induction l as [|x r IH]; [done|].
  cbn [sortBy]. rewrite insertBy_filter.
  - cbn [List.filter]. by rewrite IH.
  - intros Px y _ Py. by apply HP.
Qed.

Section Sorted.
Hypothesis cmp_total : forall a b, 0 < cmp a b -> cmp b a <= 0.
Hypothesis cmp_trans : forall a b c, cmp a b <= 0 -> cmp b c <= 0 -> cmp a c <= 0.

Lemma insertBy_sorted x l :
  StronglySorted (fun a b => cmp a b <= 0) l ->
  StronglySorted (fun a b => cmp a b <= 0) (insertBy cmp x l).
Proof.
  induction 1 as [|y r Hr IH Hall]; simpl.
  - repeat constructor.
  - destruct (cmp x y <=? 0) eqn:E.
    + apply Z.leb_le in E. constructor; [by constructor|].
      constructor; [done|].
      eapply Forall_impl; [exact Hall|]. intros z Hz. simpl in Hz.
      by apply (cmp_trans x y z).
    + apply Z.leb_gt in E. constructor; [done|].
      rewrite (insertBy_perm x r). constructor; [by apply cmp_total|done].
Qed.

Lemma sortBy_sorted l : StronglySorted (fun a b => cmp a b <= 0) (sortBy cmp l).
Proof. induction l; simpl; [constructor|by apply insertBy_sorted]. Qed.
End Sorted.

End SortBy.

Section StableSort.
Context {T : Type} (cmp : T -> T -> Z).

(** The index of [stableSort] decides nothing that insertion from the
    right had not decided the same way. *)
Lemma insertBy_indexed x (k : Z) (l : list (T * Z)) :
  Forall (fun p => k < p.2) l ->
  map fst (insertBy (indexedCompare cmp) (x, k) l) = insertBy cmp x (map fst l).
Proof.
  induction 1 as [|[y j] r Hj _ IH]; [done|].
  simpl in *. unfold indexedCompare at 1. simpl.
  destruct (cmp x y =? 0) eqn:E; simpl.
  - apply Z.eqb_eq in E. rewrite E. simpl.
    destruct (k - j <=? 0) eqn:E2; [done|]. apply Z.leb_gt in E2. lia.
  - destruct (cmp x y <=? 0); [done|]. simpl. by rewrite IH.
Qed.

Lemma sortBy_indexed (k : nat) (l : list T) :
  map fst (sortBy (indexedCompare cmp) (imap (fun i v => (v, Z.of_nat (k + i))) l))
  = sortBy cmp l
  /\ Forall (fun p => Z.of_nat k <= p.2)
       (sortBy (indexedCompare cmp) (imap (fun i v => (v, Z.of_nat (k + i))) l)).
Proof.
  revert k. induction l as [|x r IH]; intros k; [by split; constructor|].
  simpl. destruct (IH (S k)) as [IH1 IH2].
  assert (imap ((fun i v => (v, Z.of_nat (k + i))) ∘ S) r
          = imap (fun i v => (v, Z.of_nat (S k + i))) r) as Himap.
  { apply imap_ext. intros i y _. simpl. do 2 f_equal. lia. }
  rewrite Himap, Nat.add_0_r. split.
  - rewrite insertBy_indexed, IH1; [done|].
    eapply Forall_impl; [exact IH2|]. intros p Hp. simpl in Hp. lia.
  - rewrite (insertBy_perm (indexedCompare cmp) (x, Z.of_nat k)).
    constructor; simpl; [lia|].
    eapply Forall_impl; [exact IH2|]. intros p Hp. simpl in Hp. lia.
Qed.

Lemma stableSort_sortBy (l : list T) : stableSort l cmp = sortBy cmp l.
Proof.
  unfold stableSort, withIndex.
  destruct (sortBy_indexed 0 l) as [H _]. exact H.
Qed.

Lemma stableSort_perm (l : list T) : stableSort l cmp ≡ₚ l.
Proof. rewrite stableSort_sortBy. apply sortBy_perm. Qed.

End StableSort.

Lemma filter_split_perm {A} (f : A -> bool) (l : list A) :
  l ≡ₚ List.filter f l ++ List.filter (fun a => negb (f a)) l.
Proof.
  induction l as [|a l IH]; [done|].
  simpl. destruct (f a); simpl.
  - by constructor.
  - rewrite <- Permutation_middle. by constructor.
Qed.

(** A strongly sorted sub-list orders the positions of the whole list. *)
Lemma sorted_filter_lookup {A} (R : A -> A -> Prop) (P : A -> bool) (l : list A)
    (i j : nat) (a b : A) :
  StronglySorted R (List.filter P l) ->
  l !! i = Some a -> l !! j = Some b -> (i < j)%nat ->
  P a = true -> P b = true -> R a b.
Proof.
  revert i j. induction l as [|x r IH]; intros i j Hs Hi Hj Hij Pa Pb; [done|].
  destruct i as [|i]; destruct j as [|j]; try lia; simpl in *.
  - injection Hi as ->. rewrite Pa in Hs. apply StronglySorted_inv in Hs as [_ Hall].
    rewrite Forall_forall in Hall. apply Hall.
    apply list_elem_of_In, filter_In. split; [|done].
    apply list_elem_of_In. by eapply list_elem_of_lookup_2.
  - apply (IH i j); try done; [|lia].
    destruct (P x); [by apply StronglySorted_inv in Hs as [? _]|done].
Qed.

(** ** Splice-back *)

Section SpliceBack.
Variable isKind : PropNode -> bool.

Lemma spliceBack_length srt i l : length (spliceBack isKind srt i l) = length l.
Proof.
  revert i. induction l as [|p r IH]; intros i; simpl; [done|].
  destruct (isKind (node p)); simpl; by rewrite IH.
Qed.

(** Entries of the other kind stay where they are. *)
Lemma spliceBack_other srt i l j s :
  l !! j = Some s -> isKind (node s) = false ->
  spliceBack isKind srt i l !! j = Some s.
Proof.
  revert i j. induction l as [|p r IH]; intros i j Hj Hs; [done|].
  simpl. destruct j as [|j]; simpl in *.
  - injection Hj as ->. by rewrite Hs.
  - destruct (isKind (node p)); simpl; by apply IH.
Qed.

Lemma inStep_cons_kind srt i p r :
  inStep isKind srt i (p :: r) -> isKind (node p) = true ->
  exists q, srt !! i = Some q /\ isKind (node q) = true /\ inStep isKind srt (S i) r.
Proof.
  intros [HS Hlen] Hp. simpl in Hlen. rewrite Hp in Hlen. simpl in Hlen.
  destruct (srt !! i) as [q|] eqn:Hq.
  - exists q. rewrite (drop_S _ _ _ Hq) in Hlen. simpl in Hlen.
    split; [done|]. split; [exact (Forall_lookup_1 _ _ _ _ HS Hq)|].
    split; [done|lia].
  - apply lookup_ge_None in Hq. rewrite drop_ge in Hlen by done. done.
Qed.

Lemma inStep_cons_other srt i p r :
  inStep isKind srt i (p :: r) -> isKind (node p) = false -> inStep isKind srt i r.
Proof. intros [HS Hlen] Hp. simpl in Hlen. rewrite Hp in Hlen. by split. Qed.

(** The lookup [sortedKind[i++]] never misses. *)
Lemma spliceBack_lookup_total srt i p r :
  inStep isKind srt i (p :: r) -> isKind (node p) = true -> is_Some (srt !! i).
Proof.
  intros H Hp. destruct (inStep_cons_kind _ _ _ _ H Hp) as (q & -> & _). by eexists.
Qed.

(** The entries of the kind, read in order, are the sorted ones. *)
Lemma spliceBack_filter srt i l :
  inStep isKind srt i l ->
  List.filter (fun s => isKind (node s)) (spliceBack isKind srt i l) = drop i srt.
Proof.
  revert i. induction l as [|p r IH]; intros i H.
  - destruct H as [_ Hlen]. simpl in *. symmetry. by apply nil_length_inv.
  - simpl. destruct (isKind (node p)) eqn:Hp.
    + destruct (inStep_cons_kind _ _ _ _ H Hp) as (q & Hq & Hk & H').
      rewrite Hq. simpl. rewrite Hk, (drop_S _ _ _ Hq). f_equal. by apply IH.
    + simpl. rewrite Hp. apply IH. by eapply inStep_cons_other.
Qed.

Lemma spliceBack_filter_other srt i l :
  inStep isKind srt i l ->
  List.filter (fun s => negb (isKind (node s))) (spliceBack isKind srt i l)
  = List.filter (fun s => negb (isKind (node s))) l.
Proof.
  revert i. induction l as [|p r IH]; intros i H; [done|].
  simpl. destruct (isKind (node p)) eqn:Hp.
  - destruct (inStep_cons_kind _ _ _ _ H Hp) as (q & Hq & Hk & H').
    rewrite Hq. simpl. rewrite Hk. simpl. by apply IH.
  - simpl. rewrite Hp. simpl. f_equal. apply IH. by eapply inStep_cons_other.
Qed.

(** The kinds sit at the positions they had. *)
Lemma spliceBack_kind srt i l j :
  inStep isKind srt i l ->
  (fun s => isKind (node s)) <$> spliceBack isKind srt i l !! j
  = (fun s => isKind (node s)) <$> l !! j.
Proof.
  revert i j. induction l as [|p r IH]; intros i j H; [done|].
  simpl. destruct (isKind (node p)) eqn:Hp.
  - destruct (inStep_cons_kind _ _ _ _ H Hp) as (q & Hq & Hk & H').
    rewrite Hq. destruct j as [|j]; simpl; [by rewrite Hk, Hp|by apply IH].
  - destruct j as [|j]; simpl; [by rewrite Hp|]. apply IH. by eapply inStep_cons_other.
Qed.

Lemma inStep_of_perm srt l :
  srt ≡ₚ List.filter (fun s => isKind (node s)) l -> inStep isKind srt 0 l.
Proof.
  intros Hperm. split.
  - rewrite Hperm. apply Forall_forall. intros x Hx.
    apply list_elem_of_In, filter_In in Hx. tauto.
  - rewrite drop_0. by rewrite Hperm.
Qed.

Lemma spliceBack_perm srt l :
  srt ≡ₚ List.filter (fun s => isKind (node s)) l -> spliceBack isKind srt 0 l ≡ₚ l.
Proof.
  intros Hperm. pose proof (inStep_of_perm _ _ Hperm) as H.
  rewrite (filter_split_perm (fun s => isKind (node s)) (spliceBack isKind srt 0 l)).
  rewrite spliceBack_filter, spliceBack_filter_other, drop_0 by done.
  rewrite Hperm. symmetry. apply filter_split_perm.
Qed.

End SpliceBack.

(** ** The order of strings *)

Lemma ascii_compare_refl c : Ascii.compare c c = Eq.
Proof. apply N.compare_refl. Qed.

Lemma string_compare_refl s : String.compare s s = Eq.
Proof. induction s as [|c s IH]; simpl; [done|]. by rewrite ascii_compare_refl. Qed.

Lemma string_compare_lt_trans a b c :
  String.compare a b = Lt -> String.compare b c = Lt -> String.compare a c = Lt.
Proof.
  revert b c. induction a as [|x a IH]; intros [|y b] [|z c]; simpl; try done.
  destruct (Ascii.compare x y) eqn:Exy; try done.
  - apply Ascii.compare_eq_iff in Exy as ->.
    destruct (Ascii.compare y z); try done. apply IH.
  - intros _. destruct (Ascii.compare y z) eqn:Eyz; try done.
    + apply Ascii.compare_eq_iff in Eyz as <-. by rewrite Exy.
    + intros _. unfold Ascii.compare in *.
      rewrite N.compare_lt_iff in Exy. rewrite N.compare_lt_iff in Eyz.
      assert ((N_of_ascii x ?= N_of_ascii z)%N = Lt) as ->; [|done].
      apply N.compare_lt_iff. lia.
Qed.

Lemma asciiCompare_eq a b : asciiCompare a b = 0 <-> a = b.
Proof.
  unfold asciiCompare. destruct (String.eqb_spec a b); [done|].
  destruct (String.ltb a b); split; intros; done.
Qed.

Lemma asciiCompare_lt a b : asciiCompare a b < 0 <-> String.compare a b = Lt.
Proof.
  unfold asciiCompare, String.ltb. destruct (String.eqb_spec a b) as [->|Hne].
  - rewrite string_compare_refl. split; intros; [lia|done].
  - destruct (String.compare a b); split; intros; try done; lia.
Qed.

Lemma asciiCompare_gt a b : 0 < asciiCompare a b <-> String.compare b a = Lt.
Proof.
  unfold asciiCompare, String.ltb. destruct (String.eqb_spec a b) as [->|Hne].
  - rewrite string_compare_refl. split; intros; [lia|done].
  - rewrite (String.compare_antisym b a).
    destruct (String.compare a b) eqn:E; simpl; split; intros; try done; try lia.
    apply String.compare_eq_iff in E. done.
Qed.

Lemma asciiCompare_le_trans a b c :
  asciiCompare a b <= 0 -> asciiCompare b c <= 0 -> asciiCompare a c <= 0.
Proof.
  intros H1 H2.
  destruct (Z.eq_dec (asciiCompare a b) 0) as [E1|N1];
    [apply asciiCompare_eq in E1 as ->; done|].
  destruct (Z.eq_dec (asciiCompare b c) 0) as [E2|N2];
    [apply asciiCompare_eq in E2 as <-; done|].
  assert (asciiCompare a c < 0); [|lia].
  apply asciiCompare_lt, (string_compare_lt_trans a b c); apply asciiCompare_lt; lia.
Qed.

Lemma asciiCompare_total a b : 0 < asciiCompare a b -> asciiCompare b a <= 0.
Proof. intros H. apply asciiCompare_gt, asciiCompare_lt in H. lia. Qed.

(** ** The comparator of the directive ordering *)

Section CompareDirectives.
Variable wm : gmap string Z.

Lemma compareDirectives_le a b :
  compareDirectives wm a b <= 0 <->
  weight wm (propName (node a)) < weight wm (propName (node b))
  \/ (weight wm (propName (node a)) = weight wm (propName (node b))
      /\ asciiCompare (propName (node a)) (propName (node b)) <= 0).
Proof.
  unfold compareDirectives.
  destruct (Z.eqb_spec (weight wm (propName (node a))) (weight wm (propName (node b))));
    simpl; lia.
Qed.

Lemma compareDirectives_total a b :
  0 < compareDirectives wm a b -> compareDirectives wm b a <= 0.
Proof.
  intros H. apply compareDirectives_le.
  unfold compareDirectives in H.
  destruct (Z.eqb_spec (weight wm (propName (node a))) (weight wm (propName (node b))));
    simpl in H; [|lia].
  right. split; [done|]. by apply asciiCompare_total.
Qed.

Lemma compareDirectives_trans a b c :
  compareDirectives wm a b <= 0 -> compareDirectives wm b c <= 0 ->
  compareDirectives wm a c <= 0.
Proof.
  rewrite !compareDirectives_le. intros [H1|[H1 H1']] [H2|[H2 H2']]; try (left; lia).
  right. split; [lia|]. eapply asciiCompare_le_trans; eassumption.
Qed.

Lemma compareDirectives_eq a b :
  compareDirectives wm a b = 0 <-> propName (node a) = propName (node b).
Proof.
  unfold compareDirectives. split.
  - destruct (Z.eqb_spec (weight wm (propName (node a))) (weight wm (propName (node b))));
      simpl.
    + apply asciiCompare_eq.
    + lia.
  - intros ->. rewrite Z.eqb_refl. simpl. by apply asciiCompare_eq.
Qed.

End CompareDirectives.

(** ** The weight map *)

Lemma weightMap_from_absent (l : list string) (k : nat) (m : gmap string Z) name :
  name ∉ l ->
  foldl (fun m (entry : Z * string) => <[entry.2 := entry.1]> m) m
    (imap (fun index name => (Z.of_nat (k + index), name)) l) !! name = m !! name.
Proof.
  revert k m. induction l as [|x r IH]; intros k m Hn; [done|].
  apply not_elem_of_cons in Hn as [Hx Hr]. simpl.
  rewrite (imap_ext _ (fun index name => (Z.of_nat (S k + index), name))).
  - rewrite IH by done. by rewrite lookup_insert_ne.
  - intros i y _. simpl. do 2 f_equal. lia.
Qed.

Lemma weightMap_from_present (l : list string) (k : nat) (m : gmap string Z) name :
  name ∈ l ->
  exists i : nat, (k <= i)%nat /\ (i < k + length l)%nat /\
    (foldl (fun m (entry : Z * string) => <[entry.2 := entry.1]> m) m
      (imap (fun index name => (Z.of_nat (k + index), name)) l) !! name)
    = Some (Z.of_nat i).
Proof.
  revert k m. induction l as [|x r IH]; intros k m Hin; [by apply elem_of_nil in Hin|].
  simpl.
  rewrite (imap_ext _ (fun index name => (Z.of_nat (S k + index), name)));
    [|intros i y _; simpl; do 2 f_equal; lia].
  destruct (decide (name ∈ r)) as [Hr|Hr].
  - destruct (IH (S k) (<[x:=Z.of_nat (k + 0)]> m) Hr) as (i & Hi & Hi' & Hl).
    exists i. split; [lia|]. split; [simpl; lia|done].
  - apply elem_of_cons in Hin as [->|Hin]; [|done].
    exists k. split; [lia|]. split; [simpl; lia|].
    rewrite weightMap_from_absent by done.
    rewrite lookup_insert_eq. do 2 f_equal. lia.
Qed.

Lemma weightMap_absent order name :
  name ∉ order -> weightMap order !! name = None.
Proof.
  intros H. unfold weightMap.
  rewrite (imap_ext _ (fun index name => (Z.of_nat (0 + index), name))) by done.
  by rewrite weightMap_from_absent.
Qed.

Lemma weightMap_present order name :
  name ∈ order ->
  exists i : nat, (i < length order)%nat /\ weightMap order !! name = Some (Z.of_nat i).
Proof.
  intros H. unfold weightMap.
  rewrite (imap_ext _ (fun index name => (Z.of_nat (0 + index), name))) by done.
  destruct (weightMap_from_present order 0 ∅ name H) as (i & Hi & Hi' & Hl).
  exists i. split; [lia|done].
Qed.

(** ** Directive ordering *)

Lemma orderDirectives_inStep directiveOrder l :
  inStep isDirectiveNode
    (stableSort (List.filter (fun p => isDirectiveNode (node p)) l)
       (compareDirectives (weightMap directiveOrder))) 0 l.
Proof. apply inStep_of_perm, stableSort_perm. Qed.

(** Read in order, the directives of the output are the sorted directives
    of the input. *)
Lemma orderDirectives_filter directiveOrder l :
  List.filter (fun s => isDirectiveNode (node s)) (orderDirectivesPass directiveOrder l)
  = sortBy (compareDirectives (weightMap directiveOrder))
      (List.filter (fun s => isDirectiveNode (node s)) l).
Proof.
  unfold orderDirectivesPass.
  rewrite spliceBack_filter by apply orderDirectives_inStep.
  by rewrite drop_0, stableSort_sortBy.
Qed.

Lemma orderDirectives_sorted directiveOrder l :
  StronglySorted (fun a b => compareDirectives (weightMap directiveOrder) a b <= 0)
    (List.filter (fun s => isDirectiveNode (node s)) (orderDirectivesPass directiveOrder l)).
Proof.
  rewrite orderDirectives_filter. apply sortBy_sorted.
  - apply compareDirectives_total.
  - apply compareDirectives_trans.
Qed.

Lemma orderAttributes_inStep l :
  inStep isAttributeNode
    (stableSort (List.filter (fun p => isAttributeNode (node p)) l) compareAttributes) 0 l.
Proof. apply inStep_of_perm, stableSort_perm. Qed.

Lemma orderDirectives_perm directiveOrder l : orderDirectivesPass directiveOrder l ≡ₚ l.
Proof. apply spliceBack_perm, stableSort_perm. Qed.

(** ** Unknown directive names *)

Lemma weight_known directiveOrder name :
  name ∈ directiveOrder ->
  0 <= weight (weightMap directiveOrder) name < Z.of_nat (length directiveOrder).
Proof.
  intros H. destruct (weightMap_present _ _ H) as (i & Hi & Hl).
  unfold weight. rewrite Hl. simpl. lia.
Qed.

Lemma weight_unknown directiveOrder name :
  name ∉ directiveOrder -> weight (weightMap directiveOrder) name = 1000.
Proof. intros H. unfold weight. by rewrite weightMap_absent. Qed.

(** While the priority list has at most 1000 names, the fallback rank 1000
    is above every configured rank: every directive with a name outside
    the list comes after every directive with a name of the list, and the
    directives outside the list are in ASCII order of their names. *)
Lemma unknown_last_up_to_1000 (directiveOrder : list string) (l : list Slot) :
  (length directiveOrder <= 1000)%nat ->
  unknownAfterKnown directiveOrder l.
Proof.
  intros Hlen. unfold unknownAfterKnown.
  pose proof (orderDirectives_sorted directiveOrder l) as Hsorted.
  split; [|split].
  - intros known unknown Hk Hu.
    rewrite (weight_unknown _ _ Hu). pose proof (weight_known _ _ Hk). lia.
  - intros i j a b Hi Hj Da Db Ha Hb.
    destruct (Nat.lt_trichotomy i j) as [Hij|[->|Hij]]; [|congruence|done].
    pose proof (sorted_filter_lookup _ (fun s => isDirectiveNode (node s)) _ _ _ _ _
                  Hsorted Hi Hj Hij Da Db) as Hab.
    apply compareDirectives_le in Hab.
    rewrite (weight_unknown _ _ Ha) in Hab. pose proof (weight_known _ _ Hb). lia.
  - intros i j a b Hi Hj Da Db Ha Hb Hij.
    pose proof (sorted_filter_lookup _ (fun s => isDirectiveNode (node s)) _ _ _ _ _
                  Hsorted Hi Hj Hij Da Db) as Hab.
    apply compareDirectives_le in Hab.
    rewrite (weight_unknown _ _ Ha), (weight_unknown _ _ Hb) in Hab. lia.
Qed.

Lemma unknown_last_default_order : unknownAfterKnown (directiveOrder defaultOptions) directiveSlots.
Proof. apply unknown_last_up_to_1000. simpl. lia. Qed.

Lemma longOrder_names : "zz" ∈ longOrder /\ "aa" ∉ longOrder.
Proof.
  unfold longOrder. split.
  - apply elem_of_app. right. by apply list_elem_of_singleton.
  - rewrite elem_of_app, elem_of_replicate, list_elem_of_singleton.
    intros [[? _]|?]; done.
Qed.

(** C4, on a priority list of 1001 names and the props [v-zz v-aa]: the
    configured name [zz] has rank 1000, which is the fallback rank of the
    unknown name [aa]; the two tie on rank, the names decide, and the
    unknown directive is placed before the known one. *)
Theorem fallback_rank_reached :
  ("zz" ∈ longOrder /\ "aa" ∉ longOrder)
  /\ weight (weightMap longOrder) "zz" = 1000
  /\ weight (weightMap longOrder) "aa" = 1000
  /\ map (fun s => source (propLoc (node s))) longOrderSlots = ["v-zz"; "v-aa"]
  /\ map (fun s => source (propLoc (node s))) (orderDirectivesPass longOrder longOrderSlots)
     = ["v-aa"; "v-zz"]
  /\ ~ unknownAfterKnown longOrder longOrderSlots.
Proof.
  split; [exact longOrder_names|].
  split; [by vm_compute|]. split; [by vm_compute|].
  split; [by vm_compute|]. split; [by vm_compute|].
  intros (_ & H & _). destruct longOrder_names as [Hzz Haa].
  specialize (H 0%nat 1%nat
                (slotOf 1 (directive 10 "aa" None [] None "v-aa"))
                (slotOf 0 (directive 5 "zz" None [] None "v-zz"))).
  assert (1 < 0)%nat; [|lia].
  apply H; try done; by vm_compute.
Qed.

(** ** Substrings *)

Lemma length_append a b :
  String.length (a +:+ b) = (String.length a + String.length b)%nat.
Proof. induction a as [|c a IH]; simpl; [done|]. by rewrite IH. Qed.

Lemma substring_0_0 s : String.substring 0 0 s = EmptyString.
Proof. by destruct s. Qed.

Lemma substring_empty n m : String.substring n m EmptyString = EmptyString.
Proof. by destruct n, m. Qed.

Lemma length_substring n m s :
  (n + m <= String.length s)%nat -> String.length (String.substring n m s) = m.
Proof.
  revert n m. induction s as [|c s IH]; intros n m H; simpl in H.
  - assert (n = 0 /\ m = 0)%nat as [-> ->] by lia. done.
  - destruct n as [|n]; simpl.
    + destruct m as [|m]; simpl; [done|]. rewrite IH; [done|lia].
    + apply IH. lia.
Qed.

(** A substring of a prefix is a substring of the whole. *)
Lemma substring_prefix n m p s :
  (n + m <= p)%nat ->
  String.substring n m (String.substring 0 p s) = String.substring n m s.
Proof.
  revert n m p. induction s as [|c s IH]; intros n m p H.
  - by rewrite !substring_empty.
  - destruct p as [|p].
    + assert (n = 0 /\ m = 0)%nat as [-> ->] by lia. done.
    + simpl. destruct n as [|n]; simpl.
      * destruct m as [|m]; [done|]. f_equal. apply IH. lia.
      * apply IH. lia.
Qed.

Lemma substring_substring k p n m s :
  (n + m <= p)%nat ->
  String.substring n m (String.substring k p s) = String.substring (k + n) m s.
Proof.
  revert k. induction s as [|c s IH]; intros k H.
  - by rewrite !substring_empty.
  - destruct k as [|k].
    + by apply substring_prefix.
    + simpl. by apply IH.
Qed.

Lemma substring_append_skip a b m :
  String.substring (String.length a) m (a +:+ b) = String.substring 0 m b.
Proof. induction a as [|c a IH]; simpl; [done|]. apply IH. Qed.

Lemma substring_whole s : String.substring 0 (String.length s) s = s.
Proof. induction s as [|c s IH]; simpl; [done|]. by rewrite IH. Qed.

Lemma substring_append_take a b :
  String.substring 0 (String.length a) (a +:+ b) = a.
Proof.
  induction a as [|c a IH]; simpl; [by rewrite substring_0_0|]. by rewrite IH.
Qed.

(** ** [slice] *)

Lemma slice_inside s (a b : Z) :
  0 <= a <= b -> b <= Z.of_nat (String.length s) ->
  slice s a b = String.substring (Z.to_nat a) (Z.to_nat (b - a)) s.
Proof.
  intros H1 H2. unfold slice, sliceIndex.
  destruct (Z.ltb_spec a 0); [lia|]. destruct (Z.ltb_spec b 0); [lia|].
  do 2 f_equal; lia.
Qed.

Lemma length_slice s (a b : Z) :
  0 <= a <= b -> b <= Z.of_nat (String.length s) ->
  Z.of_nat (String.length (slice s a b)) = b - a.
Proof.
  intros H1 H2. rewrite slice_inside by done. rewrite length_substring; lia.
Qed.

(** A slice of a slice, read in the offsets of the whole. *)
Lemma slice_slice s (lo hi a b : Z) :
  0 <= lo -> lo <= a -> a <= b -> b <= hi -> hi <= Z.of_nat (String.length s) ->
  slice (slice s lo hi) (a - lo) (b - lo) = slice s a b.
Proof.
  intros.
  rewrite (slice_inside (slice s lo hi)); [|lia|rewrite length_slice; lia].
  rewrite (slice_inside s lo hi), (slice_inside s a b) by lia.
  rewrite substring_substring by lia.
  f_equal; lia.
Qed.

(** Stripping the brackets of a dynamic argument. *)
Lemma slice_brackets x : slice ("[" +:+ x +:+ "]") 1 (-1) = x.
Proof.
  change ("[" +:+ x +:+ "]") with (String "["%char (x +:+ "]")).
  unfold slice, sliceIndex.
  assert (String.length (String "["%char (x +:+ "]")) = S (S (String.length x))) as ->.
  { simpl. rewrite length_append. simpl. lia. }
  destruct (Z.ltb_spec 1 0); [lia|]. destruct (Z.ltb_spec (-1) 0); [|lia].
  assert (Z.to_nat (Z.min 1 (Z.of_nat (S (S (String.length x))))) = 1%nat) as -> by lia.
  assert (Z.to_nat (Z.max (Z.max (Z.of_nat (S (S (String.length x))) + -1) 0
                            - Z.min 1 (Z.of_nat (S (S (String.length x))))) 0)
          = String.length x) as -> by lia.
  simpl. apply substring_append_take.
Qed.

Lemma endsWith_brackets x : endsWith "]" ("[" +:+ x +:+ "]") = true.
Proof.
  change ("[" +:+ x +:+ "]") with (String "["%char (x +:+ "]")).
  unfold endsWith.
  assert (String.length (String "["%char (x +:+ "]")) = S (S (String.length x))) as ->.
  { simpl. rewrite length_append. simpl. lia. }
  simpl. replace (String.length x - 0)%nat with (String.length x) by lia.
  by rewrite substring_append_skip.
Qed.

Lemma normalizedArg_dynamic x : normalizedArg ("[" +:+ x +:+ "]") = trim x.
Proof.
  unfold normalizedArg. rewrite endsWith_brackets, slice_brackets.
  change ("[" +:+ x +:+ "]") with (String "["%char (x +:+ "]")).
  simpl. by destruct (x +:+ "]").
Qed.

(** ** The span of the replacement *)

Lemma last_default {A} (l : list A) (d : A) : List.last l d = default d (last l).
Proof.
  induction l as [|x l IH]; [done|].
  destruct l as [|y l]; [done|].
  rewrite last_cons_cons. rewrite <- IH. done.
Qed.

Lemma buildUnified_inv element templateOffset options r :
  buildUnifiedAttributeReplacement element templateOffset options = Some r ->
  exists first rest,
    node_props element = first :: rest
    /\ (passes options (node_props element)).2 = true
    /\ r = {| start := templateOffset + start_offset (propLoc first);
              end_ := templateOffset + end_offset (propLoc (List.last (first :: rest) first));
              value := join (separator element options)
                         (map (fun p => source (propLoc (node p)))
                            (passes options (node_props element)).1) |}.
Proof.
  unfold buildUnifiedAttributeReplacement.
  destruct (node_props element) as [|first rest] eqn:Hp; [done|].
  destruct (passes options (first :: rest)) as [sorted changed] eqn:Hpass.
  destruct changed; simpl; [|done].
  intros [= <-]. by exists first, rest.
Qed.

(** C3. Span exactness: a replacement that is emitted starts where the
    first prop of the original list starts and ends where its last prop
    ends, shifted by the offset of the template. *)
Theorem span_exactness element templateOffset options r :
  buildUnifiedAttributeReplacement element templateOffset options = Some r ->
  exists first last,
    head (node_props element) = Some first
    /\ list.last (node_props element) = Some last
    /\ start r = templateOffset + start_offset (propLoc first)
    /\ end_ r = templateOffset + end_offset (propLoc last).
Proof.
  intros H. destruct (buildUnified_inv _ _ _ _ H) as (first & rest & Hp & _ & ->).
  rewrite Hp. destruct (list.last (first :: rest)) as [lst|] eqn:Hl.
  - exists first, lst. split; [done|]. split; [done|]. split; [done|].
    cbn [end_]. by rewrite last_default, Hl.
  - by apply last_None in Hl.
Qed.

Lemma span_exactness_witness :
  buildUnifiedAttributeReplacement mixedElement 10 allOn
  = Some {| start := 15; end_ := 60;
            value := "v-if=" +:+ dq "visible" +:+ " :foo class=" +:+ dq "a b" |}
  /\ exists first last,
       head (node_props mixedElement) = Some first
       /\ list.last (node_props mixedElement) = Some last
       /\ 15 = 10 + start_offset (propLoc first)
       /\ 60 = 10 + end_offset (propLoc last).
Proof.
  split; [reflexivity|].
  exact (span_exactness mixedElement 10 allOn
           {| start := 15; end_ := 60;
              value := "v-if=" +:+ dq "visible" +:+ " :foo class=" +:+ dq "a b" |}
           eq_refl).
Defined.

(** ** Layout strategy *)

Lemma gap_documentGap document element :
  locatedIn document element ->
  (1 < length (node_props element))%nat ->
  gap element = documentGap document (node_props element).
Proof.
  intros (Hsrc & H0 & Hlen & Hprops) Hn. unfold gap, documentGap.
  destruct (node_props element) as [|p0 [|p1 rest]]; simpl in Hn; try lia.
  destruct Hprops as (H1 & H2 & H3).
  rewrite Hsrc. apply slice_slice; lia.
Qed.

(** C9. Layout strategy: the props of a rebuilt block are joined by the
    text that stood between the first two props when the layout is
    [preserve], there is more than one prop and that text holds a line
    break, and by one space in every other case. *)
Theorem layout_strategy document element templateOffset options r :
  locatedIn document element ->
  buildUnifiedAttributeReplacement element templateOffset options = Some r ->
  let props := node_props element in
  let originalGap := documentGap document props in
  let chosen :=
    if isPreserve (attributeLayout options) && (1 <? length props)%nat
       && includes (str NL) originalGap
    then originalGap else " " in
  separator element options = chosen
  /\ value r = join chosen (map (fun p => source (propLoc (node p))) (passes options props).1).
Proof.
  intros Hloc H props originalGap chosen.
  assert (separator element options = chosen) as Hsep.
  { subst chosen originalGap props. unfold separator.
    destruct (isPreserve (attributeLayout options)); [|done].
    destruct (1 <? length (node_props element))%nat eqn:Hn; [|done].
    apply Nat.ltb_lt in Hn. simpl. by rewrite (gap_documentGap document). }
  split; [done|].
  destruct (buildUnified_inv _ _ _ _ H) as (first & rest & Hp & _ & ->).
  simpl. by rewrite Hsep.
Qed.

Lemma multiline_located : locatedIn multilineText multilineElement.
Proof. vm_compute. repeat split; discriminate. Qed.

Lemma layout_strategy_witness :
  locatedIn multilineText multilineElement
  /\ buildUnifiedAttributeReplacement multilineElement 0 preserving
     = Some {| start := 9; end_ := 29;
               value := "class=" +:+ dq "b" +:+ str NL +:+ "    id=" +:+ dq "a" |}
  /\ separator multilineElement preserving = str NL +:+ "    ".
Proof.
  split; [exact multiline_located|]. split; [reflexivity|].
  exact (proj1 (layout_strategy multilineText multilineElement 0 preserving _
                  multiline_located eq_refl)).
Defined.

(** ** Class tokens *)

Lemma split_onlySpaces s inGap :
  onlySpaces s = true ->
  List.filter truthy (splitSpacesFrom EmptyString inGap s) = [].
Proof.
  revert inGap. induction s as [|c s IH]; intros inGap H; [done|].
  simpl in H. apply andb_true_iff in H as [Hc Hs]. simpl. rewrite Hc.
  destruct inGap; simpl; by apply IH.
Qed.

Lemma classes_onlySpaces rawValue : onlySpaces rawValue = true -> classes rawValue = [].
Proof. apply split_onlySpaces. Qed.

Lemma processed_onlySpaces options rawValue :
  onlySpaces rawValue = true -> processed options rawValue = [].
Proof.
  intros H. unfold processed. rewrite (classes_onlySpaces _ H).
  by destruct (removeDuplicates options), (sortClasses options).
Qed.

Lemma includes_eq sub a b : a = b -> includes sub a = includes sub b.
Proof. by intros ->. Qed.

(** C10. A class attribute with a value of white space only, rebuilt in
    [preserve] layout from a source text that holds a line break, reads
    [class=], the quote, the word [undefined] and the quote; an element
    with this attribute alone gets a replacement with that text, and
    [vuenifyTransform] returns it for a template made of that element. *)
Theorem blank_class_prints_undefined options prop rawValue :
  attr_name prop = "class" ->
  attr_value prop = Some rawValue ->
  onlySpaces rawValue = true ->
  sortClasses options || removeDuplicates options = true ->
  classLayout options = preserve ->
  includes (str NL) (source (attr_loc prop)) = true ->
  let text := "class=" +:+ quote (source (attr_loc prop)) +:+ "undefined"
              +:+ quote (source (attr_loc prop)) in
  classPass options prop = Some (cloneAttributeWithSource prop text)
  /\ (forall type loc children templateOffset,
        buildUnifiedAttributeReplacement (Node type loc [ATTRIBUTE prop] children)
          templateOffset options
        = Some {| start := templateOffset + start_offset (attr_loc prop);
                  end_ := templateOffset + end_offset (attr_loc prop);
                  value := text |})
  /\ (forall parseSfc parseDom document overrides template loc,
        resolveOptions overrides = options ->
        parseSfc document = Some template ->
        isEmpty (trim (content template)) = false ->
        parseDom (content template)
        = Some {| root_children := Some [Node ELEMENT loc [ATTRIBUTE prop] (Some [])] |} ->
        let contentStartOffset :=
          start_offset (template_loc template)
          + indexOf (content template) (source (template_loc template)) in
        vuenifyTransform parseSfc parseDom document overrides
        = [ {| start := contentStartOffset + start_offset (attr_loc prop);
               end_ := contentStartOffset + end_offset (attr_loc prop);
               value := text |} ]).
Proof.
  intros Hname Hvalue Hblank Hflags Hlayout Hnl text.
  assert (rebuilt options prop rawValue = text) as Hrebuilt.
  { unfold rebuilt, rebuiltValue. rewrite (processed_onlySpaces _ _ Hblank), Hlayout, Hnl.
    done. }
  assert (String.eqb text (source (attr_loc prop)) = false) as Hne.
  { apply String.eqb_neq. intros Heq. apply (includes_eq (str NL)) in Heq.
    rewrite Hnl in Heq. subst text. unfold quote in Heq.
    destruct (includes (str SQ) (source (attr_loc prop))); by vm_compute in Heq. }
  assert (classPass options prop = Some (cloneAttributeWithSource prop text)) as Hpass.
  { unfold classPass. rewrite Hvalue, Hname, Hflags, Hrebuilt, Hne. done. }
  assert (forall type loc children templateOffset,
            buildUnifiedAttributeReplacement (Node type loc [ATTRIBUTE prop] children)
              templateOffset options
            = Some {| start := templateOffset + start_offset (attr_loc prop);
                      end_ := templateOffset + end_offset (attr_loc prop);
                      value := text |}) as Hbuild.
  { intros type loc children templateOffset.
    assert (transformed options [ATTRIBUTE prop]
            = [ {| ref := None; node := ATTRIBUTE (cloneAttributeWithSource prop text) |} ])
      as Htransformed.
    { unfold transformed. simpl. unfold transformedAt. simpl. by rewrite Hpass. }
    unfold buildUnifiedAttributeReplacement, passes. cbn [node_props].
    rewrite Htransformed.
    destruct (orderDirectives options), (orderAttributes options); reflexivity. }
  split; [done|]. split; [done|].
  intros parseSfc parseDom document overrides template loc Hopts Hsfc Hcontent Hdom off.
  unfold vuenifyTransform. rewrite Hsfc, Hcontent, Hdom, Hopts.
  destruct (content template); [done|].
  cbn [isEmpty orb root_children flat_map walk isElementNode node_type].
  rewrite Hbuild. reflexivity.
Qed.

Lemma blank_class_prints_undefined_witness :
  classPass preserving blankClass
  = Some (cloneAttributeWithSource blankClass ("class=" +:+ dq "undefined"))
  /\ buildUnifiedAttributeReplacement blankElement 0 preserving
     = Some {| start := 5; end_ := 14; value := "class=" +:+ dq "undefined" |}
  /\ vuenifyTransform blankSfc blankDom ("<template>" +:+ blankContent +:+ "</template>")
       (Some {| attributeLayout_opt := None; classLayout_opt := Some preserve;
                directiveOrder_opt := None; directiveStyle_opt := None;
                normalizeDirectives_opt := None; orderAttributes_opt := None;
                orderDirectives_opt := None; removeDuplicates_opt := None;
                sameNameMode_opt := None; sortClasses_opt := None |})
     = [ {| start := 15; end_ := 24; value := "class=" +:+ dq "undefined" |} ].
Proof.
  destruct (blank_class_prints_undefined
              (resolveOptions
                 (Some {| attributeLayout_opt := None; classLayout_opt := Some preserve;
                          directiveOrder_opt := None; directiveStyle_opt := None;
                          normalizeDirectives_opt := None; orderAttributes_opt := None;
                          orderDirectives_opt := None; removeDuplicates_opt := None;
                          sameNameMode_opt := None; sortClasses_opt := None |}))
              blankClass (str NL)
              eq_refl eq_refl eq_refl eq_refl eq_refl eq_refl) as (H1 & H2 & H3).
  split; [exact H1|]. split; [exact (H2 ELEMENT _ _ 0)|].
  exact (H3 blankSfc blankDom _ _ _ _ eq_refl eq_refl eq_refl eq_refl).
Defined.

(** ** Removing duplicates *)

Lemma uniq_from seen l :
  foldl setAdd seen l = (seen ++ firstOccurrencesFrom seen l)%list.
Proof.
  revert seen. induction l as [|x r IH]; intros seen; simpl.
  - by rewrite app_nil_r.
  - unfold setAdd at 2. destruct (existsb (String.eqb x) seen); [done|].
    by rewrite IH, <- app_assoc.
Qed.

Lemma firstOccurrencesFrom_positions seen pre l :
  (forall x, existsb (String.eqb x) seen = existsb (String.eqb x) pre) ->
  firstOccurrencesFrom seen l
  = map snd (List.filter (fun e => isFirstOccurrence (pre ++ l)%list e.1 e.2)
               (imap (fun i x => ((length pre + i)%nat, x)) l)).
Proof.
  revert seen pre. induction l as [|x r IH]; intros seen pre Hseen; [done|].
  assert (imap ((fun i y => ((length pre + i)%nat, y)) ∘ S) r
          = imap (fun i y => ((length (pre ++ [x])%list + i)%nat, y)) r) as Himap.
  { apply imap_ext. intros i y _. simpl. f_equal. rewrite length_app. simpl. lia. }
  cbn [firstOccurrencesFrom imap List.filter]. rewrite Himap.
  replace (pre ++ x :: r)%list with ((pre ++ [x]) ++ r)%list by by rewrite <- app_assoc.
  cbn [fst snd].
  assert (isFirstOccurrence ((pre ++ [x]) ++ r)%list (length pre + 0) x
          = negb (existsb (String.eqb x) seen)) as ->.
  { unfold isFirstOccurrence. rewrite Nat.add_0_r, <- app_assoc, take_app_length.
    by rewrite Hseen. }
  destruct (existsb (String.eqb x) seen) eqn:Hx; simpl.
  - apply IH. intros y. rewrite existsb_app, <- Hseen. simpl. rewrite orb_false_r.
    destruct (String.eqb_spec y x) as [->|]; [|by rewrite orb_false_r].
    by rewrite Hx.
  - f_equal. apply IH. intros y. by rewrite !existsb_app, Hseen.
Qed.

Lemma uniq_firstOccurrences l : uniq l = firstOccurrences l.
Proof.
  unfold uniq. rewrite uniq_from. simpl.
  by rewrite (firstOccurrencesFrom_positions [] [] l).
Qed.

(** ** What the passes do to the slots *)

Lemma orderAttributes_perm l : orderAttributesPass l ≡ₚ l.
Proof. apply spliceBack_perm, stableSort_perm. Qed.

Lemma passes_perm options props : (passes options props).1 ≡ₚ transformed options props.
Proof.
  unfold passes.
  destruct (orderDirectives options), (orderAttributes options); simpl;
    rewrite ?orderAttributes_perm, ?orderDirectives_perm; done.
Qed.

Lemma transformed_elem options props s :
  s ∈ transformed options props ->
  exists (i : nat) p, props !! i = Some p /\ s = transformedAt options i p.
Proof.
  unfold transformed. intros H. apply elem_of_lookup_imap in H as (i & p & -> & Hp).
  by exists i, p.
Qed.

Lemma classPass_off options prop :
  sortClasses options = false -> removeDuplicates options = false ->
  classPass options prop = None.
Proof.
  intros Hs Hd. unfold classPass. rewrite Hs, Hd. simpl. rewrite andb_false_r.
  by destruct (attr_value prop).
Qed.

(** ** Same-name bindings *)

Lemma truthy_nonempty s : truthy s = true <-> s <> "".
Proof. destruct s; simpl; split; intros; done. Qed.

Lemma valuePart_elsewhere prop mode :
  dir_name prop <> "bind" \/ argSource prop = "" ->
  valuePart prop mode = originalValuePart prop.
Proof.
  intros H. unfold valuePart. destruct (String.eqb_spec (dir_name prop) "bind") as [Hb|]; [|done].
  destruct H as [H|H]; [done|]. by rewrite H.
Qed.

(** ** The quote of a rebuilt class *)

(** C5, on [class="b a's"]: the value stands between double quotes, and
    the rebuilt attribute puts it between single quotes. *)
Theorem class_quote_not_preserved :
  enclosingQuote (source (attr_loc apostropheClass)) = Some DQ
  /\ classPass allOn apostropheClass
     = Some (cloneAttributeWithSource apostropheClass "class='a's b'")
  /\ enclosingQuote "class='a's b'" = Some SQ.
Proof. by vm_compute. Qed.

(** The quote is kept when the text of the attribute holds no apostrophe
    and the value stands between double quotes. *)
Lemma quote_without_apostrophe originalSource :
  includes (str SQ) originalSource = false -> quote originalSource = str DQ.
Proof. intros H. unfold quote. by rewrite H. Qed.

(** ** The walk over a well-formed tree *)

Lemma node_ind (P : TemplateChildNode -> Prop) :
  (forall type loc props children,
     match children with Some cs => Forall P cs | None => True end ->
     P (Node type loc props children)) ->
  forall n, P n.
Proof.
  intros H. fix IH 1. intros [type loc props children]. apply H.
  destruct children as [cs|]; [|exact I].
  induction cs as [|c cs IHcs]; constructor; [apply IH|exact IHcs].
Qed.

(** The block of a well-formed element is not empty and lies inside the
    element; it ends where the last prop ends. *)
Lemma props_span first rest :
  Forall propSpanOk (first :: rest) ->
  StronglySorted propBefore (first :: rest) ->
  start_offset (propLoc first) < end_offset (propLoc (List.last (first :: rest) first)).
Proof.
  intros Hok Hsorted. rewrite last_default.
  destruct (last (first :: rest)) as [lst|] eqn:Hl; [|by apply last_None in Hl].
  simpl. destruct rest as [|second rest'].
  - injection Hl as <-. by apply Forall_inv in Hok.
  - rewrite last_cons_cons in Hl. apply last_Some_elem_of in Hl.
    apply StronglySorted_inv in Hsorted as [_ Hall].
    rewrite Forall_forall in Hok. rewrite Forall_forall in Hall.
    pose proof (Hok first (list_elem_of_here _ _)) as H1.
    pose proof (Hok lst (list_elem_of_further _ _ _ Hl)) as H2.
    pose proof (Hall lst Hl) as H3.
    unfold propSpanOk, propBefore in *. lia.
Qed.

Lemma buildUnified_within type loc props children templateOffset options r :
  Forall propSpanOk props ->
  StronglySorted propBefore props ->
  Forall (propPlaced loc) props ->
  buildUnifiedAttributeReplacement (Node type loc props children) templateOffset options
  = Some r ->
  within (templateOffset + start_offset loc) (templateOffset + end_offset loc) r
  /\ exists lst, lst ∈ props /\ end_ r = templateOffset + end_offset (propLoc lst).
Proof.
  intros Hok Hsorted Hplaced H.
  destruct (buildUnified_inv _ _ _ _ H) as (first & rest & Hp & _ & ->).
  simpl in Hp. subst props.
  pose proof (props_span _ _ Hok Hsorted) as Hspan.
  assert (List.last (first :: rest) first ∈ first :: rest) as Hin.
  { rewrite last_default. destruct (last (first :: rest)) as [lst|] eqn:Hl.
    - by apply last_Some_elem_of in Hl.
    - by apply last_None in Hl. }
  rewrite Forall_forall in Hplaced.
  pose proof (Hplaced first (list_elem_of_here _ _)) as [H1 _].
  pose proof (Hplaced _ Hin) as [_ H2].
  split.
  - unfold within. cbn [start end_]. lia.
  - by eexists.
Qed.

Lemma walk_forest templateOffset options cs :
  Forall (fun c =>
            Forall (within (templateOffset + start_offset (node_loc c))
                           (templateOffset + end_offset (node_loc c)))
                   (walk templateOffset options c)
            /\ StronglySorted before (walk templateOffset options c)) cs ->
  StronglySorted nodeBefore cs ->
  StronglySorted before (flat_map (walk templateOffset options) cs)
  /\ Forall (fun r => exists c, c ∈ cs
                      /\ within (templateOffset + start_offset (node_loc c))
                                (templateOffset + end_offset (node_loc c)) r)
       (flat_map (walk templateOffset options) cs).
Proof.
  induction 1 as [|c cs [Hc1 Hc2] Hcs IH]; intros Hsorted; [by split; constructor|].
  apply StronglySorted_inv in Hsorted as [Hs Hall].
  destruct (IH Hs) as [IH1 IH2]. simpl. split.
  - apply StronglySorted_app_2; [|done|done].
    intros x1 x2 Hx1 Hx2.
    rewrite Forall_forall in Hc1. rewrite Forall_forall in IH2. rewrite Forall_forall in Hall.
    destruct (IH2 x2 Hx2) as (c' & Hc' & Hw').
    pose proof (Hc1 x1 Hx1) as Hw. pose proof (Hall c' Hc') as Hb.
    unfold within, before, nodeBefore in *. lia.
  - apply Forall_app. split.
    + eapply Forall_impl; [exact Hc1|]. intros r Hr. exists c. split; [constructor|done].
    + eapply Forall_impl; [exact IH2|]. intros r (c' & Hc' & Hw').
      exists c'. split; [by constructor|done].
Qed.

Lemma walk_within templateOffset options n :
  WellFormed n ->
  Forall (within (templateOffset + start_offset (node_loc n))
                 (templateOffset + end_offset (node_loc n)))
         (walk templateOffset options n)
  /\ StronglySorted before (walk templateOffset options n).
Proof.
  induction n as [type loc props children IH] using node_ind. intros Hwf.
  inversion Hwf as [? ? ? ? Hok Hsorted Hplaced Hchildren]; subst.
  cbn [walk node_loc].
  set (own := if isElementNode (Node type loc props children)
              then match buildUnifiedAttributeReplacement (Node type loc props children)
                           templateOffset options with
                   | Some res => [res] | None => [] end
              else []).
  assert (Forall (fun r => within (templateOffset + start_offset loc)
                                  (templateOffset + end_offset loc) r
                           /\ exists lst, lst ∈ props
                                /\ end_ r = templateOffset + end_offset (propLoc lst)) own
          /\ StronglySorted before own) as [Hown1 Hown2].
  { subst own. destruct (isElementNode _); [|by split; constructor].
    destruct (buildUnifiedAttributeReplacement _ _ _) as [r|] eqn:Hr;
      [|by split; constructor].
    split; [|by repeat constructor].
    constructor; [|constructor]. by eapply buildUnified_within. }
  destruct children as [cs|].
  - destruct (Hchildren cs eq_refl) as (Hwfs & Hcsorted & Hcplaced).
    assert (Forall (fun c =>
              Forall (within (templateOffset + start_offset (node_loc c))
                             (templateOffset + end_offset (node_loc c)))
                     (walk templateOffset options c)
              /\ StronglySorted before (walk templateOffset options c)) cs) as Hkids.
    { rewrite Forall_forall in IH. rewrite Forall_forall in Hwfs. apply Forall_forall. intros c Hc.
      by apply IH, Hwfs. }
    destruct (walk_forest _ _ _ Hkids Hcsorted) as [Hf1 Hf2].
    rewrite Forall_forall in Hf2. rewrite Forall_forall in Hcplaced. rewrite Forall_forall in Hown1.
    split.
    + apply Forall_app. split.
      * apply Forall_forall. intros r Hr. by apply Hown1.
      * apply Forall_forall. intros r Hr.
        destruct (Hf2 r Hr) as (c & Hc & Hw).
        destruct (Hcplaced c Hc) as (H1 & H2 & _).
        unfold within in *. lia.
    + apply StronglySorted_app_2; [|done|done].
      intros x1 x2 Hx1 Hx2.
      destruct (Hown1 x1 Hx1) as (_ & lst & Hlst & Hend).
      destruct (Hf2 x2 Hx2) as (c & Hc & Hw).
      destruct (Hcplaced c Hc) as (_ & _ & Hafter).
      rewrite Forall_forall in Hafter. pose proof (Hafter lst Hlst).
      unfold within, before in *. lia.
  - rewrite app_nil_r. split; [|done].
    eapply Forall_impl; [exact Hown1|]. by intros r [? _].
Qed.

Lemma filter_all {A} (l : list A) : List.filter (fun _ => true) l = l.
Proof. induction l as [|x l IH]; simpl; [done|]. by rewrite IH. Qed.

Lemma sorted_lookup_before (rs : list Replacement) (i j : nat) a b :
  StronglySorted before rs -> rs !! i = Some a -> rs !! j = Some b -> (i < j)%nat ->
  before a b.
Proof.
  intros Hs Hi Hj Hij.
  apply (sorted_filter_lookup before (fun _ => true) rs i j a b); try done.
  by rewrite filter_all.
Qed.

(** C2. For parsers whose trees have well-formed spans, every replacement
    of [vuenifyTransform] has [start < end], and two replacements at
    different positions of the result share no position of the document,
    nested elements included. *)
Theorem replacements_disjoint parseSfc parseDom :
  (forall text ast, parseDom text = Some ast -> WellFormedRoot ast) ->
  forall document options,
    let rs := vuenifyTransform parseSfc parseDom document options in
    Forall (fun r => start r < end_ r) rs
    /\ forall (i j : nat) a b, i <> j -> rs !! i = Some a -> rs !! j = Some b ->
         disjointSpans a b.
Proof.
  intros Hparser document options rs.
  assert (Forall (fun r => start r < end_ r) rs /\ StronglySorted before rs) as [H1 H2].
  { subst rs. unfold vuenifyTransform.
    destruct (parseSfc document) as [template|]; [|by split; constructor].
    destruct (isEmpty (content template) || isEmpty (trim (content template)));
      [by split; constructor|].
    destruct (parseDom (content template)) as [ast|] eqn:Hast; [|by split; constructor].
    destruct (root_children ast) as [cs|] eqn:Hcs; [|by split; constructor].
    destruct (Hparser _ _ Hast cs Hcs) as [Hwfs Hsorted].
    match goal with |- context [flat_map (walk ?off ?opts) cs] =>
      assert (Forall (fun c =>
                Forall (within (off + start_offset (node_loc c))
                               (off + end_offset (node_loc c))) (walk off opts c)
                /\ StronglySorted before (walk off opts c)) cs) as Hkids;
      [apply Forall_forall; intros c Hc; apply walk_within;
       rewrite Forall_forall in Hwfs; by apply Hwfs|];
      destruct (walk_forest off opts cs Hkids Hsorted) as [Hf1 Hf2]
    end.
    split; [|done].
    eapply Forall_impl; [exact Hf2|]. intros r (c & _ & Hw). unfold within in Hw. lia. }
  split; [done|].
  intros i j a b Hij Hi Hj. unfold disjointSpans.
  destruct (Nat.lt_trichotomy i j) as [Hlt|[->|Hlt]]; [|done|].
  - left. by apply (sorted_lookup_before rs i j).
  - right. by apply (sorted_lookup_before rs j i).
Qed.

Lemma nested_wellformed text ast : nestedDom text = Some ast -> WellFormedRoot ast.
Proof.
  intros [= <-] cs [= <-].
  split; [|repeat constructor].
  constructor; [|constructor].
  apply WellFormed_node.
  - repeat constructor.
  - repeat constructor.
  - repeat constructor; vm_compute; discriminate.
  - intros cs [= <-]. split; [|split].
    + constructor; [|constructor]. apply WellFormed_node.
      * repeat constructor.
      * repeat constructor.
      * repeat constructor; vm_compute; discriminate.
      * intros cs [= <-]. repeat constructor.
    + repeat constructor.
    + repeat constructor; vm_compute; discriminate.
Qed.

Lemma replacements_disjoint_witness :
  let rs := vuenifyTransform nestedSfc nestedDom nestedText None in
  rs = [ {| start := 15; end_ := 26; value := "class=" +:+ dq "c d" |};
         {| start := 33; end_ := 44; value := "class=" +:+ dq "a b" |} ]
  /\ Forall (fun r => start r < end_ r) rs
  /\ forall (i j : nat) a b, i <> j -> rs !! i = Some a -> rs !! j = Some b ->
       disjointSpans a b.
Proof.
  split; [reflexivity|].
  exact (replacements_disjoint nestedSfc nestedDom nested_wellformed nestedText None).
Defined.

(** ** Running the transform twice *)

Lemma transform_quoted parseSfc parseDom :
  parseSfc quotedDocument = Some quotedTemplate ->
  parseDom quotedContent = Some quotedAst ->
  vuenifyTransform parseSfc parseDom quotedDocument None
  = [ {| start := 15; end_ := 30; value := "class='a' b='c'" |} ].
Proof.
  intros Hsfc Hdom. unfold vuenifyTransform. rewrite Hsfc.
  change (content quotedTemplate) with quotedContent. rewrite Hdom.
  by vm_compute.
Qed.

Lemma transform_requoted parseSfc parseDom :
  parseSfc requotedDocument = Some requotedTemplate ->
  parseDom requotedContent = Some requotedAst ->
  vuenifyTransform parseSfc parseDom requotedDocument None
  = [ {| start := 15; end_ := 30; value := "b='c' class='a'" |} ].
Proof.
  intros Hsfc Hdom. unfold vuenifyTransform. rewrite Hsfc.
  change (content requotedTemplate) with requotedContent. rewrite Hdom.
  by vm_compute.
Qed.

(** C1, on the document [<template><div class="a' b='c"></div></template>]
    with the default options: the first run rewrites the class attribute
    between single quotes, which turns the rest of its value into an
    attribute [b], and the second run finds these two attributes to
    reorder. The parsers are any that read the two documents as the
    parsers of Vue do. *)
Theorem second_run_not_empty parseSfc parseDom :
  parseSfc quotedDocument = Some quotedTemplate ->
  parseDom quotedContent = Some quotedAst ->
  parseSfc requotedDocument = Some requotedTemplate ->
  parseDom requotedContent = Some requotedAst ->
  let once :=
    applyEdits quotedDocument (vuenifyTransform parseSfc parseDom quotedDocument None) in
  once = requotedDocument
  /\ vuenifyTransform parseSfc parseDom once None
     = [ {| start := 15; end_ := 30; value := "b='c' class='a'" |} ].
Proof.
  intros H1 H2 H3 H4 once.
  assert (once = requotedDocument) as Honce.
  { subst once. rewrite (transform_quoted _ _ H1 H2). by vm_compute. }
  split; [done|]. rewrite Honce. by apply transform_requoted.
Qed.

Lemma second_run_not_empty_witness :
  let once :=
    applyEdits quotedDocument (vuenifyTransform tableSfc tableDom quotedDocument None) in
  once = "<template><div class='a' b='c'></div></template>"
  /\ vuenifyTransform tableSfc tableDom once None
     = [ {| start := 15; end_ := 30; value := "b='c' class='a'" |} ].
Proof.
  exact (second_run_not_empty tableSfc tableDom eq_refl eq_refl eq_refl eq_refl).
Defined.

(** ** Attribute ordering *)

Lemma sorted_weaken {A} (R R' : A -> A -> Prop) (l : list A) :
  (forall a b, R a b -> R' a b) -> StronglySorted R l -> StronglySorted R' l.
Proof.
  intros HR. induction 1 as [|x l Hl IH Hall]; constructor; [done|].
  eapply Forall_impl; [exact Hall|]. intros y. apply HR.
Qed.


Lemma compareAttributes_total a b :
  0 < compareAttributes a b -> compareAttributes b a <= 0.
Proof.
  unfold compareAttributes.
  destruct (propHasValue (node a)), (propHasValue (node b)); simpl; try lia;
    apply asciiCompare_total.
Qed.

Lemma compareAttributes_trans a b c :
  compareAttributes a b <= 0 -> compareAttributes b c <= 0 -> compareAttributes a c <= 0.
Proof.
  unfold compareAttributes.
  destruct (propHasValue (node a)), (propHasValue (node b)), (propHasValue (node c));
    simpl; try lia; apply asciiCompare_le_trans.
Qed.


Lemma orderAttributes_filter l :
  List.filter (fun s => isAttributeNode (node s)) (orderAttributesPass l)
  = sortBy compareAttributes (List.filter (fun s => isAttributeNode (node s)) l).
Proof.
  unfold orderAttributesPass.
  rewrite spliceBack_filter by apply orderAttributes_inStep.
  by rewrite drop_0, stableSort_sortBy.
Qed.


(** ** The orderings composed *)

Lemma sortBy_sorted_id {T} (cmp : T -> T -> Z) (l : list T) :
  StronglySorted (fun a b => cmp a b <= 0) l -> sortBy cmp l = l.
Proof.
  induction 1 as [|x r Hr IH Hall]; [done|].
  simpl. rewrite IH. destruct r as [|y r']; [done|].
  simpl. apply Forall_inv in Hall. apply Z.leb_le in Hall. by rewrite Hall.
Qed.

(** Splicing back the entries of a kind as they stand changes nothing. *)
Lemma spliceBack_same (isKind : PropNode -> bool) (pre l : list Slot) :
  spliceBack isKind (pre ++ List.filter (fun s => isKind (node s)) l)%list (length pre) l = l.
Proof.
  revert pre. induction l as [|p r IH]; intros pre; [done|].
  simpl. destruct (isKind (node p)) eqn:Hp.
  - rewrite lookup_app_r by lia. rewrite Nat.sub_diag. simpl. f_equal.
    specialize (IH (pre ++ [p])%list).
    rewrite <- app_assoc, length_app in IH. simpl in IH.
    by rewrite Nat.add_1_r in IH.
  - f_equal. apply IH.
Qed.

(** A list is known by the kinds at its positions and by the entries of
    each kind read in order. *)
Lemma interleave_unique (kind : Slot -> bool) (l1 l2 : list Slot) :
  map kind l1 = map kind l2 ->
  List.filter kind l1 = List.filter kind l2 ->
  List.filter (fun s => negb (kind s)) l1 = List.filter (fun s => negb (kind s)) l2 ->
  l1 = l2.
Proof.
  revert l2. induction l1 as [|x l1 IH]; intros [|y l2] Hk Hin Hout; try done.
  simpl in *. injection Hk as Hxy Hk. rewrite <- Hxy in *.
  destruct (kind x); simpl in *.
  - injection Hin as -> Hin. f_equal. by apply IH.
  - injection Hout as -> Hout. f_equal. by apply IH.
Qed.

Lemma map_kind_eq (kind : Slot -> bool) (l1 l2 : list Slot) :
  (forall j : nat, kind <$> l1 !! j = kind <$> l2 !! j) -> map kind l1 = map kind l2.
Proof.
  intros H. apply list_eq. intros j.
  change (map kind l1) with (kind <$> l1). change (map kind l2) with (kind <$> l2).
  by rewrite !list_lookup_fmap.
Qed.

Lemma negb_attribute p : negb (isAttributeNode p) = isDirectiveNode p.
Proof. by destruct p. Qed.

Lemma negb_directive p : negb (isDirectiveNode p) = isAttributeNode p.
Proof. by destruct p. Qed.

Lemma orderDirectives_attributes priority l :
  List.filter (fun s => isAttributeNode (node s)) (orderDirectivesPass priority l)
  = List.filter (fun s => isAttributeNode (node s)) l.
Proof.
  rewrite <- (List.filter_ext (fun s => negb (isDirectiveNode (node s))))
    by (intros s; apply negb_directive).
  rewrite <- (List.filter_ext (fun s => negb (isDirectiveNode (node s)))
                (fun s => isAttributeNode (node s)) (fun s => negb_directive (node s)) l).
  apply spliceBack_filter_other, orderDirectives_inStep.
Qed.

Lemma orderAttributes_directives l :
  List.filter (fun s => isDirectiveNode (node s)) (orderAttributesPass l)
  = List.filter (fun s => isDirectiveNode (node s)) l.
Proof.
  rewrite <- (List.filter_ext (fun s => negb (isAttributeNode (node s))))
    by (intros s; apply negb_attribute).
  rewrite <- (List.filter_ext (fun s => negb (isAttributeNode (node s)))
                (fun s => isDirectiveNode (node s)) (fun s => negb_attribute (node s)) l).
  apply spliceBack_filter_other, orderAttributes_inStep.
Qed.

Lemma orderDirectives_kinds priority l :
  map (fun s => isDirectiveNode (node s)) (orderDirectivesPass priority l)
  = map (fun s => isDirectiveNode (node s)) l.
Proof.
  apply map_kind_eq. intros j.
  apply (spliceBack_kind isDirectiveNode), orderDirectives_inStep.
Qed.

Lemma orderAttributes_kinds l :
  map (fun s => isDirectiveNode (node s)) (orderAttributesPass l)
  = map (fun s => isDirectiveNode (node s)) l.
Proof.
  rewrite <- (map_ext (fun s => negb (isAttributeNode (node s))))
    by (intros s; apply negb_attribute).
  rewrite <- (map_ext (fun s => negb (isAttributeNode (node s)))
                (fun s => isDirectiveNode (node s)) (fun s => negb_attribute (node s)) l).
  rewrite <- !(map_map (fun s => isAttributeNode (node s)) negb). f_equal.
  apply map_kind_eq. intros j.
  apply (spliceBack_kind isAttributeNode), orderAttributes_inStep.
Qed.

(** X2. The two orderings do not disturb each other: each is idempotent, they
    commute, and after both the directives read in order are the sorted
    directives and the attributes the sorted attributes. *)
Theorem orderings_compose (priority : list string) (l : list Slot) :
  orderDirectivesPass priority (orderDirectivesPass priority l)
  = orderDirectivesPass priority l
  /\ orderAttributesPass (orderAttributesPass l) = orderAttributesPass l
  /\ orderAttributesPass (orderDirectivesPass priority l)
     = orderDirectivesPass priority (orderAttributesPass l)
  /\ List.filter (fun s => isDirectiveNode (node s))
       (orderAttributesPass (orderDirectivesPass priority l))
     = stableSort (List.filter (fun s => isDirectiveNode (node s)) l)
         (compareDirectives (weightMap priority))
  /\ List.filter (fun s => isAttributeNode (node s))
       (orderAttributesPass (orderDirectivesPass priority l))
     = stableSort (List.filter (fun s => isAttributeNode (node s)) l) compareAttributes.
Proof.
  split; [|split; [|split; [|split]]].
  - unfold orderDirectivesPass at 1. rewrite stableSort_sortBy.
    rewrite sortBy_sorted_id by apply orderDirectives_sorted.
    apply (spliceBack_same isDirectiveNode []).
  - unfold orderAttributesPass at 1. rewrite stableSort_sortBy.
    rewrite sortBy_sorted_id.
    + apply (spliceBack_same isAttributeNode []).
    + rewrite orderAttributes_filter.
      apply sortBy_sorted; [apply compareAttributes_total|apply compareAttributes_trans].
  - apply (interleave_unique (fun s => isDirectiveNode (node s))).
    + by rewrite orderAttributes_kinds, !orderDirectives_kinds, orderAttributes_kinds.
    + by rewrite orderAttributes_directives, !orderDirectives_filter,
        orderAttributes_directives.
    + rewrite !(List.filter_ext (fun s => negb (isDirectiveNode (node s)))
                  (fun s => isAttributeNode (node s)) (fun s => negb_directive (node s))).
      by rewrite orderAttributes_filter, !orderDirectives_attributes, orderAttributes_filter.
  - by rewrite orderAttributes_directives, orderDirectives_filter, stableSort_sortBy.
  - by rewrite orderAttributes_filter, orderDirectives_attributes, stableSort_sortBy.
Qed.

(** ** When no replacement is made *)

Lemma untouched_lookup props (i : nat) :
  untouched props !! i = slotOf i <$> props !! i.
Proof. unfold untouched. by rewrite list_lookup_imap. Qed.

Lemma untouched_elem props s :
  s ∈ untouched props -> exists i : nat, ref s = Some i /\ untouched props !! i = Some s.
Proof.
  intros H. apply list_elem_of_lookup in H as [i Hi].
  pose proof Hi as Hi'. rewrite untouched_lookup in Hi'.
  destruct (props !! i) as [p|]; [|done]. injection Hi' as <-.
  exists i. split; [done|]. rewrite untouched_lookup.
  rewrite untouched_lookup in Hi. done.
Qed.

Lemma changedByFirstPass_false options props :
  changedByFirstPass (transformed options props) = false ->
  transformed options props = untouched props.
Proof.
  unfold changedByFirstPass, transformed, untouched. intros H.
  apply imap_ext. intros i p Hp.
  assert (transformedAt options i p ∈ imap (transformedAt options) props) as Hin.
  { apply elem_of_lookup_imap. by exists i, p. }
  rewrite <- not_true_iff_false, existsb_exists in H.
  unfold transformedAt in *. destruct (firstPass options p); [|done].
  exfalso. apply H. eexists. split; [apply list_elem_of_In; exact Hin|done].
Qed.

Lemma changedByFirstPass_true options props :
  changedByFirstPass (transformed options props) = true ->
  exists s, s ∈ transformed options props /\ ref s = None.
Proof.
  unfold changedByFirstPass. intros H. apply existsb_exists in H as (s & Hs & Href).
  exists s. split; [by apply list_elem_of_In|]. by destruct (ref s).
Qed.

Lemma differsFromProps_false sorted :
  differsFromProps sorted = false <->
  forall (idx : nat) p, sorted !! idx = Some p -> ref p = Some idx.
Proof.
  unfold differsFromProps. rewrite <- not_true_iff_false, existsb_exists. split.
  - intros H idx p Hp. destruct (decide (ref p = Some idx)) as [|Hne]; [done|].
    exfalso. apply H. exists true. split; [|done].
    apply list_elem_of_In, elem_of_lookup_imap. exists idx, p.
    split; [|done]. by rewrite bool_decide_eq_false_2.
  - intros H (b & Hb & ->). apply list_elem_of_In, elem_of_lookup_imap in Hb
      as (idx & p & Hb & Hp).
    rewrite (bool_decide_eq_true_2 _ (H idx p Hp)) in Hb. done.
Qed.

(** An array of parsed props, each at its own index, is the untouched
    one. *)
Lemma in_place_untouched props sorted :
  sorted ≡ₚ untouched props -> differsFromProps sorted = false ->
  sorted = untouched props.
Proof.
  intros Hperm Hsame. rewrite differsFromProps_false in Hsame.
  apply list_eq_same_length with (length sorted); [by rewrite Hperm|done|].
  intros idx x y _ Hx Hy.
  assert (x ∈ untouched props) as Hin.
  { rewrite <- Hperm. by eapply list_elem_of_lookup_2. }
  apply untouched_elem in Hin as (i & Hi & Hlook).
  rewrite (Hsame idx x Hx) in Hi. injection Hi as <-. congruence.
Qed.

Lemma untouched_differs props : differsFromProps (untouched props) = false.
Proof.
  apply differsFromProps_false. intros idx p Hp.
  rewrite untouched_lookup in Hp. destruct (props !! idx); [|done]. by injection Hp as <-.
Qed.

Lemma passes_unchanged options props :
  (passes options props).2 = false <-> (passes options props).1 = untouched props.
Proof.
  unfold passes.
  destruct (changedByFirstPass (transformed options props)) eqn:Hfirst.
  - (* a clone was made: it stays in the array *)
    destruct (changedByFirstPass_true _ _ Hfirst) as (s & Hs & Href).
    split.
    + by destruct (orderDirectives options), (orderAttributes options).
    + intros Heq. exfalso.
      assert (s ∈ untouched props) as Hin.
      { rewrite <- Heq.
        destruct (orderDirectives options), (orderAttributes options); simpl;
          rewrite ?orderAttributes_perm, ?orderDirectives_perm; done. }
      apply untouched_elem in Hin as (i & Hi & _). congruence.
  - rewrite (changedByFirstPass_false _ _ Hfirst).
    destruct (orderDirectives options), (orderAttributes options); simpl.
    + set (d := orderDirectivesPass (directiveOrder options) (untouched props)).
      assert (d ≡ₚ untouched props) as Hd by apply orderDirectives_perm.
      destruct (differsFromProps d) eqn:Hdiff; simpl.
      * split; [done|]. intros Heq. exfalso.
        (* the directives are where the directive ordering put them *)
        assert (d = untouched props); [|subst d; by rewrite H, untouched_differs in Hdiff].
        apply (interleave_unique (fun s => isDirectiveNode (node s))).
        -- rewrite <- Heq. by rewrite orderAttributes_kinds.
        -- rewrite <- Heq. by rewrite orderAttributes_directives.
        -- subst d.
           rewrite !(List.filter_ext (fun s => negb (isDirectiveNode (node s)))
                       (fun s => isAttributeNode (node s))
                       (fun s => negb_directive (node s))).
           by rewrite orderDirectives_attributes.
      * pose proof (in_place_untouched _ _ Hd Hdiff) as ->.
        split.
        -- intros Hdiff'. apply in_place_untouched; [apply orderAttributes_perm|done].
        -- intros ->. apply untouched_differs.
    + split.
      * intros Hdiff. apply in_place_untouched; [apply orderDirectives_perm|done].
      * intros ->. apply untouched_differs.
    + split.
      * intros Hdiff. apply in_place_untouched; [apply orderAttributes_perm|done].
      * intros ->. apply untouched_differs.
    + done.
Qed.

Lemma buildUnified_unchanged element templateOffset options :
  (passes options (node_props element)).2 = false ->
  buildUnifiedAttributeReplacement element templateOffset options = None.
Proof.
  unfold buildUnifiedAttributeReplacement. intros H.
  destruct (node_props element) as [|first rest]; [done|].
  destruct (passes options (first :: rest)) as [sorted changed]. simpl in *.
  by rewrite H.
Qed.

(** X3. No replacement is made exactly when the element has no prop or the
    three passes leave every parsed prop itself at its own index; a
    replacement is made exactly when a prop was rewritten or moved. *)
Theorem replacement_iff_changed element templateOffset options :
  buildUnifiedAttributeReplacement element templateOffset options = None
  <-> node_props element = []
      \/ (passes options (node_props element)).1 = untouched (node_props element).
Proof.
  rewrite <- passes_unchanged. unfold buildUnifiedAttributeReplacement.
  destruct (node_props element) as [|first rest]; [by split; [left|]|].
  destruct (passes options (first :: rest)) as [sorted changed]. simpl.
  destruct changed; simpl; split; try done.
  - by intros [|].
  - by right.
Qed.

(** X4. The rebuilt block holds the props of the first pass, each one once. *)
Theorem rebuilt_block_keeps_props element templateOffset options r :
  buildUnifiedAttributeReplacement element templateOffset options = Some r ->
  exists texts,
    value r = join (separator element options) texts
    /\ texts ≡ₚ map (fun s => source (propLoc (node s)))
                  (transformed options (node_props element))
    /\ length texts = length (node_props element).
Proof.
  intros H. destruct (buildUnified_inv _ _ _ _ H) as (first & rest & Hp & _ & ->).
  eexists. split; [reflexivity|]. split.
  - by rewrite passes_perm.
  - rewrite length_map, passes_perm. unfold transformed. by rewrite length_imap.
Qed.

(** ** Offsets and empty results of the transform *)

Lemma buildUnified_shift element templateOffset options :
  buildUnifiedAttributeReplacement element templateOffset options
  = shift templateOffset <$> buildUnifiedAttributeReplacement element 0 options.
Proof.
  unfold buildUnifiedAttributeReplacement.
  destruct (node_props element) as [|first rest]; [done|].
  destruct (passes options (first :: rest)) as [sorted changed].
  destruct changed; simpl; [|done]. unfold shift. simpl. done.
Qed.

(** X5. The offset of the template moves the spans and nothing else: the walk
    at an offset is the walk at offset zero, shifted. *)
Theorem walk_shift (contentStartOffset : Z) (opts : ResolvedVuenifyOptions)
    (n : TemplateChildNode) :
  walk contentStartOffset opts n = map (shift contentStartOffset) (walk 0 opts n).
Proof.
  induction n as [type loc props children IH] using node_ind.
  cbn [walk]. rewrite map_app. f_equal.
  - destruct (isElementNode _); [|done].
    rewrite buildUnified_shift.
    by destruct (buildUnifiedAttributeReplacement _ 0 opts).
  - destruct children as [cs|]; [|done].
    induction IH as [|c cs Hc _ IHcs]; [done|].
    simpl. by rewrite map_app, Hc, IHcs.
Qed.

Lemma trimStart_onlySpaces s : onlySpaces s = true -> trimStart s = EmptyString.
Proof.
  induction s as [|c s IH]; [done|]. simpl. intros H.
  apply andb_true_iff in H as [Hc Hs]. rewrite Hc. by apply IH.
Qed.

Lemma trim_onlySpaces s : onlySpaces s = true -> trim s = EmptyString.
Proof. intros H. unfold trim. by rewrite trimStart_onlySpaces. Qed.

(** X6. The transform returns no replacement when the document has no
    template, when the content of the template is empty or white space,
    when the template parser throws, and when the root has no array of
    children. *)
Theorem transform_empty_results parseSfc parseDom document overrides :
  (parseSfc document = None
   \/ (exists template, parseSfc document = Some template
         /\ (onlySpaces (content template) = true
             \/ parseDom (content template) = None
             \/ exists ast, parseDom (content template) = Some ast
                            /\ root_children ast = None))) ->
  vuenifyTransform parseSfc parseDom document overrides = [].
Proof.
  unfold vuenifyTransform. intros [->|(template & -> & H)]; [done|].
  destruct (isEmpty (content template) || isEmpty (trim (content template))) eqn:E;
    [done|].
  destruct H as [H|[->|(ast & -> & ->)]]; [|done|done].
  rewrite (trim_onlySpaces _ H) in E. simpl in E. by rewrite orb_true_r in E.
Qed.

Lemma transform_empty_results_witness :
  vuenifyTransform (fun _ => Some {| content := "  " +:+ str NL; template_loc := locAt 10 "" |})
    nestedDom "<template>  </template>" None = [].
Proof.
  apply transform_empty_results. right. eexists. split; [reflexivity|]. by left.
Defined.

(** ** Every feature off *)

Lemma firstPass_off options prop :
  sortClasses options = false -> removeDuplicates options = false ->
  normalizeDirectives options = false ->
  firstPass options prop = None.
Proof.
  intros Hs Hd Hn. destruct prop as [a|d]; simpl.
  - by rewrite classPass_off.
  - unfold directivePass. by rewrite Hn.
Qed.

Lemma transformed_off options props :
  sortClasses options = false -> removeDuplicates options = false ->
  normalizeDirectives options = false ->
  transformed options props = untouched props.
Proof.
  intros Hs Hd Hn. unfold transformed, untouched. apply imap_ext. intros i p _.
  unfold transformedAt. by rewrite firstPass_off.
Qed.

(** X7. With the five features off, no element gets a replacement and the
    transform returns the empty list for every document. *)
Theorem all_off_no_replacement options :
  sortClasses options = false -> removeDuplicates options = false ->
  normalizeDirectives options = false ->
  orderDirectives options = false -> orderAttributes options = false ->
  (forall element templateOffset,
     buildUnifiedAttributeReplacement element templateOffset options = None)
  /\ (forall templateOffset n, walk templateOffset options n = [])
  /\ (forall parseSfc parseDom document overrides,
        resolveOptions overrides = options ->
        vuenifyTransform parseSfc parseDom document overrides = []).
Proof.
  intros Hs Hd Hn Hod Hoa.
  assert (forall element templateOffset,
            buildUnifiedAttributeReplacement element templateOffset options = None)
    as Hbuild.
  { intros element templateOffset. apply buildUnified_unchanged, passes_unchanged.
    unfold passes. rewrite Hod, Hoa. simpl. by apply transformed_off. }
  assert (forall templateOffset n, walk templateOffset options n = []) as Hwalk.
  { intros templateOffset n.
    induction n as [type loc props children IH] using node_ind.
    cbn [walk]. rewrite Hbuild. destruct (isElementNode _); simpl.
    - destruct children as [cs|]; [|done].
      induction IH as [|c cs Hc _ IHcs]; [done|]. simpl. by rewrite Hc, IHcs.
    - destruct children as [cs|]; [|done].
      induction IH as [|c cs Hc _ IHcs]; [done|]. simpl. by rewrite Hc, IHcs. }
  split; [done|]. split; [done|].
  intros parseSfc parseDom document overrides Hopts. unfold vuenifyTransform.
  rewrite Hopts.
  destruct (parseSfc document) as [template|]; [|done].
  destruct (isEmpty _ || isEmpty _); [done|].
  destruct (parseDom _) as [ast|]; [|done].
  destruct (root_children ast) as [cs|]; [|done].
  induction cs as [|c cs IH]; [done|]. simpl. by rewrite Hwalk, IH.
Qed.

Lemma all_off_no_replacement_witness :
  buildUnifiedAttributeReplacement mixedElement 0 allOff = None
  /\ walk 10 allOff nestedTree = [].
Proof.
  destruct (all_off_no_replacement allOff eq_refl eq_refl eq_refl eq_refl eq_refl)
    as (H1 & H2 & _).
  split; [apply H1|apply H2].
Defined.

Lemma rebuilt_block_keeps_props_witness :
  exists texts,
    "v-if=" +:+ dq "visible" +:+ " :foo class=" +:+ dq "a b" = join " " texts
    /\ texts ≡ₚ [":foo"; "v-if=" +:+ dq "visible"; "class=" +:+ dq "a b"]
    /\ length texts = 3%nat.
Proof.
  exact (rebuilt_block_keeps_props mixedElement 10 allOn
           {| start := 15; end_ := 60;
              value := "v-if=" +:+ dq "visible" +:+ " :foo class=" +:+ dq "a b" |}
           eq_refl).
Defined.

(** ** Applying edits *)

Lemma append_cons c a b : String c a +:+ b = String c (a +:+ b).
Proof. reflexivity. Qed.

Lemma append_empty_r s : s +:+ EmptyString = s.
Proof.
  induction s as [|c s IH]; [done|].
  change (String c (s +:+ EmptyString) = String c s). by rewrite IH.
Qed.

Lemma append_assoc a b c : (a +:+ b) +:+ c = a +:+ b +:+ c.
Proof.
  induction a as [|x a IH]; [done|].
  change (String x ((a +:+ b) +:+ c) = String x (a +:+ b +:+ c)). by rewrite IH.
Qed.

Lemma substring_0_append a b k :
  (k <= String.length a)%nat ->
  String.substring 0 k (a +:+ b) = String.substring 0 k a.
Proof.
  revert k. induction a as [|c a IH]; intros k Hk; simpl in *.
  - assert (k = 0)%nat as -> by lia. by rewrite substring_0_0.
  - destruct k as [|k]; [done|]. rewrite IH; [done|lia].
Qed.

Lemma substring_split p q s :
  (p + q <= String.length s)%nat ->
  String.substring 0 p s +:+ String.substring p q s = String.substring 0 (p + q) s.
Proof.
  revert p q. induction s as [|c s IH]; intros p q H; simpl in H.
  - assert (p = 0 /\ q = 0)%nat as [-> ->] by lia. done.
  - destruct p as [|p]; simpl.
    + destruct q; done.
    + rewrite append_cons. f_equal. apply IH. lia.
Qed.

Lemma slice_split s (p q : Z) :
  0 <= p <= q -> q <= Z.of_nat (String.length s) ->
  slice s 0 p +:+ slice s p q = slice s 0 q.
Proof.
  intros H1 H2. rewrite !slice_inside by lia.
  rewrite !Z.sub_0_r. change (Z.to_nat 0) with 0%nat.
  rewrite substring_split by lia. f_equal. lia.
Qed.

Lemma slice_rest s (p : Z) :
  0 <= p <= Z.of_nat (String.length s) -> slice s 0 p +:+ sliceFrom s p = s.
Proof.
  intros H. unfold sliceFrom. rewrite slice_split by lia.
  rewrite slice_inside by lia. rewrite Z.sub_0_r, Nat2Z.id. apply substring_whole.
Qed.

Lemma slice_append_left a b (k : Z) :
  0 <= k <= Z.of_nat (String.length a) -> slice (a +:+ b) 0 k = slice a 0 k.
Proof.
  intros H. rewrite !slice_inside; try lia.
  - change (Z.to_nat 0) with 0%nat. apply substring_0_append. lia.
  - rewrite length_append. lia.
Qed.

Lemma sliceFrom_append a b : sliceFrom (a +:+ b) (Z.of_nat (String.length a)) = b.
Proof.
  unfold sliceFrom.
  rewrite slice_inside; [|rewrite length_append; lia|rewrite length_append; lia].
  rewrite Nat2Z.id, substring_append_skip.
  replace (Z.to_nat _) with (String.length b) by (rewrite length_append; lia).
  apply substring_whole.
Qed.

Lemma insertBy_last {T} (cmp : T -> T -> Z) x l :
  Forall (fun y => 0 < cmp x y) l -> insertBy cmp x l = (l ++ [x])%list.
Proof.
  induction 1 as [|y r Hy _ IH]; [done|].
  simpl. destruct (Z.leb_spec (cmp x y) 0); [lia|]. by rewrite IH.
Qed.

(** Edits in ascending order are applied from the last to the first. *)
Lemma sortBy_descending edits :
  StronglySorted (fun a b => start a < start b) edits ->
  sortBy (fun a b => start b - start a) edits = reverse edits.
Proof.
  induction 1 as [|x r Hr IH Hall]; [done|].
  simpl. rewrite IH, reverse_cons. apply insertBy_last.
  apply Forall_reverse. eapply Forall_impl; [exact Hall|]. intros y Hy. simpl in Hy. lia.
Qed.

Lemma ascending_starts pos document edits :
  editsWithin pos document edits -> StronglySorted before edits ->
  StronglySorted (fun a b => start a < start b) edits.
Proof.
  intros Hin Hs. induction Hs as [|x r Hr IH Hall]; [constructor|].
  apply Forall_cons in Hin as [Hx Hin]. constructor; [by apply IH|].
  eapply Forall_impl; [exact Hall|]. intros y Hy. unfold before in Hy. lia.
Qed.

Lemma apply_reverse document edits (pos : Z) :
  0 <= pos <= Z.of_nat (String.length document) ->
  editsWithin pos document edits -> StronglySorted before edits ->
  foldl applyOne document (reverse edits) = slice document 0 pos +:+ stitch pos document edits.
Proof.
  revert pos. induction edits as [|x r IH]; intros pos Hpos Hin Hs.
  - simpl. by rewrite slice_rest.
  - apply Forall_cons in Hin as [(Hx1 & Hx2 & Hx3) Hin].
    apply StronglySorted_inv in Hs as [Hs Hall].
    rewrite reverse_cons, foldl_app. simpl.
    rewrite (IH (end_ x)); [|lia| |done].
    + unfold applyOne.
      assert (Z.of_nat (String.length (slice document 0 (end_ x))) = end_ x) as Hlen
        by (rewrite length_slice; lia).
      rewrite slice_append_left by lia.
      pose proof (sliceFrom_append (slice document 0 (end_ x))
                    (stitch (end_ x) document r)) as Hrest.
      rewrite Hlen in Hrest. rewrite Hrest.
      rewrite (slice_inside (slice document 0 (end_ x))) by lia.
      rewrite (slice_inside document 0 (end_ x)) by lia.
      rewrite substring_prefix by lia.
      rewrite <- (slice_inside document 0 (start x)) by lia.
      rewrite <- (slice_split document pos (start x)) by lia.
      by rewrite append_assoc.
    + apply Forall_forall. intros y Hy.
      rewrite Forall_forall in Hin. rewrite Forall_forall in Hall.
      destruct (Hin y Hy) as (? & ? & ?). pose proof (Hall y Hy) as Hb.
      unfold before in Hb. lia.
Qed.

Lemma apply_ascending document edits :
  editsWithin 0 document edits -> StronglySorted before edits ->
  applyEdits document edits = stitch 0 document edits.
Proof.
  intros Hin Hs. unfold applyEdits.
  rewrite sortBy_descending by by eapply ascending_starts.
  rewrite (apply_reverse document edits 0); [|lia|done|done].
  rewrite slice_inside by lia. by rewrite substring_0_0.
Qed.

Lemma equal_starts_equal edits x y :
  StronglySorted (fun a b => start a < start b) edits ->
  x ∈ edits -> y ∈ edits -> start x = start y -> x = y.
Proof.
  induction 1 as [|z r Hr IH Hall]; intros Hx Hy Heq; [by apply elem_of_nil in Hx|].
  rewrite Forall_forall in Hall.
  apply elem_of_cons in Hx as [->|Hx]; apply elem_of_cons in Hy as [->|Hy]; try done.
  - specialize (Hall y Hy). simpl in Hall. lia.
  - specialize (Hall x Hx). simpl in Hall. lia.
  - by apply IH.
Qed.

Lemma apply_permuted document edits edits' :
  editsWithin 0 document edits -> StronglySorted before edits ->
  edits' ≡ₚ edits ->
  applyEdits document edits' = applyEdits document edits.
Proof.
  intros Hin Hs Hperm. unfold applyEdits. f_equal.
  pose proof (ascending_starts _ _ _ Hin Hs) as Hasc.
  apply (StronglySorted_unique_strong (fun a b => start b - start a <= 0)).
  - intros x1 x2 Hx1 Hx2 H12 H21.
    apply (equal_starts_equal edits); try done; try lia.
    + rewrite <- Hperm. rewrite <- (sortBy_perm (fun a b => start b - start a) edits'). done.
    + rewrite <- (sortBy_perm (fun a b => start b - start a) edits). done.
  - apply sortBy_sorted; intros; lia.
  - apply sortBy_sorted; intros; lia.
  - by rewrite !sortBy_perm.
Qed.

Lemma nestedEdits_within : editsWithin 0 nestedDocument nestedEdits.
Proof. repeat constructor; by vm_compute. Qed.

Lemma nestedEdits_sorted : StronglySorted before nestedEdits.
Proof. repeat constructor; by vm_compute. Qed.

(** X8. Edits that are not empty, lie in the document and do not overlap,
    handed over in any order: the result is the document with each span
    replaced by the new text and every other part kept. *)
Theorem applyEdits_stitch document edits edits' :
  editsWithin 0 document edits -> StronglySorted before edits ->
  edits' ≡ₚ edits ->
  applyEdits document edits' = stitch 0 document edits.
Proof.
  intros Hin Hs Hperm. rewrite (apply_permuted document edits edits') by done.
  by apply apply_ascending.
Qed.

Lemma applyEdits_stitch_witness :
  applyEdits nestedDocument (reverse nestedEdits)
  = "<template><div class=" +:+ dq "c d" +:+ "><span class=" +:+ dq "a b"
    +:+ "></span></div></template>".
Proof.
  exact (applyEdits_stitch nestedDocument nestedEdits (reverse nestedEdits)
           nestedEdits_within nestedEdits_sorted (Permutation_swap _ _ [])).
Defined.

(** ** The transform followed by the edits *)

Lemma transform_sorted parseSfc parseDom document overrides :
  (forall text ast, parseDom text = Some ast -> WellFormedRoot ast) ->
  spansInDocument parseSfc parseDom document ->
  StronglySorted before (vuenifyTransform parseSfc parseDom document overrides)
  /\ editsWithin 0 document (vuenifyTransform parseSfc parseDom document overrides).
Proof.
  intros Hparser Hspans. unfold vuenifyTransform.
  destruct (parseSfc document) as [template|] eqn:Hsfc; [|by split; constructor].
  destruct (isEmpty (content template) || isEmpty (trim (content template)));
    [by split; constructor|].
  destruct (parseDom (content template)) as [ast|] eqn:Hast; [|by split; constructor].
  destruct (root_children ast) as [cs|] eqn:Hcs; [|by split; constructor].
  destruct (Hparser _ _ Hast cs Hcs) as [Hwfs Hsorted].
  specialize (Hspans template ast cs Hsfc Hast Hcs). simpl in Hspans.
  match goal with |- context [flat_map (walk ?off ?opts) cs] =>
    assert (Forall (fun c =>
              Forall (within (off + start_offset (node_loc c))
                             (off + end_offset (node_loc c))) (walk off opts c)
              /\ StronglySorted before (walk off opts c)) cs) as Hkids;
    [apply Forall_forall; intros c Hc; apply walk_within;
     rewrite Forall_forall in Hwfs; by apply Hwfs|];
    destruct (walk_forest off opts cs Hkids Hsorted) as [Hf1 Hf2]
  end.
  split; [done|].
  eapply Forall_impl; [exact Hf2|]. intros r (c & Hc & Hw).
  rewrite Forall_forall in Hspans. destruct (Hspans c Hc) as [H1 H2].
  unfold within in Hw. lia.
Qed.

(** X9. For parsers with well-formed spans that lie inside the document, the
    edits of the transform can be applied in any order, and the result is
    the document with each attribute block replaced and every other part
    kept. *)
Theorem transform_then_apply parseSfc parseDom document overrides edits :
  (forall text ast, parseDom text = Some ast -> WellFormedRoot ast) ->
  spansInDocument parseSfc parseDom document ->
  edits ≡ₚ vuenifyTransform parseSfc parseDom document overrides ->
  applyEdits document edits
  = stitch 0 document (vuenifyTransform parseSfc parseDom document overrides).
Proof.
  intros Hparser Hspans Hperm.
  destruct (transform_sorted _ _ _ overrides Hparser Hspans) as [Hs Hin].
  rewrite (apply_permuted document _ edits Hin Hs Hperm).
  by apply apply_ascending.
Qed.

Lemma nested_spans : spansInDocument nestedSfc nestedDom nestedDocument.
Proof.
  intros template ast cs [= <-] [= <-] [= <-]. repeat constructor; by vm_compute.
Qed.

Lemma transform_then_apply_witness :
  applyEdits nestedDocument (reverse (vuenifyTransform nestedSfc nestedDom nestedDocument None))
  = "<template><div class=" +:+ dq "c d" +:+ "><span class=" +:+ dq "a b"
    +:+ "></span></div></template>".
Proof.
  exact (transform_then_apply nestedSfc nestedDom nestedDocument None
           (reverse (vuenifyTransform nestedSfc nestedDom nestedDocument None))
           nested_wellformed nested_spans (Permutation_swap _ _ [])).
Defined.

(** ** The tokens of a class value *)

Lemma append_nil_l a : EmptyString +:+ a = a.
Proof. reflexivity. Qed.

Lemma hasSpace_append a b : hasSpace (a +:+ b) = hasSpace a || hasSpace b.
Proof.
  induction a as [|c a IH]; [done|].
  rewrite append_cons. simpl. by rewrite IH, orb_assoc.
Qed.

Lemma split_spaceFree cur inGap s :
  hasSpace cur = false ->
  Forall (fun t => hasSpace t = false) (splitSpacesFrom cur inGap s).
Proof.
  revert cur inGap. induction s as [|c s IH]; intros cur inGap Hcur; simpl.
  - by repeat constructor.
  - destruct (isSpace c) eqn:Hc.
    + destruct inGap; [by apply IH|]. constructor; [done|by apply IH].
    + apply IH. rewrite hasSpace_append, Hcur. simpl. by rewrite Hc.
Qed.

Lemma classes_tokens rawValue : Forall (fun t => isToken t = true) (classes rawValue).
Proof.
  unfold classes, splitSpaces. apply Forall_forall. intros t Ht.
  apply list_elem_of_In, filter_In in Ht as [Hin Htruthy].
  pose proof (split_spaceFree EmptyString false rawValue eq_refl) as Hall.
  rewrite Forall_forall in Hall. apply list_elem_of_In in Hin.
  unfold isToken. by rewrite Htruthy, (Hall t Hin).
Qed.

Lemma concat_cons x l : String.concat EmptyString (x :: l) = x +:+ String.concat EmptyString l.
Proof. destruct l; simpl; [by rewrite append_empty_r|done]. Qed.

Lemma concat_truthy l :
  String.concat EmptyString (List.filter truthy l) = String.concat EmptyString l.
Proof.
  induction l as [|x l IH]; [done|].
  cbn [List.filter]. destruct (truthy x) eqn:E.
  - rewrite !concat_cons. by rewrite IH.
  - rewrite concat_cons. destruct x; [|done]. exact IH.
Qed.

Lemma split_concat cur inGap s :
  (inGap = true -> cur = EmptyString) ->
  String.concat EmptyString (splitSpacesFrom cur inGap s) = cur +:+ removeSpaces s.
Proof.
  revert cur inGap. induction s as [|c s IH]; intros cur inGap Hinv; simpl.
  - by rewrite append_empty_r.
  - destruct (isSpace c).
    + destruct inGap.
      * rewrite (Hinv eq_refl). by apply IH.
      * rewrite concat_cons. by rewrite IH.
    + rewrite IH by done. by rewrite append_assoc.
Qed.

(** X10. Every token of a class value is not empty and holds no white space,
    and the tokens put end to end are the value without its white
    space. *)
Theorem classes_are_tokens rawValue :
  Forall (fun t => isToken t = true) (classes rawValue)
  /\ join EmptyString (classes rawValue) = removeSpaces rawValue.
Proof.
  split; [apply classes_tokens|].
  unfold join, classes, splitSpaces. rewrite concat_truthy.
  by rewrite split_concat.
Qed.

(** ** Splitting a rebuilt value *)

Lemma split_token cur inGap t s :
  hasSpace t = false -> t <> EmptyString ->
  splitSpacesFrom cur inGap (t +:+ s) = splitSpacesFrom (cur +:+ t) false s.
Proof.
  revert cur inGap. induction t as [|c t IH]; intros cur inGap Hsp Hne; [done|].
  simpl in Hsp. apply orb_false_iff in Hsp as [Hc Ht].
  rewrite append_cons. simpl. rewrite Hc.
  destruct t as [|d t'].
  - done.
  - rewrite IH by done. by rewrite append_assoc.
Qed.

Lemma split_gap cur inGap w s :
  onlySpaces w = true -> w <> EmptyString -> (inGap = true -> cur = EmptyString) ->
  List.filter truthy (splitSpacesFrom cur inGap (w +:+ s))
  = ((if truthy cur then [cur] else []) ++ List.filter truthy (splitSpacesFrom EmptyString true s))%list.
Proof.
  revert cur inGap. induction w as [|c w IH]; intros cur inGap Hw Hne Hinv; [done|].
  simpl in Hw. apply andb_true_iff in Hw as [Hc Hw].
  rewrite append_cons. simpl. rewrite Hc.
  assert (List.filter truthy (splitSpacesFrom EmptyString true (w +:+ s))
          = List.filter truthy (splitSpacesFrom EmptyString true s)) as Hrest.
  { destruct w as [|d w']; [done|]. by rewrite IH. }
  destruct inGap.
  - rewrite (Hinv eq_refl). simpl. exact Hrest.
  - cbn [List.filter]. destruct (truthy cur); simpl; by rewrite Hrest.
Qed.

Lemma split_glue_rest w t rest :
  onlySpaces w = true -> w <> EmptyString ->
  isToken t = true -> Forall (fun c => isToken c = true) rest ->
  List.filter truthy
    (splitSpacesFrom t false (String.concat EmptyString (map (fun c => w +:+ c) rest)))
  = t :: rest.
Proof.
  intros Hw Hne. revert t. induction rest as [|t2 rest IH]; intros t Ht Hrest.
  - simpl. unfold isToken in Ht. apply andb_true_iff in Ht as [Ht _]. by rewrite Ht.
  - apply Forall_cons in Hrest as [Ht2 Hrest].
    cbn [map]. rewrite concat_cons, append_assoc.
    rewrite split_gap by done.
    pose proof Ht as Ht'. unfold isToken in Ht'. apply andb_true_iff in Ht' as [-> _].
    simpl. f_equal.
    pose proof Ht2 as Ht2'. unfold isToken in Ht2'.
    apply andb_true_iff in Ht2' as [Htr Hsp]. apply negb_true_iff in Hsp.
    rewrite split_token; [|done|by destruct t2].
    rewrite append_nil_l. by apply IH.
Qed.

Lemma split_glue w tokens :
  onlySpaces w = true -> w <> EmptyString ->
  Forall (fun c => isToken c = true) tokens ->
  classes (glue w tokens) = tokens.
Proof.
  intros Hw Hne Htok. destruct tokens as [|t rest]; [done|].
  apply Forall_cons in Htok as [Ht Hrest].
  unfold classes, splitSpaces, glue, join.
  pose proof Ht as Ht'. unfold isToken in Ht'.
  apply andb_true_iff in Ht' as [Htr Hsp]. apply negb_true_iff in Hsp.
  rewrite split_token; [|done|by destruct t].
  rewrite append_nil_l. by apply split_glue_rest.
Qed.

Lemma join_glue tokens : join " " tokens = glue " " tokens.
Proof.
  unfold join, glue. induction tokens as [|t rest IH]; [done|].
  destruct rest as [|t2 rest']; [simpl; by rewrite append_empty_r|].
  change (String.concat " " (t :: t2 :: rest'))
    with (t +:+ " " +:+ String.concat " " (t2 :: rest')).
  rewrite IH. cbn [map]. by rewrite concat_cons, append_assoc.
Qed.

Lemma takeSpaces_onlySpaces s : onlySpaces (takeSpaces s) = true.
Proof.
  induction s as [|c s IH]; [done|]. simpl.
  destruct (isSpace c) eqn:Hc; [|done]. simpl. by rewrite Hc.
Qed.

Lemma matchNewlineIndent_onlySpaces s indent :
  matchNewlineIndent s = Some indent -> onlySpaces indent = true.
Proof.
  induction s as [|c s IH]; [done|]. simpl.
  destruct (Ascii.eqb c NL && startsWithSpace s); [|exact IH].
  intros [= <-]. apply takeSpaces_onlySpaces.
Qed.

Lemma rebuiltValue_glue options originalSource tokens :
  tokens <> [] ->
  exists w, onlySpaces w = true /\ w <> EmptyString
            /\ rebuiltValue options originalSource tokens = glue w tokens.
Proof.
  intros Hne. unfold rebuiltValue.
  destruct (isPreserve (classLayout options) && includes (str NL) originalSource).
  - exists (str NL +:+ default "  " (matchNewlineIndent originalSource)).
    split; [|split; [done|]].
    + change (onlySpaces (default "  " (matchNewlineIndent originalSource)) = true).
      destruct (matchNewlineIndent originalSource) eqn:E; [|done].
      by eapply matchNewlineIndent_onlySpaces.
    + destruct tokens as [|t rest]; [done|]. reflexivity.
  - exists " ". split; [done|]. split; [done|]. apply join_glue.
Qed.

(** X11. The value that is rebuilt from a list of tokens, in either layout,
    splits into these tokens again. *)
Theorem rebuilt_value_round_trip options originalSource tokens :
  tokens <> [] ->
  Forall (fun c => isToken c = true) tokens ->
  classes (rebuiltValue options originalSource tokens) = tokens.
Proof.
  intros Hne Htok.
  destruct (rebuiltValue_glue options originalSource tokens Hne) as (w & Hw & Hw' & ->).
  by apply split_glue.
Qed.

Lemma rebuilt_value_round_trip_witness :
  classes (rebuiltValue preserving ("class=" +:+ dq ("b" +:+ str NL +:+ "   a")) ["a"; "b"])
  = ["a"; "b"].
Proof.
  apply rebuilt_value_round_trip; [done|]. repeat constructor.
Defined.

(** ** Deduplicated and sorted tokens *)

Lemma existsb_eqb_elem (x : string) (l : list string) :
  existsb (String.eqb x) l = true <-> x ∈ l.
Proof.
  rewrite existsb_exists. split.
  - intros (y & Hy & Heq). apply String.eqb_eq in Heq as ->. by apply list_elem_of_In.
  - intros H. exists x. split; [by apply list_elem_of_In|apply String.eqb_refl].
Qed.

Lemma setAdd_elem seen x y : y ∈ setAdd seen x <-> y ∈ seen \/ y = x.
Proof.
  unfold setAdd. destruct (existsb (String.eqb x) seen) eqn:E.
  - apply existsb_eqb_elem in E. split; [by left|]. by intros [H | ->].
  - rewrite elem_of_app, list_elem_of_singleton. done.
Qed.

Lemma setAdd_NoDup seen x : NoDup seen -> NoDup (setAdd seen x).
Proof.
  intros H. unfold setAdd. destruct (existsb (String.eqb x) seen) eqn:E; [done|].
  apply NoDup_app. split; [done|]. split; [|apply NoDup_singleton].
  intros y Hy Hx. apply list_elem_of_singleton in Hx as ->.
  apply existsb_eqb_elem in Hy. congruence.
Qed.

Lemma uniq_from_elem seen l y : y ∈ foldl setAdd seen l <-> y ∈ seen \/ y ∈ l.
Proof.
  revert seen. induction l as [|x l IH]; intros seen; simpl.
  - rewrite elem_of_nil. tauto.
  - rewrite IH, setAdd_elem, elem_of_cons. tauto.
Qed.

Lemma uniq_from_NoDup seen l : NoDup seen -> NoDup (foldl setAdd seen l).
Proof.
  revert seen. induction l as [|x l IH]; intros seen H; [done|].
  simpl. by apply IH, setAdd_NoDup.
Qed.

Lemma uniq_from_id seen l : NoDup (seen ++ l) -> foldl setAdd seen l = (seen ++ l)%list.
Proof.
  revert seen. induction l as [|x l IH]; intros seen H; simpl.
  - by rewrite app_nil_r.
  - assert (existsb (String.eqb x) seen = false) as Hx.
    { apply not_true_iff_false. rewrite existsb_eqb_elem. intros Hin.
      apply NoDup_app in H as (_ & H & _). apply (H x Hin). constructor. }
    unfold setAdd at 2. rewrite Hx. rewrite IH; rewrite <- app_assoc; done.
Qed.

Lemma uniq_elem l y : y ∈ uniq l <-> y ∈ l.
Proof. unfold uniq. rewrite uniq_from_elem, elem_of_nil. tauto. Qed.

Lemma uniq_NoDup l : NoDup (uniq l).
Proof. apply uniq_from_NoDup. constructor. Qed.

Lemma uniq_id l : NoDup l -> uniq l = l.
Proof. intros H. by apply (uniq_from_id [] l). Qed.

Lemma sortBy_ascii_sorted l :
  StronglySorted (fun a b => asciiCompare a b <= 0) (sortBy asciiCompare l).
Proof. apply sortBy_sorted; [apply asciiCompare_total|apply asciiCompare_le_trans]. Qed.

Lemma processed_elem options rawValue t :
  t ∈ processed options rawValue <-> t ∈ classes rawValue.
Proof.
  unfold processed.
  destruct (removeDuplicates options), (sortClasses options);
    rewrite ?sortBy_perm, ?uniq_elem; done.
Qed.

Lemma processed_isToken options rawValue :
  Forall (fun t => isToken t = true) (processed options rawValue).
Proof.
  apply Forall_forall. intros t Ht. apply processed_elem in Ht.
  pose proof (classes_tokens rawValue) as Hall. rewrite Forall_forall in Hall. by apply Hall.
Qed.

Lemma processed_NoDup options rawValue :
  removeDuplicates options = true -> NoDup (processed options rawValue).
Proof.
  intros Hd. unfold processed. rewrite Hd.
  destruct (sortClasses options); rewrite ?sortBy_perm; apply uniq_NoDup.
Qed.

Lemma processed_sorted options rawValue :
  sortClasses options = true ->
  StronglySorted (fun a b => asciiCompare a b <= 0) (processed options rawValue).
Proof. intros Hs. unfold processed. rewrite Hs. apply sortBy_ascii_sorted. Qed.


Lemma processed_rebuilt options originalSource rawValue :
  processed options rawValue <> [] ->
  processed options (rebuiltValue options originalSource (processed options rawValue))
  = processed options rawValue.
Proof.
  intros Hne.
  pose proof (processed_isToken options rawValue) as Htok.
  pose proof (processed_sorted options rawValue) as Hsorted.
  pose proof (processed_NoDup options rawValue) as Hnodup.
  set (tokens := processed options rawValue) in *.
  destruct (rebuiltValue_glue options originalSource tokens Hne) as (w & Hw & Hw' & ->).
  unfold processed at 1. rewrite split_glue by done.
  destruct (removeDuplicates options), (sortClasses options).
  - rewrite uniq_id by by apply Hnodup. by apply sortBy_sorted_id, Hsorted.
  - by apply uniq_id, Hnodup.
  - by apply sortBy_sorted_id, Hsorted.
  - done.
Qed.

(** X13. For a value with at least one class token, processing the
    rebuilt value again gives the processed tokens again: the class pass
    has nothing left to do on its own result. *)
Theorem processing_settles options originalSource rawValue :
  processed options rawValue <> [] ->
  processed options (rebuiltValue options originalSource (processed options rawValue))
  = processed options rawValue.
Proof. apply processed_rebuilt. Qed.

Lemma processing_settles_witness :
  processed allOn (rebuiltValue allOn ("class=" +:+ dq "b a b") (processed allOn "b a b"))
  = ["a"; "b"].
Proof. exact (processing_settles allOn ("class=" +:+ dq "b a b") "b a b" ltac:(discriminate)). Defined.

(** ** Directives that are left alone, and the shape of the rebuilt ones *)

(** X16. A directive with another name than [bind], [on] and [slot], without an
    argument or without source text is never rewritten, whatever the style
    and the same-name mode. *)
Theorem directive_passthrough prop templateOffset style mode :
  isSupported (dir_name prop) = false \/ argSource prop = EmptyString
  \/ source (dir_loc prop) = EmptyString ->
  getDirectiveTransform prop templateOffset style mode = None
  /\ forall options, directivePass options prop = None.
Proof.
  intros H.
  assert (forall off st md, getDirectiveTransform prop off st md = None) as Hnone.
  { intros off st md. unfold getDirectiveTransform.
    destruct (isEmpty (source (dir_loc prop))) eqn:Hempty; [done|].
    assert (newDirective prop st md = source (dir_loc prop)) as ->;
      [|by rewrite String.eqb_refl].
    unfold newDirective, buildDirective. destruct H as [H|[H|H]].
    - unfold isSupported in H. by rewrite H.
    - rewrite H. simpl. rewrite !andb_false_r. by destruct (_ || _), st.
    - rewrite H in Hempty. done. }
  split; [apply Hnone|].
  intros options. unfold directivePass. rewrite Hnone. by destruct (normalizeDirectives options).
Qed.

Lemma directive_passthrough_witness :
  getDirectiveTransform modelDirective 10 long addValue = None.
Proof. apply directive_passthrough. by left. Defined.

Lemma modifierStr_dots l :
  match l with [] => EmptyString | _ => "." +:+ join "." l end
  = String.concat EmptyString (map (fun m => "." +:+ m) l).
Proof.
  destruct l as [|m l]; [done|]. unfold join. revert m.
  induction l as [|m2 l IH]; intros m.
  - reflexivity.
  - change (map (fun m => "." +:+ m) (m :: m2 :: l))
      with (("." +:+ m) :: map (fun m => "." +:+ m) (m2 :: l)).
    rewrite concat_cons. rewrite <- IH.
    change (String.concat "." (m :: m2 :: l)) with (m +:+ "." +:+ String.concat "." (m2 :: l)).
    by rewrite !append_assoc.
Qed.

Lemma newDirective_supported prop style mode :
  isSupported (dir_name prop) = true -> argSource prop <> EmptyString ->
  newDirective prop style mode
  = (match style with short => shortPrefix (dir_name prop)
                    | long => longPrefix (dir_name prop) end)
    +:+ argSource prop +:+ modifierStr prop +:+ valuePart prop mode.
Proof.
  intros Hsup Harg. apply truthy_nonempty in Harg.
  unfold newDirective, buildDirective, shortPrefix, longPrefix. unfold isSupported in Hsup.
  rewrite Hsup, Harg. simpl.
  destruct (String.eqb_spec (dir_name prop) "bind") as [->|]; [by destruct style|].
  destruct (String.eqb_spec (dir_name prop) "on") as [->|]; [by destruct style|].
  simpl in Hsup. apply String.eqb_eq in Hsup as Hslot. rewrite Hslot. by destruct style.
Qed.

(** X17. A supported directive with an argument is rebuilt as its prefix, the
    argument, every modifier that is not empty behind a dot, in order, and
    the value part; the two styles differ in the prefix alone, and for
    [on] and [slot] the value part is the original one in every mode. *)
Theorem directive_shape prop mode :
  isSupported (dir_name prop) = true -> argSource prop <> EmptyString ->
  let rest := argSource prop +:+ modifierStr prop +:+ valuePart prop mode in
  newDirective prop short mode = shortPrefix (dir_name prop) +:+ rest
  /\ newDirective prop long mode = longPrefix (dir_name prop) +:+ rest
  /\ modifierStr prop
     = String.concat EmptyString
         (map (fun m => "." +:+ m) (List.filter truthy (dir_modifiers prop)))
  /\ (dir_name prop <> "bind" -> valuePart prop mode = originalValuePart prop).
Proof.
  intros Hsup Harg rest. split; [|split; [|split]].
  - by apply (newDirective_supported prop short).
  - by apply (newDirective_supported prop long).
  - unfold modifierStr. apply modifierStr_dots.
  - intros Hne. apply valuePart_elsewhere. by left.
Qed.

Lemma directive_shape_witness :
  newDirective clickDirective short removeValue = "@click.stop.prevent=" +:+ dq "go"
  /\ newDirective clickDirective long removeValue = "v-on:click.stop.prevent=" +:+ dq "go".
Proof.
  destruct (directive_shape clickDirective removeValue eq_refl ltac:(discriminate))
    as (H1 & H2 & _).
  split; [exact H1|exact H2].
Defined.

(** ** Ranks *)

Lemma weightMap_from_last (l1 l2 : list string) (k : nat) (m : gmap string Z) name :
  name ∉ l2 ->
  (foldl (fun m (entry : Z * string) => <[entry.2 := entry.1]> m) m
     (imap (fun index name => (Z.of_nat (k + index), name)) (l1 ++ name :: l2)%list)
   !! name) = Some (Z.of_nat (k + length l1)).
Proof.
  intros Hlast. revert k m. induction l1 as [|x l1 IH]; intros k m; simpl.
  - rewrite (imap_ext _ (fun index name => (Z.of_nat (S k + index), name)));
      [|intros j y _; simpl; do 2 f_equal; lia].
    rewrite weightMap_from_absent by done. by rewrite lookup_insert_eq.
  - rewrite (imap_ext _ (fun index name => (Z.of_nat (S k + index), name)));
      [|intros j y _; simpl; do 2 f_equal; lia].
    rewrite IH. do 2 f_equal. lia.
Qed.

Lemma weight_last_position (priority : list string) (name : string) (i : nat) :
  priority !! i = Some name -> name ∉ drop (S i) priority ->
  weight (weightMap priority) name = Z.of_nat i.
Proof.
  intros Hi Hlast. unfold weight, weightMap.
  rewrite <- (take_drop_middle priority i name Hi) at 1.
  rewrite (imap_ext _ (fun index name => (Z.of_nat (0 + index), name))) by done.
  rewrite weightMap_from_last by done. simpl.
  apply lookup_lt_Some in Hi. rewrite length_take. f_equal. lia.
Qed.

(** X20. The rank of a name of the priority list is its last position in the
    list, and a name outside the list has the rank 1000. *)
Theorem rank_is_last_position (priority : list string) (name : string) :
  (forall i : nat, priority !! i = Some name -> name ∉ drop (S i) priority ->
     weight (weightMap priority) name = Z.of_nat i)
  /\ (name ∉ priority -> weight (weightMap priority) name = 1000).
Proof. split; [apply weight_last_position|apply weight_unknown]. Qed.

(** X21. A directive whose name comes earlier in the priority list (last
    positions compared) is placed before a directive whose name comes
    later, whatever the length of the list. *)
Theorem priority_order (priority : list string) (l : list Slot)
    (ia ib i j : nat) (a b : Slot) :
  priority !! ia = Some (propName (node a)) ->
  propName (node a) ∉ drop (S ia) priority ->
  priority !! ib = Some (propName (node b)) ->
  propName (node b) ∉ drop (S ib) priority ->
  (ia < ib)%nat ->
  orderDirectivesPass priority l !! i = Some a ->
  orderDirectivesPass priority l !! j = Some b ->
  isDirectiveNode (node a) = true -> isDirectiveNode (node b) = true ->
  (i < j)%nat.
Proof.
  intros Ha Ha' Hb Hb' Hlt Hi Hj Da Db.
  pose proof (weight_last_position priority _ ia Ha Ha') as Wa.
  pose proof (weight_last_position priority _ ib Hb Hb') as Wb.
  destruct (Nat.lt_trichotomy i j) as [Hij|[->|Hij]]; [done| |].
  - rewrite Hi in Hj. injection Hj as ->. lia.
  - pose proof (sorted_filter_lookup _ (fun s => isDirectiveNode (node s)) _ _ _ _ _
                  (orderDirectives_sorted priority l) Hj Hi Hij Db Da) as Hba.
    apply compareDirectives_le in Hba. lia.
Qed.


Lemma priority_order_witness :
  orderDirectivesPass (directiveOrder defaultOptions) mixedSlots !! 0%nat = Some mixedIf
  /\ orderDirectivesPass (directiveOrder defaultOptions) mixedSlots !! 1%nat = Some mixedBind
  /\ (0 < 1)%nat.
Proof.
  split; [reflexivity|]. split; [reflexivity|].
  apply (priority_order (directiveOrder defaultOptions) mixedSlots 0 6 0 1 mixedIf mixedBind);
    try reflexivity; try lia.
  - intros H. repeat (apply elem_of_cons in H as [H|H]; [discriminate|]).
    by apply elem_of_nil in H.
  - intros H. by apply elem_of_nil in H.
Defined.

(** ** The comparison of names *)

(** X23. [asciiCompare] is a three-way comparison of a total order: it returns
    -1, 0 or 1, 0 exactly on equal strings, the opposite when its arguments
    are swapped, and it is transitive. *)
Theorem asciiCompare_order (a b c : string) :
  (asciiCompare a b = -1 \/ asciiCompare a b = 0 \/ asciiCompare a b = 1)
  /\ (asciiCompare a b = 0 <-> a = b)
  /\ asciiCompare b a = - asciiCompare a b
  /\ (asciiCompare a b <= 0 -> asciiCompare b c <= 0 -> asciiCompare a c <= 0).
Proof.
  split; [|split; [apply asciiCompare_eq|split; [|apply asciiCompare_le_trans]]].
  - unfold asciiCompare. destruct (String.eqb a b), (String.ltb a b); tauto.
  - assert (forall x y, asciiCompare x y = -1 \/ asciiCompare x y = 0 \/ asciiCompare x y = 1)
      as Hrange.
    { intros x y. unfold asciiCompare. destruct (String.eqb x y), (String.ltb x y); tauto. }
    pose proof (asciiCompare_gt a b) as H1. pose proof (asciiCompare_lt b a) as H2.
    pose proof (asciiCompare_gt b a) as H3. pose proof (asciiCompare_lt a b) as H4.
    pose proof (asciiCompare_eq a b) as H5. pose proof (asciiCompare_eq b a) as H6.
    destruct (Hrange a b) as [E|[E|E]], (Hrange b a) as [E'|[E'|E']];
      rewrite E, E' in *; try done.
    + assert (String.compare a b = Lt) as X by (apply H4; lia).
      assert (0 < -1); [|lia]. apply H3. done.
    + assert (a = b) by (symmetry; by apply H6). assert (-1 = 0); [|lia]. by apply H5.
    + assert (a = b) by by apply H5. assert (-1 = 0); [|lia]. by apply H6.
    + assert (a = b) by by apply H5. assert (1 = 0); [|lia]. by apply H6.
    + assert (a = b) by (symmetry; by apply H6). assert (1 = 0); [|lia]. by apply H5.
    + assert (String.compare b a = Lt) as X by (apply H1; lia).
      assert (1 < 0); [|lia]. apply H2. done.
Qed.

(** ** Looking for a code unit *)

Lemma index_char_cons c d r :
  String.index 0 (str c) (String d r)
  = if Ascii.eqb c d then Some 0%nat
    else match String.index 0 (str c) r with Some n => Some (S n) | None => None end.
Proof.
  unfold str. simpl. destruct (ascii_dec c d) as [->|Hne].
  - rewrite Ascii.eqb_refl. by destruct r.
  - apply Ascii.eqb_neq in Hne. by rewrite Hne.
Qed.

Lemma includes_cons c d r :
  includes (str c) (String d r) = Ascii.eqb c d || includes (str c) r.
Proof.
  unfold includes. rewrite index_char_cons.
  destruct (Ascii.eqb c d); [done|]. by destruct (String.index 0 (str c) r).
Qed.

Lemma includes_empty c : includes (str c) EmptyString = false.
Proof. done. Qed.

Lemma includes_trimStart c s :
  includes (str c) (trimStart s) = true -> includes (str c) s = true.
Proof.
  induction s as [|d s IH]; [done|]. simpl. destruct (isSpace d); [|done].
  intros H. rewrite includes_cons, (IH H). apply orb_true_r.
Qed.

Lemma includes_afterEquals c s :
  includes (str c) (afterEquals s) = true -> includes (str c) s = true.
Proof.
  induction s as [|d s IH]; [done|]. simpl. rewrite includes_cons.
  destruct (Ascii.eqb d "="); intros H; [by rewrite H, orb_true_r|].
  by rewrite (IH H), orb_true_r.
Qed.

Lemma enclosingQuote_inv attributeText q :
  enclosingQuote attributeText = Some q ->
  (q = DQ \/ q = SQ) /\ includes (str q) attributeText = true.
Proof.
  unfold enclosingQuote.
  destruct (trimStart (afterEquals attributeText)) as [|c rest] eqn:E; [done|].
  destruct (Ascii.eqb c DQ || Ascii.eqb c SQ) eqn:Hq; [|done].
  intros [= <-]. split.
  - apply orb_true_iff in Hq as [H|H]; apply Ascii.eqb_eq in H; tauto.
  - apply includes_afterEquals, includes_trimStart. rewrite E, includes_cons.
    by rewrite Ascii.eqb_refl.
Qed.

(** X15. The rebuilt class attribute has the quote that encloses the value in
    the original text, except for a value between double quotes in a text
    that holds an apostrophe. *)
Theorem quote_kept_unless_apostrophe attributeText q :
  enclosingQuote attributeText = Some q ->
  (quote attributeText = str q
   <-> ~ (q = DQ /\ includes (str SQ) attributeText = true)).
Proof.
  intros H. destruct (enclosingQuote_inv _ _ H) as [[->| ->] Hin]; unfold quote.
  - destruct (includes (str SQ) attributeText) eqn:E.
    + split; [discriminate|]. intros Hno. exfalso. by apply Hno.
    + split; [|done]. intros _ [_ ?]. discriminate.
  - rewrite Hin. split; [|done]. intros _ [? _]. discriminate.
Qed.

Lemma quote_kept_unless_apostrophe_witness :
  quote ("class=" +:+ dq "b a") = str DQ.
Proof.
  apply (quote_kept_unless_apostrophe ("class=" +:+ dq "b a") DQ eq_refl).
  intros [_ ?]. done.
Defined.

(** ** A rewritten directive read again *)

Lemma index_char_append c h rest :
  includes (str c) h = false ->
  String.index 0 (str c) (h +:+ String c rest) = Some (String.length h).
Proof.
  induction h as [|d h IH]; intros H.
  - rewrite append_nil_l, index_char_cons. by rewrite Ascii.eqb_refl.
  - rewrite includes_cons in H. apply orb_false_iff in H as [Hd Hh].
    rewrite append_cons, index_char_cons, Hd, (IH Hh). done.
Qed.

Lemma index_char_split c s n :
  String.index 0 (str c) s = Some n ->
  exists h rest, s = h +:+ String c rest /\ String.length h = n.
Proof.
  revert n. induction s as [|d s IH]; intros n H; [done|].
  rewrite index_char_cons in H. destruct (Ascii.eqb c d) eqn:E.
  - apply Ascii.eqb_eq in E as ->. injection H as <-. by exists EmptyString, s.
  - destruct (String.index 0 (str c) s) as [m|] eqn:Hm; [|done].
    injection H as <-. destruct (IH m eq_refl) as (h & rest & -> & <-).
    by exists (String d h), rest.
Qed.

Lemma includes_append_false c a b :
  includes (str c) a = false -> includes (str c) b = false ->
  includes (str c) (a +:+ b) = false.
Proof.
  intros Ha Hb. induction a as [|d a IH]; [done|].
  rewrite includes_cons in Ha. apply orb_false_iff in Ha as [Hd Ha].
  rewrite append_cons, includes_cons, Hd. by apply IH.
Qed.

Lemma originalValuePart_head prop :
  originalValuePart prop = EmptyString
  \/ exists rest, originalValuePart prop = String "=" rest.
Proof.
  unfold originalValuePart. destruct (hasValue prop); [|by left].
  unfold indexOf.
  destruct (String.index 0 "=" (source (dir_loc prop))) as [n|] eqn:E; [|by left].
  destruct (index_char_split "=" _ _ E) as (h & rest & -> & <-).
  right. exists rest.
  replace (negb (Z.of_nat (String.length h) =? -1)) with true
    by (symmetry; apply negb_true_iff, Z.eqb_neq; lia).
  apply sliceFrom_append.
Qed.

Lemma valuePart_head prop mode :
  valuePart prop mode = EmptyString
  \/ exists rest, valuePart prop mode = String "=" rest.
Proof.
  unfold valuePart.
  repeat match goal with
         | |- context [if ?b then _ else _] => destruct b
         end;
    try apply originalValuePart_head; try by left.
  right. by eexists.
Qed.

Lemma prefix_plain name style :
  isSupported name = true ->
  includes "=" (match style with short => shortPrefix name | long => longPrefix name end)
  = false.
Proof.
  unfold isSupported. intros H.
  destruct (String.eqb_spec name "bind") as [->|]; [by destruct style|].
  destruct (String.eqb_spec name "on") as [->|]; [by destruct style|].
  destruct (String.eqb_spec name "slot") as [->|]; [by destruct style|done].
Qed.

(** The value part read off the rewritten text is the value part that was
    written. *)
Lemma originalValuePart_reread prop reread style mode :
  isSupported (dir_name prop) = true -> argSource prop <> EmptyString ->
  includes "=" (argSource prop +:+ modifierStr prop) = false ->
  source (dir_loc reread) = newDirective prop style mode ->
  hasValue reread = truthy (valuePart prop mode) ->
  originalValuePart reread = valuePart prop mode.
Proof.
  intros Hsup Harg Hplain Hsrc Hval. unfold originalValuePart. rewrite Hval, Hsrc.
  destruct (valuePart_head prop mode) as [E|(rest & E)]; [by rewrite E|].
  rewrite (newDirective_supported prop style mode Hsup Harg), E.
  change (truthy (String "=" rest)) with true. cbv iota.
  pose proof (prefix_plain (dir_name prop) style Hsup) as Hprefix.
  set (P := match style with short => _ | long => _ end) in *.
  pose proof (includes_append_false "=" _ _ Hprefix Hplain) as Hhead.
  replace (P +:+ argSource prop +:+ modifierStr prop +:+ String "=" rest)
    with ((P +:+ argSource prop +:+ modifierStr prop) +:+ String "=" rest)
    by by rewrite !append_assoc.
  assert (indexOf "=" ((P +:+ argSource prop +:+ modifierStr prop) +:+ String "=" rest)
          = Z.of_nat (String.length (P +:+ argSource prop +:+ modifierStr prop))) as ->.
  { unfold indexOf. change "=" with (str "=") at 1.
    by rewrite (index_char_append "=" _ rest Hhead). }
  cbv zeta.
  replace (negb (Z.of_nat _ =? -1)) with true
    by (symmetry; apply negb_true_iff, Z.eqb_neq; lia).
  apply sliceFrom_append.
Qed.

(** X18. A rewritten directive that is read again is left alone. The directive
    read again has the rewritten text as its source, the name, the
    argument and the modifiers of the first one, an expression exactly
    when the rewritten text has a value part, and the expression of the
    first one when the value part was not changed; the argument and the
    modifiers hold no equals sign. *)
Theorem directive_settles prop reread templateOffset style mode :
  isSupported (dir_name prop) = true -> argSource prop <> EmptyString ->
  includes "=" (argSource prop +:+ modifierStr prop) = false ->
  dir_name reread = dir_name prop ->
  dir_arg reread = dir_arg prop ->
  List.filter truthy (dir_modifiers reread) = List.filter truthy (dir_modifiers prop) ->
  source (dir_loc reread) = newDirective prop style mode ->
  hasValue reread = truthy (valuePart prop mode) ->
  (valuePart prop mode = originalValuePart prop -> dir_exp reread = dir_exp prop) ->
  getDirectiveTransform reread templateOffset style mode = None.
Proof.
  intros Hsup Harg Hplain Hname Harg2 Hmods Hsrc Hval Hexp.
  assert (argSource reread = argSource prop) as Ha by (unfold argSource; by rewrite Harg2).
  assert (modifierStr reread = modifierStr prop) as Hm by (unfold modifierStr; by rewrite Hmods).
  pose proof (originalValuePart_reread prop reread style mode Hsup Harg Hplain Hsrc Hval)
    as Horig.
  assert (valuePart reread mode = valuePart prop mode) as Hvp.
  { unfold valuePart at 1. rewrite Hname, Ha, Horig.
    destruct (String.eqb (dir_name prop) "bind" && truthy (argSource prop)
              && negb (modeEqb mode ignore)) eqn:C; [|done].
    unfold valuePart in Hval, Hexp |- *. rewrite C in Hval, Hexp |- *.
    destruct mode; simpl in *; [done| |].
    - (* removeValue *)
      destruct (hasValue reread) eqn:Hr; [|done].
      destruct (hasValue prop) eqn:Hp.
      + destruct (String.eqb (trim (default "" (dir_exp prop))) _) eqn:Heq; [done|].
        by rewrite (Hexp eq_refl), Heq.
      + specialize (Hexp eq_refl). unfold hasValue in Hr, Hp. rewrite Hexp in Hr. congruence.
    - (* addValue *)
      destruct (hasValue reread) eqn:Hr; [done|]. simpl.
      destruct (hasValue prop) eqn:Hp; simpl in *; [|done].
      specialize (Hexp eq_refl). unfold hasValue in Hr, Hp. rewrite Hexp in Hr. congruence. }
  unfold getDirectiveTransform. destruct (isEmpty (source (dir_loc reread))); [done|].
  assert (newDirective reread style mode = source (dir_loc reread)) as ->;
    [|by rewrite String.eqb_refl].
  rewrite Hsrc.
  rewrite (newDirective_supported prop style mode Hsup Harg).
  rewrite (newDirective_supported reread style mode); [|by rewrite Hname|by rewrite Ha].
  by rewrite Hname, Ha, Hm, Hvp.
Qed.

Lemma directive_settles_witness :
  newDirective srcBinding long removeValue = "v-bind:src"
  /\ getDirectiveTransform
       {| dir_name := "bind"; dir_arg := Some "src"; dir_modifiers := [];
          dir_exp := None; dir_loc := locAt 5 "v-bind:src" |} 10 long removeValue = None.
Proof.
  split; [reflexivity|].
  apply (directive_settles srcBinding); try reflexivity; discriminate.
Defined.

(** ** A rewritten class attribute read again *)

Lemma includes_char_append c a b :
  includes (str c) (a +:+ b) = includes (str c) a || includes (str c) b.
Proof.
  induction a as [|d a IH]; [by rewrite append_nil_l|].
  by rewrite append_cons, !includes_cons, IH, orb_assoc.
Qed.

Lemma space_not_in_token c t :
  isSpace c = true -> hasSpace t = false -> includes (str c) t = false.
Proof.
  intros Hc. induction t as [|d t IH]; [done|]. simpl. intros H.
  apply orb_false_iff in H as [Hd Ht]. rewrite includes_cons, (IH Ht), orb_false_r.
  apply Ascii.eqb_neq. intros ->. congruence.
Qed.

Lemma plain_not_in_spaces c w :
  isSpace c = false -> onlySpaces w = true -> includes (str c) w = false.
Proof.
  intros Hc. induction w as [|d w IH]; [done|]. simpl. intros H.
  apply andb_true_iff in H as [Hd Hw]. rewrite includes_cons, (IH Hw), orb_false_r.
  apply Ascii.eqb_neq. intros ->. congruence.
Qed.

Lemma includes_removeSpaces c s :
  includes (str c) (removeSpaces s) = true -> includes (str c) s = true.
Proof.
  induction s as [|d s IH]; [done|]. simpl. rewrite includes_cons.
  destruct (isSpace d).
  - intros H. by rewrite (IH H), orb_true_r.
  - rewrite includes_cons. intros H. apply orb_true_iff in H as [H|H].
    + by rewrite H.
    + by rewrite (IH H), orb_true_r.
Qed.

Lemma includes_concat c l t :
  t ∈ l -> includes (str c) t = true ->
  includes (str c) (String.concat EmptyString l) = true.
Proof.
  intros Hin Ht. induction l as [|x l IH]; [by apply elem_of_nil in Hin|].
  rewrite concat_cons, includes_char_append.
  apply elem_of_cons in Hin as [<-|Hin]; [by rewrite Ht|].
  by rewrite (IH Hin), orb_true_r.
Qed.

Lemma classes_includes c rawValue t :
  t ∈ classes rawValue -> includes (str c) t = true -> includes (str c) rawValue = true.
Proof.
  intros Hin Ht. apply includes_removeSpaces.
  rewrite <- (append_nil_l (removeSpaces rawValue)).
  rewrite <- (split_concat EmptyString false rawValue) by done.
  rewrite <- concat_truthy. by apply (includes_concat c _ t).
Qed.

Lemma glue_without c w tokens :
  includes (str c) w = false ->
  Forall (fun t => includes (str c) t = false) tokens ->
  includes (str c) (glue w tokens) = false.
Proof.
  intros Hw Htok. destruct tokens as [|t rest]; [done|].
  apply Forall_cons in Htok as [Ht Hrest]. unfold glue, join.
  rewrite includes_char_append, Ht. simpl.
  induction Hrest as [|x l Hx _ IH]; [done|].
  cbn [map]. by rewrite concat_cons, !includes_char_append, Hw, Hx, IH.
Qed.

Lemma matchNewlineIndent_skip a b :
  includes (str NL) a = false -> matchNewlineIndent (a +:+ b) = matchNewlineIndent b.
Proof.
  induction a as [|d a IH]; [done|]. rewrite includes_cons. intros H.
  apply orb_false_iff in H as [Hd Ha]. rewrite append_cons. simpl.
  rewrite Ascii.eqb_sym, Hd. simpl. by apply IH.
Qed.

Lemma takeSpaces_indent indent x r :
  onlySpaces indent = true -> isSpace x = false ->
  takeSpaces (indent +:+ String x r) = indent.
Proof.
  intros Hi Hx. induction indent as [|d indent IH].
  - rewrite append_nil_l. simpl. by rewrite Hx.
  - simpl in Hi. apply andb_true_iff in Hi as [Hd Hi].
    rewrite append_cons. simpl. by rewrite Hd, (IH Hi).
Qed.

Lemma matchNewlineIndent_here indent x r :
  onlySpaces indent = true -> indent <> EmptyString -> isSpace x = false ->
  matchNewlineIndent (String NL (indent +:+ String x r)) = Some indent.
Proof.
  intros Hi Hne Hx. simpl.
  assert (startsWithSpace (indent +:+ String x r) = true) as ->.
  { destruct indent as [|d indent]; [done|]. simpl in Hi.
    apply andb_true_iff in Hi as [Hd _]. by rewrite append_cons. }
  simpl. by rewrite takeSpaces_indent.
Qed.

Lemma indent_spaces originalSource :
  let indent := default "  " (matchNewlineIndent originalSource) in
  onlySpaces indent = true /\ indent <> EmptyString.
Proof.
  destruct (matchNewlineIndent originalSource) as [indent|] eqn:E; simpl; [|done].
  split; [by eapply matchNewlineIndent_onlySpaces|].
  clear -E. induction originalSource as [|c s IH]; [done|]. simpl in E.
  destruct (Ascii.eqb c NL && startsWithSpace s) eqn:C; [|by apply IH].
  injection E as <-. apply andb_true_iff in C as [_ C].
  destruct s as [|d s]; [done|]. simpl in *. by rewrite C.
Qed.

Lemma token_parts t : isToken t = true -> hasSpace t = false /\ t <> EmptyString.
Proof.
  unfold isToken. intros H. apply andb_true_iff in H as [H1 H2].
  split; [by apply negb_true_iff|by destruct t].
Qed.

(** The value rebuilt from tokens, put between quotes behind [class=] and
    rebuilt from the same tokens with this text as the original one, is
    the same value: the layout and the indentation are found again. *)
Lemma rebuiltValue_reread options originalSource q tokens :
  tokens <> [] -> Forall (fun t => isToken t = true) tokens ->
  includes (str NL) q = false ->
  rebuiltValue options
    ("class=" +:+ q +:+ rebuiltValue options originalSource tokens +:+ q) tokens
  = rebuiltValue options originalSource tokens.
Proof.
  intros Hne Htok Hq. destruct tokens as [|t1 rest]; [done|]. clear Hne.
  assert (Forall (fun t => includes (str NL) t = false) (t1 :: rest)) as Hnl.
  { eapply Forall_impl; [exact Htok|]. intros t Ht.
    apply space_not_in_token; [done|]. by apply token_parts. }
  set (v := rebuiltValue options originalSource (t1 :: rest)).
  assert (forall text, includes (str NL) text = false ->
            rebuiltValue options text (t1 :: rest) = join " " (t1 :: rest)) as Hinline.
  { intros text Htext. unfold rebuiltValue. by rewrite Htext, andb_false_r. }
  assert (includes (str NL) v = false -> v = join " " (t1 :: rest) ->
          rebuiltValue options ("class=" +:+ q +:+ v +:+ q) (t1 :: rest) = v) as Hplain.
  { intros Hv Hjoin. rewrite Hinline; [done|].
    by rewrite !includes_char_append, Hv, Hq. }
  destruct (isPreserve (classLayout options) && includes (str NL) originalSource) eqn:C.
  - destruct rest as [|t2 rest'].
    + (* one token: the rebuilt text has no line break *)
      assert (v = t1) as Hv.
      { subst v. unfold rebuiltValue. rewrite C. simpl. apply append_empty_r. }
      apply Hplain; rewrite Hv; [by apply Forall_inv in Hnl|done].
    + (* several tokens: the first line break is followed by the indent *)
      destruct (indent_spaces originalSource) as [Hind Hind'].
      set (indent := default "  " (matchNewlineIndent originalSource)) in *.
      apply Forall_inv_tail, Forall_inv in Htok as Ht2.
      apply token_parts in Ht2 as [Ht2 Ht2'].
      destruct t2 as [|x r2]; [done|]. simpl in Ht2. apply orb_false_iff in Ht2 as [Hx _].
      set (more := join "" (map (fun c => str NL +:+ indent +:+ c) rest')).
      assert (v = t1 +:+ String NL (indent +:+ String x (r2 +:+ more))) as Hv.
      { subst v. unfold rebuiltValue. rewrite C. fold indent. cbn [firstOrUndefined tail map].
        unfold join. rewrite concat_cons. fold (join "" (map (fun c => str NL +:+ indent +:+ c) rest')).
        fold more. f_equal.
        change (str NL +:+ indent +:+ String x r2) with (String NL (indent +:+ String x r2)).
        rewrite append_cons. f_equal. by rewrite append_assoc. }
      assert (matchNewlineIndent ("class=" +:+ q +:+ v +:+ q) = Some indent) as Hmatch.
      { rewrite Hv.
        replace ("class=" +:+ q +:+ (t1 +:+ String NL (indent +:+ String x (r2 +:+ more))) +:+ q)
          with (("class=" +:+ q +:+ t1)
                +:+ String NL (indent +:+ String x (r2 +:+ more +:+ q))).
        2:{ rewrite !append_assoc. do 3 f_equal. rewrite append_cons. f_equal.
            rewrite append_assoc, append_cons. do 2 f_equal. by rewrite append_assoc. }
        rewrite matchNewlineIndent_skip.
        - by apply matchNewlineIndent_here.
        - rewrite !includes_char_append, Hq. by rewrite (Forall_inv Hnl). }
      assert (includes (str NL) ("class=" +:+ q +:+ v +:+ q) = true) as Hbreak.
      { rewrite Hv, !includes_char_append. rewrite (includes_cons NL NL).
        rewrite Ascii.eqb_refl. simpl. by rewrite !orb_true_r. }
      destruct (andb_prop _ _ C) as [Hp _].
      unfold rebuiltValue at 1. rewrite Hmatch, Hbreak, Hp. cbn [andb default from_option].
      subst v. unfold rebuiltValue. by rewrite C.
  - assert (v = join " " (t1 :: rest)) as Hv by (subst v; unfold rebuiltValue; by rewrite C).
    apply Hplain; [|done]. rewrite Hv, join_glue. by apply glue_without.
Qed.

Lemma quote_reread options prop rawValue :
  processed options rawValue <> [] ->
  (includes (str SQ) rawValue = true -> includes (str SQ) (source (attr_loc prop)) = true) ->
  quote (rebuilt options prop rawValue) = quote (source (attr_loc prop)).
Proof.
  intros Hne Hpart. unfold rebuilt.
  set (v := rebuiltValue options (source (attr_loc prop)) (processed options rawValue)).
  destruct (includes (str SQ) (source (attr_loc prop))) eqn:E.
  - assert (quote (source (attr_loc prop)) = str SQ) as -> by (unfold quote; by rewrite E).
    unfold quote. rewrite !includes_char_append.
    change (includes (str SQ) (str SQ)) with true. by rewrite !orb_true_r.
  - assert (quote (source (attr_loc prop)) = str DQ) as -> by (unfold quote; by rewrite E).
    unfold quote. rewrite !includes_char_append.
    assert (includes (str SQ) v = false) as ->; [|done].
    subst v.
    destruct (rebuiltValue_glue options (source (attr_loc prop)) _ Hne) as (w & Hw & _ & ->).
    apply glue_without; [by apply plain_not_in_spaces|].
    apply Forall_forall. intros t Ht. apply processed_elem in Ht.
    destruct (includes (str SQ) t) eqn:Et; [|done].
    pose proof (classes_includes SQ rawValue t Ht Et) as Hraw.
    specialize (Hpart Hraw). congruence.
Qed.

Lemma append_inj_r a b c : a +:+ c = b +:+ c -> a = b.
Proof.
  revert b. induction a as [|x a IH]; intros b H.
  - destruct b as [|y b]; [done|]. exfalso.
    apply (f_equal String.length) in H. rewrite append_nil_l, append_cons in H.
    simpl in H. rewrite length_append in H. lia.
  - destruct b as [|y b].
    + exfalso. apply (f_equal String.length) in H. rewrite append_nil_l, append_cons in H.
      simpl in H. rewrite length_append in H. lia.
    + rewrite !append_cons in H. injection H as -> H. f_equal. by apply IH.
Qed.

(** X14. A class attribute rewritten by the class pass and read again is left
    alone by the class pass. The attribute read again has the rewritten
    text, and as its value what stands between the quotes of this text;
    the class has a token, and an apostrophe of the value is an apostrophe
    of the original text. *)
Theorem class_settles options prop clone reread rawValue c value :
  classPass options prop = Some clone ->
  attr_value prop = Some rawValue ->
  processed options rawValue <> [] ->
  (includes (str SQ) rawValue = true -> includes (str SQ) (source (attr_loc prop)) = true) ->
  attr_name reread = "class" ->
  attr_value reread = Some value ->
  source (attr_loc reread) = source (attr_loc clone) ->
  source (attr_loc reread) = "class=" +:+ str c +:+ value +:+ str c ->
  classPass options reread = None.
Proof.
  intros Hpass Hraw Hne Hpart Hname Hvalue Hsrc Hshape.
  set (originalSource := source (attr_loc prop)).
  set (tokens := processed options rawValue).
  assert (source (attr_loc clone) = rebuilt options prop rawValue) as Hclone.
  { unfold classPass in Hpass. rewrite Hraw in Hpass.
    destruct (_ && _); [|done]. destruct (negb _); [|done]. by injection Hpass as <-. }
  rewrite Hclone in Hsrc. rewrite Hsrc in Hshape.
  assert (str c = quote originalSource
          /\ value = rebuiltValue options originalSource tokens) as [Hc ->].
  { unfold rebuilt in Hshape. fold originalSource tokens in Hshape.
    assert (exists d, quote originalSource = str d) as [d Hd].
    { unfold quote. destruct (includes (str SQ) originalSource); [by exists SQ|by exists DQ]. }
    rewrite Hd in Hshape |- *.
    injection Hshape as -> Hrest.
    split; [done|]. symmetry. by apply (append_inj_r _ _ (str c)). }
  assert (includes (str NL) (quote originalSource) = false) as Hq
    by (unfold quote; by destruct (includes (str SQ) originalSource)).
  unfold classPass. rewrite Hvalue, Hname.
  destruct (_ && _); [|done].
  assert (rebuilt options reread (rebuiltValue options originalSource tokens)
          = source (attr_loc reread)) as ->; [|by rewrite String.eqb_refl].
  unfold rebuilt at 1. rewrite Hsrc.
  rewrite (quote_reread options prop rawValue Hne Hpart). fold originalSource.
  pose proof (processed_rebuilt options originalSource rawValue Hne) as Hsettled.
  fold tokens in Hsettled. rewrite Hsettled.
  unfold rebuilt at 1. fold originalSource tokens.
  rewrite rebuiltValue_reread; [done|done|apply processed_isToken|done].
Qed.

Lemma class_settles_witness :
  classPass allOn
    {| attr_name := "class"; attr_value := Some "a b";
       attr_loc := locAt 5 ("class=" +:+ dq "a b") |} = None.
Proof.
  eapply (class_settles allOn
            {| attr_name := "class"; attr_value := Some "b a b";
               attr_loc := locAt 5 ("class=" +:+ dq "b a b") |}
            _ _ "b a b" DQ "a b");
    try reflexivity; discriminate.
Defined.

(** ** How many replacements *)

(** X24. The walk makes at most one replacement for each element that has a
    prop, and none for any other node. *)
Theorem walk_count (contentStartOffset : Z) (opts : ResolvedVuenifyOptions)
    (n : TemplateChildNode) :
  (length (walk contentStartOffset opts n) <= elementsWithProps n)%nat.
Proof.
  induction n as [type loc props children IH] using node_ind.
  cbn [walk elementsWithProps]. rewrite length_app. apply Nat.add_le_mono.
  - destruct (isElementNode _); [|done].
    destruct (buildUnifiedAttributeReplacement _ _ _) as [res|] eqn:E; [|simpl; lia].
    destruct (buildUnified_inv _ _ _ _ E) as (first & rest & Hp & _).
    simpl in Hp. rewrite Hp. done.
  - destruct children as [cs|]; [|done].
    induction IH as [|c cs Hc _ IHcs]; [done|].
    simpl. rewrite length_app. lia.
Qed.

(** ** Consistent comparators *)

Section Consistent.
Context {T : Type} (compare : T -> T -> Z).
Hypothesis Hcons : consistent compare.

Lemma consistent_lt_gt a b : compare a b < 0 -> 0 < compare b a.
Proof.
  destruct Hcons as (Hrefl & Hsym & _ & Hlt & _). intros H.
  destruct (Z.lt_trichotomy (compare b a) 0) as [Hba|[Hba|Hba]]; [| |done].
  - pose proof (Hlt a b a H Hba) as Haa. rewrite Hrefl in Haa. lia.
  - apply Hsym in Hba. lia.
Qed.

Lemma consistent_gt_lt a b : 0 < compare a b -> compare b a < 0.
Proof.
  destruct Hcons as (Hrefl & Hsym & _ & _ & Hgt). intros H.
  destruct (Z.lt_trichotomy (compare b a) 0) as [Hba|[Hba|Hba]]; [done| |].
  - apply Hsym in Hba. lia.
  - pose proof (Hgt a b a H Hba) as Haa. rewrite Hrefl in Haa. lia.
Qed.

Lemma consistent_total a b : 0 < compare a b -> compare b a <= 0.
Proof. intros H. apply consistent_gt_lt in H. lia. Qed.

Lemma consistent_lt_eq a b c : compare a b < 0 -> compare b c = 0 -> compare a c < 0.
Proof.
  destruct Hcons as (Hrefl & Hsym & Htrans & Hlt & Hgt). intros Hab Hbc.
  destruct (Z.lt_trichotomy (compare a c) 0) as [Hac|[Hac|Hac]]; [done| |].
  - pose proof (Htrans a c b Hac (Hsym _ _ Hbc)). lia.
  - apply consistent_gt_lt in Hac. pose proof (Hlt c a b Hac Hab) as Hcb.
    apply Hsym in Hbc. lia.
Qed.

Lemma consistent_eq_lt a b c : compare a b = 0 -> compare b c < 0 -> compare a c < 0.
Proof.
  destruct Hcons as (Hrefl & Hsym & Htrans & Hlt & Hgt). intros Hab Hbc.
  destruct (Z.lt_trichotomy (compare a c) 0) as [Hac|[Hac|Hac]]; [done| |].
  - pose proof (Htrans b a c (Hsym _ _ Hab) Hac). lia.
  - apply consistent_lt_gt in Hbc. pose proof (Hgt c b a) as Hca.
    pose proof (Hgt a c b Hac Hbc). lia.
Qed.

Lemma consistent_le_trans a b c :
  compare a b <= 0 -> compare b c <= 0 -> compare a c <= 0.
Proof.
  destruct Hcons as (Hrefl & Hsym & Htrans & Hlt & Hgt). intros Hab Hbc.
  destruct (Z.eq_dec (compare a b) 0) as [E1|N1], (Z.eq_dec (compare b c) 0) as [E2|N2].
  - by rewrite (Htrans a b c).
  - assert (compare a c < 0); [|lia]. apply (consistent_eq_lt a b c); [done|lia].
  - assert (compare a c < 0); [|lia]. apply (consistent_lt_eq a b c); [lia|done].
  - assert (compare a c < 0); [|lia]. apply (Hlt a b c); lia.
Qed.

Lemma consistent_indexed : consistent (indexedCompare compare).
Proof.
  pose proof Hcons as (Hrefl & Hsym & Htrans & Hlt & Hgt).
  assert (forall p q : T * Z,
            indexedCompare compare p q < 0 <->
            compare p.1 q.1 < 0 \/ (compare p.1 q.1 = 0 /\ p.2 < q.2)) as Hl.
  { intros p q. unfold indexedCompare. destruct (Z.eqb_spec (compare p.1 q.1) 0); simpl; lia. }
  assert (forall p q : T * Z,
            0 < indexedCompare compare p q <->
            0 < compare p.1 q.1 \/ (compare p.1 q.1 = 0 /\ q.2 < p.2)) as Hg.
  { intros p q. unfold indexedCompare. destruct (Z.eqb_spec (compare p.1 q.1) 0); simpl; lia. }
  assert (forall p q : T * Z,
            indexedCompare compare p q = 0 <-> compare p.1 q.1 = 0 /\ p.2 = q.2) as He.
  { intros p q. unfold indexedCompare. destruct (Z.eqb_spec (compare p.1 q.1) 0); simpl; lia. }
  split; [|split; [|split; [|split]]].
  - intros p. apply He. by rewrite Hrefl.
  - intros p q H. apply He in H as [H1 H2]. apply He. split; [by apply Hsym|done].
  - intros p q r H1 H2. apply He in H1 as [H1 H1']. apply He in H2 as [H2 H2'].
    apply He. split; [by apply (Htrans _ q.1)|lia].
  - intros p q r H1 H2. apply Hl in H1. apply Hl in H2. apply Hl.
    destruct H1 as [H1|[H1 H1']], H2 as [H2|[H2 H2']].
    + left. by apply (Hlt _ q.1).
    + left. by apply (consistent_lt_eq _ q.1).
    + left. by apply (consistent_eq_lt _ q.1).
    + right. split; [by apply (Htrans _ q.1)|lia].
  - intros p q r H1 H2. apply Hg in H1. apply Hg in H2. apply Hg.
    destruct H1 as [H1|[H1 H1']], H2 as [H2|[H2 H2']].
    + left. by apply (Hgt _ q.1).
    + left. apply consistent_lt_gt. apply (consistent_eq_lt _ q.1); [by apply Hsym|].
      by apply consistent_gt_lt.
    + left. apply consistent_lt_gt. apply (consistent_lt_eq _ q.1); [|by apply Hsym].
      by apply consistent_gt_lt.
    + right. split; [by apply (Htrans _ q.1)|lia].
Qed.

End Consistent.

(** X22. [stableSort] with a consistent comparator: the comparator that
    [sort] is called with, with the index as a tie-break, is consistent
    too; the result is a permutation of the items; the tie-break changes
    nothing over a stable sort by the comparator alone; the result is
    sorted; and items that compare equal keep their order. *)
Theorem stableSort_is_stable {T} (items : list T) (compare : T -> T -> Z) :
  consistent compare ->
  consistent (indexedCompare compare)
  /\ stableSort items compare ≡ₚ items
  /\ stableSort items compare = sortBy compare items
  /\ StronglySorted (fun a b => compare a b <= 0) (stableSort items compare)
  /\ (forall d, List.filter (fun x => compare d x =? 0) (stableSort items compare)
              = List.filter (fun x => compare d x =? 0) items).
Proof.
  intros Hcons. split; [by apply consistent_indexed|].
  split; [apply stableSort_perm|]. split; [apply stableSort_sortBy|]. split.
  - rewrite stableSort_sortBy. apply sortBy_sorted.
    + by apply consistent_total.
    + by apply consistent_le_trans.
  - intros d. rewrite stableSort_sortBy. apply sortBy_stable.
    intros a b Ha Hb. apply Z.eqb_eq in Ha, Hb.
    destruct Hcons as (_ & Hsym & Htrans & _).
    by rewrite (Htrans a d b (Hsym _ _ Ha) Hb).
Qed.

Lemma stableSort_is_stable_witness :
  stableSort [(3, "c"); (1, "a"); (3, "b"); (2, "d")] (fun a b : Z * string => a.1 - b.1)
  = [(1, "a"); (2, "d"); (3, "c"); (3, "b")].
Proof.
  refine (proj1 (proj2 (proj2 (stableSort_is_stable
            [(3, "c"); (1, "a"); (3, "b"); (2, "d")]
            (fun a b : Z * string => a.1 - b.1) _)))).
  repeat split; intros; lia.
Defined.

(** ** The comparators of the program *)

Lemma asciiCompare_consistent : consistent asciiCompare.
Proof.
  split; [|split; [|split; [|split]]].
  - intros a. by apply asciiCompare_eq.
  - intros a b H. apply asciiCompare_eq in H as ->. by apply asciiCompare_eq.
  - intros a b c H1 H2. apply asciiCompare_eq in H1 as ->. done.
  - intros a b c H1 H2. apply asciiCompare_lt in H1, H2. apply asciiCompare_lt.
    by apply (string_compare_lt_trans a b c).
  - intros a b c H1 H2. apply asciiCompare_gt in H1, H2. apply asciiCompare_gt.
    by apply (string_compare_lt_trans c b a).
Qed.

Lemma compareDirectives_consistent wm : consistent (compareDirectives wm).
Proof.
  destruct asciiCompare_consistent as (Hrefl & Hsym & Htrans & Hlt & Hgt).
  assert (forall a b,
            compareDirectives wm a b
            = if weight wm (propName (node a)) =? weight wm (propName (node b))
              then asciiCompare (propName (node a)) (propName (node b))
              else weight wm (propName (node a)) - weight wm (propName (node b))) as Hdef.
  { intros a b. unfold compareDirectives. by destruct (_ =? _). }
  split; [|split; [|split; [|split]]].
  - intros a. rewrite Hdef, Z.eqb_refl. apply Hrefl.
  - intros a b. rewrite !Hdef, (Z.eqb_sym (weight wm (propName (node b)))).
    destruct (Z.eqb_spec (weight wm (propName (node a))) (weight wm (propName (node b))));
      [apply Hsym|lia].
  - intros a b c. rewrite !Hdef.
    destruct (Z.eqb_spec (weight wm (propName (node a))) (weight wm (propName (node b))));
      destruct (Z.eqb_spec (weight wm (propName (node b))) (weight wm (propName (node c))));
      destruct (Z.eqb_spec (weight wm (propName (node a))) (weight wm (propName (node c))));
      try lia. apply Htrans.
  - intros a b c. rewrite !Hdef.
    destruct (Z.eqb_spec (weight wm (propName (node a))) (weight wm (propName (node b))));
      destruct (Z.eqb_spec (weight wm (propName (node b))) (weight wm (propName (node c))));
      destruct (Z.eqb_spec (weight wm (propName (node a))) (weight wm (propName (node c))));
      try lia. apply Hlt.
  - intros a b c. rewrite !Hdef.
    destruct (Z.eqb_spec (weight wm (propName (node a))) (weight wm (propName (node b))));
      destruct (Z.eqb_spec (weight wm (propName (node b))) (weight wm (propName (node c))));
      destruct (Z.eqb_spec (weight wm (propName (node a))) (weight wm (propName (node c))));
      try lia. apply Hgt.
Qed.

Lemma compareAttributes_consistent : consistent compareAttributes.
Proof.
  destruct asciiCompare_consistent as (Hrefl & Hsym & Htrans & Hlt & Hgt).
  split; [|split; [|split; [|split]]].
  - intros a. unfold compareAttributes. destruct (propHasValue (node a)); apply Hrefl.
  - intros a b. unfold compareAttributes.
    destruct (propHasValue (node a)), (propHasValue (node b)); simpl; try lia; apply Hsym.
  - intros a b c. unfold compareAttributes.
    destruct (propHasValue (node a)), (propHasValue (node b)), (propHasValue (node c));
      simpl; try lia; apply Htrans.
  - intros a b c. unfold compareAttributes.
    destruct (propHasValue (node a)), (propHasValue (node b)), (propHasValue (node c));
      simpl; try lia; apply Hlt.
  - intros a b c. unfold compareAttributes.
    destruct (propHasValue (node a)), (propHasValue (node b)), (propHasValue (node c));
      simpl; try lia; apply Hgt.
Qed.

(** X25. Every comparator the program calls [sort] with is consistent:
    [asciiCompare] for the classes, the comparators of the two orderings
    with the index tie-break of [stableSort], and the descending start of
    [applyEdits]. *)
Theorem program_comparators_consistent (priority : list string) :
  consistent asciiCompare
  /\ consistent (indexedCompare (compareDirectives (weightMap priority)))
  /\ consistent (indexedCompare compareAttributes)
  /\ consistent (fun a b : Replacement => start b - start a).
Proof.
  split; [apply asciiCompare_consistent|].
  split; [apply consistent_indexed, compareDirectives_consistent|].
  split; [apply consistent_indexed, compareAttributes_consistent|].
  repeat split; intros; lia.
Qed.

(** ** The key of the directive ordering *)

Lemma weight_rankFrom (l : list string) (k : nat) (m : gmap string Z) name :
  default 1000
    (foldl (fun m (entry : Z * string) => <[entry.2 := entry.1]> m) m
       (imap (fun index name => (Z.of_nat (k + index), name)) l) !! name)
  = rankFrom (Z.of_nat k) l name (default 1000 (m !! name)).
Proof.
  revert k m. induction l as [|x r IH]; intros k m; [done|]. simpl.
  rewrite (imap_ext _ (fun index name => (Z.of_nat (S k + index), name)));
    [|intros j y _; simpl; do 2 f_equal; lia].
  rewrite IH. replace (Z.of_nat (S k)) with (Z.of_nat k + 1) by lia.
  f_equal. rewrite Nat.add_0_r.
  destruct (String.eqb_spec x name) as [->|Hne].
  - by rewrite lookup_insert_eq.
  - by rewrite lookup_insert_ne.
Qed.

Lemma weight_rank (priority : list string) name :
  weight (weightMap priority) name = rank priority name.
Proof.
  unfold weight, weightMap, rank.
  rewrite (imap_ext _ (fun index name => (Z.of_nat (0 + index), name))) by done.
  by rewrite weight_rankFrom.
Qed.

Lemma asciiCompare_le a b : asciiCompare a b <= 0 <-> String.compare a b <> Gt.
Proof.
  split.
  - intros H Hgt. assert (0 < asciiCompare a b); [|lia].
    apply asciiCompare_gt. rewrite String.compare_antisym, Hgt. done.
  - intros H. destruct (Z.lt_trichotomy (asciiCompare a b) 0) as [?|[?|Hpos]]; try lia.
    exfalso. apply H. apply asciiCompare_gt in Hpos.
    rewrite String.compare_antisym, Hpos. done.
Qed.

Lemma compareDirectives_directiveLe priority a b :
  compareDirectives (weightMap priority) a b <= 0 <-> directiveLe priority a b.
Proof.
  rewrite compareDirectives_le, !weight_rank, asciiCompare_le. done.
Qed.

(** C7. Directive splice-back: the directive ordering keeps every prop that
    is not a directive at its index, keeps the directives as a multiset,
    puts directives exactly where directives were, in sorted order, and
    leaves directives that compare equal in the order they had. The order
    is by rank, the index of the last occurrence of the name in the
    priority list or 1000, and then by name; two directives compare equal
    exactly when they have the same name. This is the array [sorted] of
    the orchestrator when [orderDirectives] is on and [orderAttributes] is
    off. *)
Theorem directive_splice_back (priority : list string) (l : list Slot) :
  let out := orderDirectivesPass priority l in
  let isDirective := fun s : Slot => isDirectiveNode (node s) in
  let compare := compareDirectives (weightMap priority) in
  (forall (i : nat) s, l !! i = Some s -> isDirective s = false -> out !! i = Some s)
  /\ List.filter isDirective out ≡ₚ List.filter isDirective l
  /\ length out = length l
  /\ (forall i : nat, isDirective <$> out !! i = isDirective <$> l !! i)
  /\ List.filter isDirective out = stableSort (List.filter isDirective l) compare
  /\ StronglySorted (fun a b => compare a b <= 0) (List.filter isDirective out)
  /\ (forall d, List.filter (fun s => compare d s =? 0) (List.filter isDirective out)
              = List.filter (fun s => compare d s =? 0) (List.filter isDirective l))
  /\ (forall options props,
        orderDirectives options = true -> orderAttributes options = false ->
        (passes options props).1
        = orderDirectivesPass (directiveOrder options)
            (transformed options props))
  /\ (forall a b, compare a b <= 0 <-> directiveLe priority a b)
  /\ (forall a b, compare a b = 0 <-> propName (node a) = propName (node b))
  /\ StronglySorted (directiveLe priority) (List.filter isDirective out)
  /\ (forall (i j : nat) a b, out !! i = Some a -> out !! j = Some b -> (i < j)%nat ->
        isDirective a = true -> isDirective b = true -> directiveLe priority a b)
  /\ (forall name,
        List.filter (fun s => String.eqb (propName (node s)) name)
          (List.filter isDirective out)
        = List.filter (fun s => String.eqb (propName (node s)) name)
            (List.filter isDirective l)).
Proof.
  intros out isDirective compare. subst out isDirective compare.
  assert (StronglySorted (directiveLe priority)
            (List.filter (fun s => isDirectiveNode (node s))
               (orderDirectivesPass priority l))) as Hsorted.
  { eapply sorted_weaken; [|apply orderDirectives_sorted].
    intros a b. apply compareDirectives_directiveLe. }
  split; [|split; [|split; [|split; [|split; [|split; [|split; [|split;
    [|split; [|split; [|split; [|split]]]]]]]]]]].
  - intros i s Hi Hs. by apply spliceBack_other.
  - rewrite orderDirectives_filter. apply sortBy_perm.
  - apply spliceBack_length.
  - intros i. apply (spliceBack_kind isDirectiveNode), orderDirectives_inStep.
  - by rewrite orderDirectives_filter, stableSort_sortBy.
  - apply orderDirectives_sorted.
  - intros d. rewrite orderDirectives_filter. apply sortBy_stable.
    intros a b Ha Hb. apply Z.eqb_eq in Ha, Hb.
    apply compareDirectives_eq in Ha, Hb.
    assert (compareDirectives (weightMap priority) a b = 0); [|lia].
    apply compareDirectives_eq. congruence.
  - intros options props Hd Ha. unfold passes. by rewrite Hd, Ha.
  - intros a b. apply compareDirectives_directiveLe.
  - intros a b. apply compareDirectives_eq.
  - exact Hsorted.
  - intros i j a b Hi Hj Hij Ha Hb.
    by apply (sorted_filter_lookup _ (fun s => isDirectiveNode (node s)) _ i j a b Hsorted).
  - intros name. rewrite orderDirectives_filter. apply sortBy_stable.
    intros a b Ha Hb. apply String.eqb_eq in Ha, Hb.
    assert (compareDirectives (weightMap priority) a b = 0); [|lia].
    apply compareDirectives_eq. congruence.
Qed.

(** ** The value part that is kept *)

Lemma fromEquals_none s : includes "=" s = false -> fromEquals s = EmptyString.
Proof.
  induction s as [|c s IH]; [done|].
  change (includes "=" (String c s)) with (includes (str "=") (String c s)).
  rewrite includes_cons. intros H. apply orb_false_iff in H as [Hc Hs]. simpl.
  rewrite Ascii.eqb_sym, Hc. by apply IH.
Qed.

Lemma fromEquals_append h rest :
  includes "=" h = false -> fromEquals (h +:+ String "=" rest) = String "=" rest.
Proof.
  induction h as [|c h IH]; [done|].
  change (includes "=" (String c h)) with (includes (str "=") (String c h)).
  rewrite includes_cons. intros H. apply orb_false_iff in H as [Hc Hh].
  rewrite append_cons. simpl. rewrite Ascii.eqb_sym, Hc. by apply IH.
Qed.

Lemma index_char_first c s n :
  String.index 0 (str c) s = Some n ->
  exists h rest, s = h +:+ String c rest /\ String.length h = n
                 /\ includes (str c) h = false.
Proof.
  revert n. induction s as [|d s IH]; intros n H; [done|].
  rewrite index_char_cons in H. destruct (Ascii.eqb c d) eqn:E.
  - apply Ascii.eqb_eq in E as ->. injection H as <-. by exists EmptyString, s.
  - destruct (String.index 0 (str c) s) as [m|] eqn:Hm; [|done].
    injection H as <-. destruct (IH m eq_refl) as (h & rest & -> & <- & Hh).
    exists (String d h), rest. split; [done|]. split; [done|].
    by rewrite includes_cons, E, Hh.
Qed.

Lemma originalValuePart_fromEquals prop :
  originalValuePart prop
  = if hasValue prop then fromEquals (source (dir_loc prop)) else EmptyString.
Proof.
  unfold originalValuePart. destruct (hasValue prop); [|done].
  unfold indexOf.
  destruct (String.index 0 "=" (source (dir_loc prop))) as [n|] eqn:E.
  - destruct (index_char_first "=" _ _ E) as (h & rest & -> & <- & Hh).
    replace (negb (Z.of_nat (String.length h) =? -1)) with true
      by (symmetry; apply negb_true_iff, Z.eqb_neq; lia).
    by rewrite sliceFrom_append, fromEquals_append.
  - simpl. symmetry. apply fromEquals_none. unfold includes. by rewrite E.
Qed.

(** C6. Same-name binding policy. The value part departs from the original
    one only for [bind] with an argument. There [removeValue] empties it
    exactly when the trimmed expression equals the argument with its
    brackets stripped and trimmed, [addValue] writes the argument between
    double quotes when there is no expression, and [ignore] changes
    nothing; the value part so chosen ends the rebuilt directive. The
    original value part is the source text from its first equals sign on
    when the directive has an expression. For another directive than
    [bind] with an argument, the result of [getDirectiveTransform] does not
    depend on the mode; for [bind] with an argument it is the replacement
    of the span of the directive by the prefix, the argument, the
    modifiers and the value part of the policy, and nothing when this is
    the source text. *)
Theorem same_name_policy (prop : DirectiveNode) :
  let arg := argSource prop in
  let original := originalValuePart prop in
  (forall mode, dir_name prop <> "bind" \/ arg = "" -> valuePart prop mode = original)
  /\ (dir_name prop = "bind" -> arg <> "" ->
        (forall exp, dir_exp prop = Some exp ->
           valuePart prop removeValue
           = if String.eqb (trim exp) (normalizedArg arg) then "" else original)
        /\ (dir_exp prop = None -> valuePart prop removeValue = original)
        /\ (dir_exp prop = None ->
              valuePart prop addValue = "=" +:+ str DQ +:+ normalizedArg arg +:+ str DQ)
        /\ (forall exp, dir_exp prop = Some exp -> valuePart prop addValue = original)
        /\ (forall mode style,
              newDirective prop style mode
              = (match style with short => ":" | long => "v-bind:" end)
                +:+ arg +:+ modifierStr prop +:+ valuePart prop mode))
  /\ valuePart prop ignore = original
  /\ (forall x, normalizedArg ("[" +:+ x +:+ "]") = trim x)
  /\ (forall a, startsWith "[" a && endsWith "]" a = false -> normalizedArg a = trim a)
  /\ original
     = match dir_exp prop with
       | Some _ => fromEquals (source (dir_loc prop))
       | None => ""
       end
  /\ (forall templateOffset style mode,
        dir_name prop <> "bind" \/ arg = "" ->
        getDirectiveTransform prop templateOffset style mode
        = getDirectiveTransform prop templateOffset style ignore)
  /\ (forall templateOffset style mode,
        dir_name prop = "bind" -> arg <> "" -> source (dir_loc prop) <> "" ->
        let kept :=
          match dir_exp prop with
          | Some _ => fromEquals (source (dir_loc prop))
          | None => ""
          end in
        let chosen :=
          match mode, dir_exp prop with
          | removeValue, Some exp =>
              if String.eqb (trim exp) (normalizedArg arg) then "" else kept
          | addValue, None => "=" +:+ str DQ +:+ normalizedArg arg +:+ str DQ
          | _, _ => kept
          end in
        let text :=
          (match style with short => ":" | long => "v-bind:" end)
          +:+ arg +:+ modifierStr prop +:+ chosen in
        getDirectiveTransform prop templateOffset style mode
        = if String.eqb (source (dir_loc prop)) text then None
          else Some {| start := templateOffset + start_offset (dir_loc prop);
                       end_ := templateOffset + end_offset (dir_loc prop);
                       value := text |}).
Proof.
  intros arg original. subst arg original.
  assert (originalValuePart prop
          = match dir_exp prop with
            | Some _ => fromEquals (source (dir_loc prop))
            | None => ""
            end) as Horiginal.
  { rewrite originalValuePart_fromEquals. unfold hasValue. by destruct (dir_exp prop). }
  assert (dir_name prop = "bind" -> argSource prop <> "" -> forall mode style,
            newDirective prop style mode
            = (match style with short => ":" | long => "v-bind:" end)
              +:+ argSource prop +:+ modifierStr prop +:+ valuePart prop mode) as Hnew.
  { intros Hname Harg mode style. apply truthy_nonempty in Harg.
    unfold newDirective, buildDirective. rewrite Hname, Harg. by destruct style. }
  split; [intros mode; apply valuePart_elsewhere|].
  split; [|split; [|split; [|split; [|split; [|split]]]]].
  - intros Hname Harg. pose proof (Hnew Hname Harg) as Hnew'.
    apply truthy_nonempty in Harg.
    repeat (split; [|try exact Hnew']);
      unfold valuePart, hasValue; rewrite Hname, Harg; simpl.
    + intros exp Hexp. rewrite Hexp. reflexivity.
    + intros Hexp. rewrite Hexp. reflexivity.
    + intros Hexp. rewrite Hexp. reflexivity.
    + intros exp Hexp. rewrite Hexp. reflexivity.
  - unfold valuePart. simpl. by rewrite andb_false_r.
  - apply normalizedArg_dynamic.
  - intros a Ha. unfold normalizedArg. by rewrite Ha.
  - exact Horiginal.
  - intros templateOffset style mode H. unfold getDirectiveTransform, newDirective.
    by rewrite !(valuePart_elsewhere prop _ H).
  - intros templateOffset style mode Hname Harg Hsrc kept chosen text.
    assert (valuePart prop mode = chosen) as Hchosen.
    { subst chosen kept. rewrite <- Horiginal.
      apply truthy_nonempty in Harg.
      unfold valuePart, hasValue. rewrite Hname, Harg.
      destruct mode, (dir_exp prop); reflexivity. }
    unfold getDirectiveTransform.
    assert (isEmpty (source (dir_loc prop)) = false) as ->
      by (by destruct (source (dir_loc prop))).
    rewrite (Hnew Hname Harg), Hchosen. fold text.
    by destruct (String.eqb (source (dir_loc prop)) text).
Qed.

Lemma same_name_policy_witness :
  valuePart srcBinding removeValue = ""
  /\ valuePart srcShorthand addValue = "=" +:+ dq "src"
  /\ newDirective srcBinding long removeValue = "v-bind:src"
  /\ getDirectiveTransform srcBinding 10 long removeValue
     = Some {| start := 15; end_ := 25; value := "v-bind:src" |}
  /\ getDirectiveTransform urlBinding 10 long removeValue
     = Some {| start := 15; end_ := 25; value := "v-bind:src=" +:+ dq "url" |}
  /\ getDirectiveTransform srcShorthand 10 short addValue
     = Some {| start := 15; end_ := 19; value := ":src=" +:+ dq "src" |}.
Proof.
  destruct (same_name_policy srcBinding) as (_ & Hbind & _ & _ & _ & _ & _ & Hget).
  destruct (Hbind eq_refl ltac:(discriminate)) as (Hremove & _ & _ & _ & Hnew).
  destruct (same_name_policy srcShorthand) as (_ & Hbind' & _ & _ & _ & _ & _ & Hget').
  destruct (Hbind' eq_refl ltac:(discriminate)) as (_ & _ & Hadd & _).
  destruct (same_name_policy urlBinding) as (_ & _ & _ & _ & _ & _ & _ & Hget'').
  split; [exact (Hremove "src" eq_refl)|]. split; [exact (Hadd eq_refl)|].
  split; [exact (Hnew removeValue long)|].
  split; [exact (Hget 10 long removeValue eq_refl ltac:(discriminate) ltac:(discriminate))|].
  split; [exact (Hget'' 10 long removeValue eq_refl ltac:(discriminate) ltac:(discriminate))|].
  exact (Hget' 10 short addValue eq_refl ltac:(discriminate) ltac:(discriminate)).
Defined.

(** ** The class attribute that is written *)

(** C8. Dedup/sort independence: with sorting off and deduplication on,
    the tokens of the rebuilt class are the first occurrences of the
    tokens of the value, in the order of the value; with both off, no
    attribute is rewritten, so every attribute of the rebuilt block is the
    parsed attribute itself, with its text. With sorting off and
    deduplication on, the class attribute after the first pass has the
    text [class=], quote, the first occurrences in the layout of the
    class, quote: the class pass makes a clone with this text unless it
    is the text of the attribute already, the value so written splits
    into the first occurrences again, and the text of a replacement of
    the element holds this text. *)
Theorem dedup_sort_independence options :
  sortClasses options = false ->
  (removeDuplicates options = true ->
     forall rawValue, processed options rawValue = firstOccurrences (classes rawValue))
  /\ (removeDuplicates options = false ->
        (forall prop, classPass options prop = None)
        /\ forall props s, s ∈ (passes options props).1 ->
             isAttributeNode (node s) = true ->
             exists i : nat, ref s = Some i /\ props !! i = Some (node s))
  /\ (removeDuplicates options = true ->
        forall prop rawValue,
          attr_name prop = "class" -> attr_value prop = Some rawValue ->
          let tokens := firstOccurrences (classes rawValue) in
          let originalSource := source (attr_loc prop) in
          let text :=
            "class=" +:+ quote originalSource
            +:+ rebuiltValue options originalSource tokens +:+ quote originalSource in
          classPass options prop
          = (if String.eqb text originalSource then None
             else Some (cloneAttributeWithSource prop text))
          /\ (forall i : nat,
                source (propLoc (node (transformedAt options i (ATTRIBUTE prop)))) = text)
          /\ (tokens <> [] ->
                classes (rebuiltValue options originalSource tokens) = tokens)
          /\ (forall element templateOffset r,
                ATTRIBUTE prop ∈ node_props element ->
                buildUnifiedAttributeReplacement element templateOffset options = Some r ->
                exists texts,
                  value r = join (separator element options) texts /\ text ∈ texts)).
Proof.
  intros Hsort.
  assert (removeDuplicates options = true ->
          forall rawValue, processed options rawValue = firstOccurrences (classes rawValue))
    as Hfirst.
  { intros Hdedup rawValue. unfold processed. rewrite Hsort, Hdedup.
    apply uniq_firstOccurrences. }
  split; [exact Hfirst|]. split.
  - intros Hdedup. split; [intros prop; by apply classPass_off|].
    intros props s Hs Hattr. rewrite passes_perm in Hs.
    apply transformed_elem in Hs as (i & p & Hp & ->).
    exists i. unfold transformedAt in *. destruct p as [a|d].
    + simpl. rewrite classPass_off by done. simpl. done.
    + simpl in *. destruct (directivePass options d); simpl in *; done.
  - intros Hdedup prop rawValue Hname Hvalue tokens originalSource text.
    assert (classPass options prop
            = (if String.eqb text originalSource then None
               else Some (cloneAttributeWithSource prop text))) as Hpass.
    { unfold classPass. rewrite Hvalue, Hname, Hdedup, orb_true_r, String.eqb_refl.
      cbn [andb]. unfold rebuilt. rewrite (Hfirst Hdedup).
      subst text tokens originalSource.
      match goal with |- context [String.eqb ?a ?b] => by destruct (String.eqb a b) end. }
    assert (forall i : nat,
              source (propLoc (node (transformedAt options i (ATTRIBUTE prop)))) = text)
      as Htext.
    { intros i. unfold transformedAt, firstPass. rewrite Hpass.
      destruct (String.eqb_spec text originalSource) as [E|E];
        [symmetry; exact E|reflexivity]. }
    split; [exact Hpass|]. split; [exact Htext|]. split.
    + intros Hne. subst tokens. rewrite <- (Hfirst Hdedup) in Hne |- *.
      destruct (rebuiltValue_glue options originalSource _ Hne) as (w & Hw & Hw' & ->).
      apply split_glue; [done|done|apply processed_isToken].
    + intros element templateOffset r Hin Hbuild.
      destruct (buildUnified_inv _ _ _ _ Hbuild) as (first & rest & _ & _ & ->).
      eexists. split; [reflexivity|].
      apply list_elem_of_lookup in Hin as [i Hi].
      rewrite <- (Htext i). apply (list_elem_of_fmap_2 (fun p => source (propLoc (node p)))).
      rewrite passes_perm. unfold transformed.
      apply elem_of_lookup_imap. by exists i, (ATTRIBUTE prop).
Qed.

Lemma dedup_sort_independence_witness :
  sortClasses dedupOnly = false
  /\ processed dedupOnly "b a b c" = ["b"; "a"; "c"]
  /\ classPass dedupOnly repeatedClass
     = Some (cloneAttributeWithSource repeatedClass ("class=" +:+ dq "b a c"))
  /\ classes "b a c" = ["b"; "a"; "c"].
Proof.
  destruct (dedup_sort_independence dedupOnly eq_refl) as (Hfirst & _ & Hwritten).
  destruct (Hwritten eq_refl repeatedClass "b a b c" eq_refl eq_refl)
    as (Hpass & _ & Hsplit & _).
  split; [reflexivity|]. split; [exact (Hfirst eq_refl "b a b c")|].
  split; [exact Hpass|]. exact (Hsplit ltac:(discriminate)).
Defined.

(** ** What the first pass keeps *)

(** X19. A prop rewritten by the first pass is the parsed prop with
    another source text: an attribute keeps its name and its value, a
    directive its name, argument, modifiers and expression, both keep
    their start and end offsets, and the new text differs from the old
    one. *)
Theorem first_pass_changes_text_only options prop clone :
  firstPass options prop = Some clone ->
  clone
  = match prop with
    | ATTRIBUTE a =>
        ATTRIBUTE {| attr_name := attr_name a;
                     attr_value := attr_value a;
                     attr_loc := {| start_offset := start_offset (attr_loc a);
                                    end_offset := end_offset (attr_loc a);
                                    source := source (propLoc clone) |} |}
    | DIRECTIVE d =>
        DIRECTIVE {| dir_name := dir_name d;
                     dir_arg := dir_arg d;
                     dir_modifiers := dir_modifiers d;
                     dir_exp := dir_exp d;
                     dir_loc := {| start_offset := start_offset (dir_loc d);
                                   end_offset := end_offset (dir_loc d);
                                   source := source (propLoc clone) |} |}
    end
  /\ source (propLoc clone) <> source (propLoc prop)
  /\ isAttributeNode clone = isAttributeNode prop
  /\ propName clone = propName prop
  /\ propHasValue clone = propHasValue prop
  /\ start_offset (propLoc clone) = start_offset (propLoc prop)
  /\ end_offset (propLoc clone) = end_offset (propLoc prop).
Proof.
  destruct prop as [a|d]; simpl.
  - unfold classPass. destruct (attr_value a) as [rawValue|] eqn:Hv; [|done].
    destruct (String.eqb (attr_name a) "class" && _); [|done].
    destruct (String.eqb_spec (rebuilt options a rawValue) (source (attr_loc a)));
      simpl; [done|].
    intros [= <-]. unfold cloneAttributeWithSource, withSource. simpl. rewrite Hv. done.
  - unfold directivePass. destruct (normalizeDirectives options); [|done].
    destruct (getDirectiveTransform d 0 _ _) as [res|]; [|done]. simpl.
    destruct (String.eqb_spec (value res) (source (dir_loc d))); simpl; [done|].
    intros [= <-]. unfold cloneDirectiveWithSource, withSource. simpl. done.
Qed.

Lemma first_pass_changes_text_only_witness :
  ATTRIBUTE (cloneAttributeWithSource blankClass ("class=" +:+ dq "undefined"))
  = ATTRIBUTE {| attr_name := "class"; attr_value := Some (str NL);
                 attr_loc := {| start_offset := 5; end_offset := 14;
                                source := "class=" +:+ dq "undefined" |} |}.
Proof.
  exact (proj1 (first_pass_changes_text_only preserving (ATTRIBUTE blankClass) _ eq_refl)).
Defined.
